(** * Draco core: bit utilities, encoder/decoder buffers, mesh corners and
      compression options.

    A shallow embedding of the C++ sources

      - draco/core/bit_utils.h          (ConvertSignedIntToSymbol, ...)
      - draco/core/encoder_buffer.h     (EncoderBuffer, BitEncoder)
      - draco/core/decoder_buffer.h     (DecoderBuffer, BitDecoder)
      - draco/mesh/mesh.h               (Mesh::CornerToPointId)
      - draco/compression/draco_compression_options.h

    Everything is modelled on the original C++ branch of the headers (the
    one compiled when DRACO_RUST_CORE is not defined).  Fixed-width integers
    are integers of [Z] with the wrap-around written out; a C++ operation
    whose behaviour is undefined (signed overflow, an access outside an
    array) yields [None]. *)

From Stdlib Require Import ZArith Lia Bool Ascii.
From stdpp Require Import base option list.

Local Open Scope Z_scope.

(** ** Fixed-width integers *)

Module Int.

(** [static_cast] to an unsigned type of [w] bits. *)
Definition to_unsigned (w z : Z) : Z := z mod 2 ^ w.

(** [static_cast] to a signed type of [w] bits (two's complement). *)
Definition to_signed (w z : Z) : Z :=
  (z + 2 ^ (w - 1)) mod 2 ^ w - 2 ^ (w - 1).

Definition signed_min (w : Z) : Z := - 2 ^ (w - 1).
Definition signed_max (w : Z) : Z := 2 ^ (w - 1) - 1.

Definition in_signed (w z : Z) : Prop := signed_min w <= z <= signed_max w.
Definition in_unsigned (w z : Z) : Prop := 0 <= z < 2 ^ w.

Definition in_signedb (w z : Z) : bool :=
  (signed_min w <=? z) && (z <=? signed_max w).

(** The result of a signed arithmetic operation: it exists only when the
    mathematical value is representable. *)
Definition signed_result (w z : Z) : option Z :=
  if in_signedb w z then Some z else None.

(** [x << k] on an unsigned type of [w] bits. *)
Definition shl (w x k : Z) : Z := to_unsigned w (Z.shiftl x k).

End Int.

(** ** draco/core/bit_utils.h *)

Module BitUtils.
Import Int.

(** [ConvertSignedIntToSymbol<IntTypeT>], for a signed type of [w] bits.

<<
    if (val >= 0) {
      return static_cast<UnsignedType>(val) << 1;
    }
    val = -(val + 1);  // Map -1 to 0, -2 to -1, etc..
    UnsignedType ret = static_cast<UnsignedType>(val);
    ret <<= 1;
    ret |= 1;
    return ret;
>> *)
Definition ConvertSignedIntToSymbol (w val : Z) : option Z :=
  if 0 <=? val then
    Some (shl w (to_unsigned w val) 1)
  else
    t ← signed_result w (val + 1);
    val' ← signed_result w (- t);
    let ret := to_unsigned w val' in
    let ret := shl w ret 1 in
    let ret := Z.lor ret 1 in
    Some ret.

(** [ConvertSymbolToSignedInt<IntTypeT>], for an unsigned type of [w] bits.

<<
    const bool is_positive = !static_cast<bool>(val & 1);
    val >>= 1;
    if (is_positive) {
      return static_cast<SignedType>(val);
    }
    SignedType ret = static_cast<SignedType>(val);
    ret = -ret - 1;
    return ret;
>> *)
Definition ConvertSymbolToSignedInt (w val : Z) : option Z :=
  let is_positive := negb (negb (Z.land val 1 =? 0)) in
  let val := Z.shiftr val 1 in
  if is_positive then
    Some (to_signed w val)
  else
    let ret := to_signed w val in
    n ← signed_result w (- ret);
    signed_result w (n - 1).

(** The zig-zag map as the specification writes it. *)
Definition zigzag_spec (v : Z) : Z := if v <? 0 then - 2 * v - 1 else 2 * v.

(** Its inverse as the specification writes it:
    [v = (u & 1) ? -((u+1)>>1) : (u>>1)]. *)
Definition unzigzag_spec (u : Z) : Z :=
  if negb (Z.land u 1 =? 0) then - Z.shiftr (u + 1) 1 else Z.shiftr u 1.

End BitUtils.

(** ** Memory *)

Module Mem.

(** A byte is an integer in [0, 256); a region of memory is the list of
    its bytes. *)
Abbreviation bytes := (list Z).

Definition len (m : bytes) : Z := Z.of_nat (length m).

(** [memcpy(dst, src + src_off, n)]: the [n] bytes of [src] from offset
    [src_off] replace the first [n] bytes of [dst].  Both ranges have to
    lie inside their regions. *)
Definition memcpy (dst src : bytes) (src_off n : Z) : option bytes :=
  if (0 <=? src_off) && (0 <=? n) && (src_off + n <=? len src)
     && (n <=? len dst)
  then Some (take (Z.to_nat n) (drop (Z.to_nat src_off) src)
               ++ drop (Z.to_nat n) dst)
  else None.

(** Bit [k] of a region seen as a flat stream of bits: bit [k mod 8] of
    byte [k / 8], and [false] past the end of the region. *)
Definition bit_at (m : bytes) (k : Z) : bool :=
  match m !! Z.to_nat (k / 8) with
  | Some byte => Z.testbit byte (k mod 8)
  | None => false
  end.

End Mem.

(** ** draco/core/decoder_buffer.h *)

Module DecoderBuffer.
Import Int Mem.

(** *** The internal helper class [BitDecoder]

    [bit_buffer_] and [bit_buffer_end_] delimit a region of memory; the
    model keeps the bytes of that region.  [bit_offset_] is a [size_t]. *)
Record BitDecoder : Type := mkBitDecoder {
  bit_buffer_ : bytes;
  bit_offset_ : Z
}.

(** [reset(b, s)]: [mem] is the memory at [b]. *)
Definition reset (mem : bytes) (s : Z) : BitDecoder :=
  {| bit_offset_ := 0; bit_buffer_ := take (Z.to_nat s) mem |}.

Definition BitsDecoded (d : BitDecoder) : Z := bit_offset_ d.

Definition AvailBits (d : BitDecoder) : Z :=
  to_unsigned 64 (len (bit_buffer_ d) * 8 - bit_offset_ d).

(** [GetBit].  The test [bit_buffer_ + byte_offset < bit_buffer_end_] is
    the test that [byte_offset] is an index of the region, which is when
    the lookup succeeds.

<<
    const size_t off = bit_offset_;
    const size_t byte_offset = off >> 3;
    const int bit_shift = static_cast<int>(off & 0x7);
    if (bit_buffer_ + byte_offset < bit_buffer_end_) {
      const int bit = (bit_buffer_[byte_offset] >> bit_shift) & 1;
      bit_offset_ = off + 1;
      return bit;
    }
    return 0;
>> *)
Definition GetBit (d : BitDecoder) : Z * BitDecoder :=
  let off := bit_offset_ d in
  let byte_offset := Z.shiftr off 3 in
  let bit_shift := Z.land off 7 in
  match bit_buffer_ d !! Z.to_nat byte_offset with
  | Some byte =>
      let bit := Z.land (Z.shiftr byte bit_shift) 1 in
      (bit, {| bit_buffer_ := bit_buffer_ d;
               bit_offset_ := to_unsigned 64 (off + 1) |})
  | None => (0, d)
  end.

(** [PeekBit(offset)]. *)
Definition PeekBit (offset : Z) (d : BitDecoder) : Z :=
  let off := to_unsigned 64 (bit_offset_ d + offset) in
  let byte_offset := Z.shiftr off 3 in
  let bit_shift := Z.land off 7 in
  match bit_buffer_ d !! Z.to_nat byte_offset with
  | Some byte => Z.land (Z.shiftr byte bit_shift) 1
  | None => 0
  end.

Definition ConsumeBits (k : Z) (d : BitDecoder) : BitDecoder :=
  {| bit_buffer_ := bit_buffer_ d;
     bit_offset_ := to_unsigned 64 (bit_offset_ d + k) |}.

(** The loop of [GetBits]:
    [for (bit = ...; bit < nbits; ++bit) value |= GetBit() << bit;]
    with [n] iterations left. *)
Fixpoint GetBits_loop (n : nat) (bit value : Z) (d : BitDecoder)
  : Z * BitDecoder :=
  match n with
  | O => (value, d)
  | S n' =>
      let '(b, d') := GetBit d in
      GetBits_loop n' (bit + 1)
        (Z.lor value (to_unsigned 32 (Z.shiftl b bit))) d'
  end.

(** [GetBits(nbits, x)]: the result flag, the content of [*x] after the
    call ([x] is its content before) and the decoder after the call.

<<
    if (nbits > 32) {
      return false;
    }
    uint32_t value = 0;
    for (uint32_t bit = 0; bit < nbits; ++bit) {
      value |= GetBit() << bit;
    }
    *x = value;
    return true;
>> *)
Definition GetBits (nbits x : Z) (d : BitDecoder) : bool * Z * BitDecoder :=
  if 32 <? nbits then (false, x, d)
  else
    let '(value, d') := GetBits_loop (Z.to_nat nbits) 0 0 d in
    (true, value, d').

(** Where [GetBits] leaves the bit offset after [n] bits from [off]: it
    advances by [n], but not past the end of the region. *)
Definition offset_after (r : bytes) (off n : Z) : Z :=
  Z.min (off + n) (Z.max off (8 * len r)).

(** *** The class [DecoderBuffer]

    [data_] is the memory the pointer [data_] addresses; [data_size_] and
    [pos_] are [int64_t]. *)
Record t : Type := mk {
  data_ : bytes;
  data_size_ : Z;
  pos_ : Z;
  bit_decoder_ : BitDecoder;
  bit_mode_ : bool;
  bitstream_version_ : Z
}.

Definition set_pos (p : Z) (b : t) : t :=
  {| data_ := data_ b; data_size_ := data_size_ b; pos_ := p;
     bit_decoder_ := bit_decoder_ b; bit_mode_ := bit_mode_ b;
     bitstream_version_ := bitstream_version_ b |}.

Definition set_bit_decoder (d : BitDecoder) (b : t) : t :=
  {| data_ := data_ b; data_size_ := data_size_ b; pos_ := pos_ b;
     bit_decoder_ := d; bit_mode_ := bit_mode_ b;
     bitstream_version_ := bitstream_version_ b |}.

Definition bit_decoder_active (b : t) : bool := bit_mode_ b.
Definition decoded_size (b : t) : Z := pos_ b.
Definition bitstream_version (b : t) : Z := bitstream_version_ b.

(** [remaining_size]: [data_size_ - pos_] in [int64_t]. *)
Definition remaining_size (b : t) : option Z :=
  signed_result 64 (data_size_ b - pos_ b).

(** [pos_ + size] as the code computes it: [pos_] is converted to the
    unsigned 64-bit type of [size], the sum wraps around. *)
Definition pos_plus (b : t) (size : Z) : Z :=
  to_unsigned 64 (to_unsigned 64 (pos_ b) + size).

(** The guard of [Decode] and [Peek]:
    [data_size_ < static_cast<int64_t>(pos_ + size_to_decode)]. *)
Definition overflows (b : t) (size : Z) : bool :=
  data_size_ b <? to_signed 64 (pos_plus b size).

(** [Peek(void *out_data, size_t size_to_peek)]: the result flag, the
    memory at [out_data] after the call ([out_data] is that memory before
    the call) and the buffer after the call.

<<
    if (data_size_ < static_cast<int64_t>(pos_ + size_to_peek)) {
      return false;  // Buffer overflow.
    }
    memcpy(out_data, (data_ + pos_), size_to_peek);
    return true;
>> *)
Definition Peek (out_data : bytes) (size_to_peek : Z) (b : t)
  : option (bool * bytes * t) :=
  if overflows b size_to_peek then Some (false, out_data, b)
  else
    out ← memcpy out_data (data_ b) (pos_ b) size_to_peek;
    Some (true, out, b).

(** [Peek<T>(T *out_val)], [sizeof_T] being [sizeof(T)].

<<
    const size_t size_to_decode = sizeof(T);
    if (data_size_ < static_cast<int64_t>(pos_ + size_to_decode)) {
      return false;  // Buffer overflow.
    }
    memcpy(out_val, (data_ + pos_), size_to_decode);
    return true;
>> *)
Definition Peek_T (sizeof_T : Z) (out_val : bytes) (b : t)
  : option (bool * bytes * t) :=
  let size_to_decode := sizeof_T in
  if overflows b size_to_decode then Some (false, out_val, b)
  else
    out ← memcpy out_val (data_ b) (pos_ b) size_to_decode;
    Some (true, out, b).

(** [Decode(void *out_data, size_t size_to_decode)].

<<
    if (data_size_ < static_cast<int64_t>(pos_ + size_to_decode)) {
      return false;  // Buffer overflow.
    }
    memcpy(out_data, (data_ + pos_), size_to_decode);
    pos_ += size_to_decode;
    return true;
>> *)
Definition Decode (out_data : bytes) (size_to_decode : Z) (b : t)
  : option (bool * bytes * t) :=
  if overflows b size_to_decode then Some (false, out_data, b)
  else
    out ← memcpy out_data (data_ b) (pos_ b) size_to_decode;
    Some (true, out, set_pos (to_signed 64 (pos_plus b size_to_decode)) b).

(** [Decode<T>(T *out_val)].

<<
    if (!Peek(out_val)) {
      return false;
    }
    pos_ += sizeof(T);
    return true;
>> *)
Definition Decode_T (sizeof_T : Z) (out_val : bytes) (b : t)
  : option (bool * bytes * t) :=
  '(ok, out, b) ← Peek_T sizeof_T out_val b;
  if negb ok then Some (false, out, b)
  else Some (true, out, set_pos (to_signed 64 (pos_plus b sizeof_T)) b).

(** [Advance(bytes)]: [pos_ += bytes] in [int64_t]. *)
Definition Advance (n : Z) (b : t) : option t :=
  p ← signed_result 64 (pos_ b + n); Some (set_pos p b).

Definition StartDecodingFrom (offset : Z) (b : t) : t := set_pos offset b.

(** [DecodeLeastSignificantBits32(nbits, out_value)].

<<
    if (!bit_decoder_active()) {
      return false;
    }
    return bit_decoder_.GetBits(nbits, out_value);
>> *)
Definition DecodeLeastSignificantBits32 (nbits out_value : Z) (b : t)
  : bool * Z * t :=
  if negb (bit_decoder_active b) then (false, out_value, b)
  else
    let '(ok, value, d') := GetBits nbits out_value (bit_decoder_ b) in
    (ok, value, set_bit_decoder d' b).

(** The four byte-mode reads. *)
Inductive byte_read : Type := ReadDecode | ReadDecode_T | ReadPeek | ReadPeek_T.

Definition run (r : byte_read) (out : bytes) (size : Z) (b : t)
  : option (bool * bytes * t) :=
  match r with
  | ReadDecode => Decode out size b
  | ReadDecode_T => Decode_T size out b
  | ReadPeek => Peek out size b
  | ReadPeek_T => Peek_T size out b
  end.

Definition advances (r : byte_read) : bool :=
  match r with
  | ReadDecode | ReadDecode_T => true
  | ReadPeek | ReadPeek_T => false
  end.

(** A buffer as [Init(data, data_size)] sets it up: [data_size_] is the
    number of bytes at [data_]. *)
Definition initialised (b : t) : Prop :=
  data_size_ b = len (data_ b) /\ in_signed 64 (data_size_ b).

(** The bytes a read of [size] bytes at the parsing position delivers. *)
Definition bytes_at_pos (b : t) (size : Z) : bytes :=
  take (Z.to_nat size) (drop (Z.to_nat (pos_ b)) (data_ b)).

End DecoderBuffer.

(** ** draco/core/encoder_buffer.h *)

Module EncoderBuffer.
Import Int Mem.

(** *** The internal helper class [BitEncoder]

    [bit_buffer_] is a pointer into the vector [buffer_] of the enclosing
    [EncoderBuffer]: the model keeps the index of the byte it points to,
    and the operations act on the shared vector. *)
Record BitEncoder : Type := mkBitEncoder {
  bit_buffer_ : Z;
  bit_offset_ : Z
}.

Definition Bits (e : BitEncoder) : Z := bit_offset_ e.

(** [PutBit(value)] on the memory [mem] the encoder writes to.

<<
    const int byte_size = 8;
    const uint64_t off = static_cast<uint64_t>(bit_offset_);
    const uint64_t byte_offset = off / byte_size;
    const int bit_shift = off % byte_size;
    bit_buffer_[byte_offset] &= ~(1 << bit_shift);
    bit_buffer_[byte_offset] |= value << bit_shift;
    bit_offset_++;
>> *)
Definition PutBit (value : Z) (mem : bytes) (e : BitEncoder)
  : option (bytes * BitEncoder) :=
  let byte_size := 8 in
  let off := bit_offset_ e in
  let byte_offset := off / byte_size in
  let bit_shift := off mod byte_size in
  let i := bit_buffer_ e + byte_offset in
  if (0 <=? i) && (i <? len mem) then
    byte ← mem !! Z.to_nat i;
    let byte := to_unsigned 8 (Z.land byte (Z.lnot (Z.shiftl 1 bit_shift))) in
    let byte := to_unsigned 8 (Z.lor byte (Z.shiftl value bit_shift)) in
    Some (<[Z.to_nat i := byte]> mem,
          {| bit_buffer_ := bit_buffer_ e;
             bit_offset_ := to_unsigned 64 (off + 1) |})
  else None.

(** The loop of [PutBits], with [n] iterations left; [data >> bit] is
    defined for [bit < 32] only. *)
Fixpoint PutBits_loop (n : nat) (bit data : Z) (mem : bytes) (e : BitEncoder)
  : option (bytes * BitEncoder) :=
  match n with
  | O => Some (mem, e)
  | S n' =>
      if bit <? 32 then
        '(mem', e') ← PutBit (Z.land (Z.shiftr data bit) 1) mem e;
        PutBits_loop n' (bit + 1) data mem' e'
      else None
  end.

(** [PutBits(data, nbits)].

<<
    for (int32_t bit = 0; bit < nbits; ++bit) {
      PutBit((data >> bit) & 1);
    }
>> *)
Definition PutBits (data nbits : Z) (mem : bytes) (e : BitEncoder)
  : option (bytes * BitEncoder) :=
  PutBits_loop (Z.to_nat nbits) 0 data mem e.

(** *** The class [EncoderBuffer]

    [bit_encoder_] is a [std::unique_ptr], [None] being the null
    pointer. *)
Record t : Type := mk {
  buffer_ : bytes;
  bit_encoder_ : option BitEncoder;
  bit_encoder_reserved_bytes_ : Z;
  encode_bit_sequence_size_ : bool
}.

Definition bit_encoder_active (b : t) : bool :=
  0 <? bit_encoder_reserved_bytes_ b.

Definition data (b : t) : bytes := buffer_ b.
Definition size (b : t) : Z := len (buffer_ b).

Definition set_buffer (m : bytes) (b : t) : t :=
  {| buffer_ := m; bit_encoder_ := bit_encoder_ b;
     bit_encoder_reserved_bytes_ := bit_encoder_reserved_bytes_ b;
     encode_bit_sequence_size_ := encode_bit_sequence_size_ b |}.

Definition set_bit_encoder (e : option BitEncoder) (b : t) : t :=
  {| buffer_ := buffer_ b; bit_encoder_ := e;
     bit_encoder_reserved_bytes_ := bit_encoder_reserved_bytes_ b;
     encode_bit_sequence_size_ := encode_bit_sequence_size_ b |}.

(** [EncodeLeastSignificantBits32(nbits, value)].

<<
    if (!bit_encoder_active()) {
      return false;
    }
    bit_encoder_->PutBits(value, nbits);
    return true;
>> *)
Definition EncodeLeastSignificantBits32 (nbits value : Z) (b : t)
  : option (bool * t) :=
  if negb (bit_encoder_active b) then Some (false, b)
  else
    e ← bit_encoder_ b;
    '(mem', e') ← PutBits value nbits (buffer_ b) e;
    Some (true, set_bit_encoder (Some e') (set_buffer mem' b)).

(** [Encode<T>(const T &data)]: [src_data] is the object representation
    of [data], [sizeof(T)] bytes.

<<
    if (bit_encoder_active()) {
      return false;
    }
    const uint8_t *src_data = reinterpret_cast<const uint8_t *>(&data);
    buffer_.insert(buffer_.end(), src_data, src_data + sizeof(T));
    return true;
>> *)
Definition Encode_T (src_data : bytes) (b : t) : bool * t :=
  if bit_encoder_active b then (false, b)
  else (true, set_buffer (buffer_ b ++ src_data) b).

(** [Encode(const void *data, size_t data_size)]: [src_data] is the
    memory at [data], of which [data_size] bytes are read.

<<
    if (bit_encoder_active()) {
      return false;
    }
    const uint8_t *src_data = reinterpret_cast<const uint8_t *>(data);
    buffer_.insert(buffer_.end(), src_data, src_data + data_size);
    return true;
>> *)
Definition Encode (src_data : bytes) (data_size : Z) (b : t)
  : option (bool * t) :=
  if bit_encoder_active b then Some (false, b)
  else if (0 <=? data_size) && (data_size <=? len src_data) then
    Some (true,
          set_buffer (buffer_ b ++ take (Z.to_nat data_size) src_data) b)
  else None.

End EncoderBuffer.

(** ** draco/mesh/mesh.h *)

Module Mesh.
Import Int.

(** [Face] is [std::array<PointIndex, 3>]; a [PointIndex] wraps a
    [uint32_t]. *)
Record Face : Type := mkFace { p0 : Z; p1 : Z; p2 : Z }.

(** [face[i]]: defined for the three positions of the array. *)
Definition Face_at (f : Face) (i : Z) : option Z :=
  if i =? 0 then Some (p0 f)
  else if i =? 1 then Some (p1 f)
  else if i =? 2 then Some (p2 f)
  else None.

Record t : Type := mk {
  faces_ : list Face
}.

Definition AddFace (f : Face) (m : t) : t := {| faces_ := faces_ m ++ [f] |}.
Definition NumFaces (m : t) : Z := Z.of_nat (length (faces_ m)).

(** A computation that reads the container [faces_]: its result, and the
    indices at which it read the container, in order. *)
Definition reading (A : Type) : Type := list Z * option A.

(** [face(i)]: [faces_[i]], one read of the container; the element exists
    when [i] is below its size. *)
Definition face (m : t) (i : Z) : reading Face :=
  ([i], if 0 <=? i then faces_ m !! Z.to_nat i else None).

Section Indices.
(** The constants of draco/attributes/geometry_indices.h, which is not
    among the headers modelled here: the values of the two [uint32_t]
    index wrappers [kInvalidCornerIndex] and [kInvalidPointIndex]. *)
Variable kInvalidCornerIndex : Z.
Variable kInvalidPointIndex : Z.

(** [CornerToPointId(int ci)].

<<
    if (ci < 0 || static_cast<uint32_t>(ci) == kInvalidCornerIndex.value()) {
      return kInvalidPointIndex;
    }
    return this->face(FaceIndex(ci / 3))[ci % 3];
>> *)
Definition CornerToPointId (m : t) (ci : Z) : reading Z :=
  if (ci <? 0) || (to_unsigned 32 ci =? kInvalidCornerIndex) then
    ([], Some kInvalidPointIndex)
  else
    let '(log, f) := face m (to_unsigned 32 (Z.quot ci 3)) in
    (log, f ← f; Face_at f (Z.rem ci 3)).

(** [CornerToPointId(CornerIndex ci)]: [ci.value()] is a [uint32_t],
    converted to the [int] parameter of the function above. *)
Definition CornerToPointId_CornerIndex (m : t) (ci : Z) : reading Z :=
  CornerToPointId m (to_signed 32 ci).

End Indices.

End Mesh.

(** ** draco/compression/draco_compression_options.h *)

Module Options.

Inductive Mode : Type := UNDEFINED | LOCAL_QUANTIZATION_BITS | GLOBAL_GRID.

(** [spacing_] is a [float]; the model keeps the decimal literal as a
    pair numerator, denominator. *)
Record SpatialQuantizationOptions : Type := mkSpatial {
  mode_ : Mode;
  quantization_bits_ : Z;
  spacing_ : Z * Z
}.

(** The default constructor. *)
Definition SpatialQuantizationOptions_default : SpatialQuantizationOptions :=
  {| mode_ := UNDEFINED; quantization_bits_ := 0; spacing_ := (0, 1) |}.

Record DracoCompressionOptions : Type := mkOptions {
  compression_level : Z;
  quantization_position : SpatialQuantizationOptions;
  quantization_bits_tex_coord : Z;
  quantization_bits_normal : Z;
  quantization_bits_color : Z;
  quantization_bits_generic : Z;
  quantization_bits_tangent : Z;
  quantization_bits_weight : Z;
  quantization_range : Z * Z;
  quantization_origin : option (list (Z * Z));
  create_metadata : bool;
  preserve_polygons : bool;
  use_built_in_attribute_compression : bool
}.

Section Constructor.
(** [SpatialQuantizationOptions(int quantization_bits)] is declared in
    the header; its definition is a parameter of the constructor below. *)
Variable SpatialQuantizationOptions_of_bits : Z -> SpatialQuantizationOptions.

(** [DracoCompressionOptions::DracoCompressionOptions()]. *)
Definition DracoCompressionOptions_default : DracoCompressionOptions :=
  {| compression_level := 7;
     quantization_position := SpatialQuantizationOptions_of_bits 11;
     quantization_bits_tex_coord := 10;
     quantization_bits_normal := 8;
     quantization_bits_color := 8;
     quantization_bits_generic := 8;
     quantization_bits_tangent := 8;
     quantization_bits_weight := 8;
     quantization_range := (-1, 1);
     quantization_origin := None;
     create_metadata := false;
     preserve_polygons := false;
     use_built_in_attribute_compression := true |}.

End Constructor.

(** The attribute kinds the table of defaults speaks of. *)
Inductive AttributeKind : Type := Position | Normal | Color | TexCoord.

(** The number of quantization bits the options hold for an attribute
    kind; for positions it is the field of the spatial options. *)
Definition quantization_bits (o : DracoCompressionOptions)
    (k : AttributeKind) : Z :=
  match k with
  | Position => quantization_bits_ (quantization_position o)
  | Normal => quantization_bits_normal o
  | Color => quantization_bits_color o
  | TexCoord => quantization_bits_tex_coord o
  end.

(** The defaults as the specification lists them. *)
Definition spec_default_bits (k : AttributeKind) : Z :=
  match k with
  | Position => 14
  | Normal => 10
  | Color => 8
  | TexCoord => 12
  end.

End Options.

(** ** Sample states *)

Module Samples.

(** A decoder buffer over two bytes, one of them read. *)
Definition two_bytes_at_1 : DecoderBuffer.t :=
  {| DecoderBuffer.data_ := [1; 2];
     DecoderBuffer.data_size_ := 2;
     DecoderBuffer.pos_ := 1;
     DecoderBuffer.bit_decoder_ := DecoderBuffer.reset [] 0;
     DecoderBuffer.bit_mode_ := false;
     DecoderBuffer.bitstream_version_ := 0 |}.

(** A decoder buffer in bit mode over the single byte 0xFF, at bit offset
    [off]. *)
Definition bits_of_255 (off : Z) : DecoderBuffer.t :=
  {| DecoderBuffer.data_ := [255];
     DecoderBuffer.data_size_ := 1;
     DecoderBuffer.pos_ := 0;
     DecoderBuffer.bit_decoder_ :=
       {| DecoderBuffer.bit_buffer_ := [255];
          DecoderBuffer.bit_offset_ := off |};
     DecoderBuffer.bit_mode_ := true;
     DecoderBuffer.bitstream_version_ := 0 |}.

(** An encoder buffer in bit mode: two bytes reserved for the bit encoder
    after one byte of payload. *)
Definition encoder_in_bit_mode : EncoderBuffer.t :=
  {| EncoderBuffer.buffer_ := [9; 0; 0];
     EncoderBuffer.bit_encoder_ :=
       Some {| EncoderBuffer.bit_buffer_ := 1;
               EncoderBuffer.bit_offset_ := 0 |};
     EncoderBuffer.bit_encoder_reserved_bytes_ := 2;
     EncoderBuffer.encode_bit_sequence_size_ := false |}.

(** The same bytes as the decoder sees them, in bit mode from byte 1. *)
Definition decoder_in_bit_mode (data : Mem.bytes) : DecoderBuffer.t :=
  {| DecoderBuffer.data_ := data;
     DecoderBuffer.data_size_ := Mem.len data;
     DecoderBuffer.pos_ := 1;
     DecoderBuffer.bit_decoder_ := DecoderBuffer.reset (drop 1 data) 2;
     DecoderBuffer.bit_mode_ := true;
     DecoderBuffer.bitstream_version_ := 0 |}.

(** A mesh of two triangles over four points. *)
Definition quad : Mesh.t :=
  {| Mesh.faces_ := [ {| Mesh.p0 := 0; Mesh.p1 := 1; Mesh.p2 := 2 |};
                      {| Mesh.p0 := 0; Mesh.p1 := 2; Mesh.p2 := 3 |} ] |}.

(** A decoder buffer over four bytes, one of them read. *)
Definition four_bytes_at_1 : DecoderBuffer.t :=
  {| DecoderBuffer.data_ := [10; 20; 30; 40];
     DecoderBuffer.data_size_ := 4;
     DecoderBuffer.pos_ := 1;
     DecoderBuffer.bit_decoder_ := DecoderBuffer.reset [] 0;
     DecoderBuffer.bit_mode_ := false;
     DecoderBuffer.bitstream_version_ := 0 |}.

End Samples.

(** ** draco/core/bit_utils.h: the 32-bit utilities *)

Module BitUtils32.
Import Int.

(** [CountOneBits32(uint32_t n)], returning an [int].

<<
    n -= ((n >> 1) & 0x55555555);
    n = ((n >> 2) & 0x33333333) + (n & 0x33333333);
    return (((n + (n >> 4)) & 0xF0F0F0F) * 0x1010101) >> 24;
>> *)
Definition CountOneBits32 (n : Z) : Z :=
  let n := to_unsigned 32 (n - Z.land (Z.shiftr n 1) 0x55555555) in
  let n := to_unsigned 32
             (Z.land (Z.shiftr n 2) 0x33333333 + Z.land n 0x33333333) in
  to_signed 32
    (Z.shiftr
       (to_unsigned 32
          (Z.land (to_unsigned 32 (n + Z.shiftr n 4)) 0xF0F0F0F * 0x1010101))
       24).

(** The number of bits set among the [w] low bits of [n], which
    [CountOneBits32] is compared with. *)
Fixpoint popcount (w : nat) (n : Z) : Z :=
  match w with
  | O => 0
  | S w' => popcount w' n + Z.b2z (Z.testbit n (Z.of_nat w'))
  end.

(** [ReverseBits32(uint32_t n)].

<<
    n = ((n >> 1) & 0x55555555) | ((n & 0x55555555) << 1);
    n = ((n >> 2) & 0x33333333) | ((n & 0x33333333) << 2);
    n = ((n >> 4) & 0x0F0F0F0F) | ((n & 0x0F0F0F0F) << 4);
    n = ((n >> 8) & 0x00FF00FF) | ((n & 0x00FF00FF) << 8);
    return (n >> 16) | (n << 16);
>> *)
Definition ReverseBits32 (n : Z) : Z :=
  let n := Z.lor (Z.land (Z.shiftr n 1) 0x55555555)
                 (shl 32 (Z.land n 0x55555555) 1) in
  let n := Z.lor (Z.land (Z.shiftr n 2) 0x33333333)
                 (shl 32 (Z.land n 0x33333333) 2) in
  let n := Z.lor (Z.land (Z.shiftr n 4) 0x0F0F0F0F)
                 (shl 32 (Z.land n 0x0F0F0F0F) 4) in
  let n := Z.lor (Z.land (Z.shiftr n 8) 0x00FF00FF)
                 (shl 32 (Z.land n 0x00FF00FF) 8) in
  Z.lor (Z.shiftr n 16) (shl 32 n 16).

(** A shift of a 32-bit operand is defined for the counts 0 to 31. *)
Definition shift_count_ok (k : Z) : bool := (0 <=? k) && (k <? 32).

(** [CopyBits32(uint32_t *dst, int dst_offset, uint32_t src,
    int src_offset, int nbits)]: the content of [*dst] after the call,
    [dst] being its content before.

<<
    const uint32_t mask = (~static_cast<uint32_t>(0)) >> (32 - nbits)
                                                             << dst_offset;
    *dst = ( *dst & (~mask)) | (((src >> src_offset) << dst_offset) & mask);
>> *)
Definition CopyBits32 (dst dst_offset src src_offset nbits : Z) : option Z :=
  if shift_count_ok (32 - nbits) && shift_count_ok dst_offset
     && shift_count_ok src_offset
  then
    let mask := shl 32 (Z.shiftr (to_unsigned 32 (Z.lnot 0)) (32 - nbits))
                    dst_offset in
    Some (Z.lor (Z.land dst (to_unsigned 32 (Z.lnot mask)))
                (Z.land (shl 32 (Z.shiftr src src_offset) dst_offset) mask))
  else None.

(** [MostSignificantBit(uint32_t n)], the portable branch (the one used
    when neither [__GNUC__] nor [_MSC_VER] is defined), returning an
    [int].

<<
    uint32_t msb = 0;
    if (n) {
      if (0xFFFF0000 & n) { n >>= (1 << 4); msb |= (1 << 4); }
      if (0x0000FF00 & n) { n >>= (1 << 3); msb |= (1 << 3); }
      if (0x000000F0 & n) { n >>= (1 << 2); msb |= (1 << 2); }
      if (0x0000000C & n) { n >>= (1 << 1); msb |= (1 << 1); }
      if (0x00000002 & n) { msb |= (1 << 0); }
    } else {
      msb = -1;
    }
    return msb;
>> *)
Definition msb_step (mask k : Z) (st : Z * Z) : Z * Z :=
  let '(n, msb) := st in
  if negb (Z.land mask n =? 0)
  then (Z.shiftr n (Z.shiftl 1 k), Z.lor msb (Z.shiftl 1 k))
  else (n, msb).

Definition MostSignificantBit (n : Z) : Z :=
  let msb :=
    if negb (n =? 0) then
      let st := (n, 0) in
      let st := msb_step 0xFFFF0000 4 st in
      let st := msb_step 0x0000FF00 3 st in
      let st := msb_step 0x000000F0 2 st in
      let st := msb_step 0x0000000C 1 st in
      let '(n, msb) := st in
      if negb (Z.land 0x00000002 n =? 0) then Z.lor msb (Z.shiftl 1 0)
      else msb
    else to_unsigned 32 (-1) in
  to_signed 32 msb.

End BitUtils32.

(** ** draco/core/decoder_buffer.h: peeking at bits *)

Module BitDecoderPeek.
Import Int Mem DecoderBuffer.

(** The loop of [EnsureBits]:
    [for (int i = ...; i < k; ++i) buf |= PeekBit(i) << i;]
    with [n] iterations left. *)
Fixpoint EnsureBits_loop (n : nat) (i buf : Z) (d : BitDecoder) : Z :=
  match n with
  | O => buf
  | S n' =>
      EnsureBits_loop n' (i + 1)
        (Z.lor buf (to_unsigned 32 (Z.shiftl (PeekBit i d) i))) d
  end.

(** [EnsureBits(int k)]; its two checks, [k <= 24] and [k <= AvailBits()],
    are debug assertions.

<<
    uint32_t buf = 0;
    for (int i = 0; i < k; ++i) {
      buf |= PeekBit(i) << i;
    }
    return buf;  // Okay to return extra bits
>> *)
Definition EnsureBits (k : Z) (d : BitDecoder) : Z :=
  EnsureBits_loop (Z.to_nat k) 0 0 d.

End BitDecoderPeek.

(** ** draco/mesh/mesh.h: faces, attribute data and material masks *)

Module MeshFaces.
Import Int Mesh.

Section Faces.
(** [Face()], the value-initialised array of three point indices; the
    default value of a point index comes from draco/core/index_type.h and
    is a parameter here. *)
Variable default_face : Face.

(** [SetFace(FaceIndex face_id, const Face &face)]; [face_id.value() + 1]
    is computed in [uint32_t].

<<
    if (face_id >= static_cast<uint32_t>(faces_.size())) {
      faces_.resize(face_id.value() + 1, Face());
    }
    faces_[face_id] = face;
>> *)
Definition SetFace (face_id : Z) (f : Face) (m : t) : option t :=
  let faces :=
    if to_unsigned 32 (Z.of_nat (length (faces_ m))) <=? face_id
    then resize (Z.to_nat (to_unsigned 32 (face_id + 1))) default_face
                (faces_ m)
    else faces_ m in
  if (0 <=? face_id) && (face_id <? Z.of_nat (length faces))
  then Some {| faces_ := <[Z.to_nat face_id := f]> faces |}
  else None.

(** [SetNumFaces(int num_faces)]: [faces_.resize(num_faces, Face())]; a
    negative [int] becomes a size no vector can take. *)
Definition SetNumFaces (num_faces : Z) (m : t) : option t :=
  if 0 <=? num_faces
  then Some {| faces_ := resize (Z.to_nat num_faces) default_face (faces_ m) |}
  else None.

End Faces.

(** [GetFace(FaceIndex face_id)]: [faces_[face_id]]. *)
Definition GetFace (m : t) (face_id : Z) : option Face :=
  if 0 <=? face_id then faces_ m !! Z.to_nat face_id else None.

End MeshFaces.

Module MeshAttributeData.
Import Int.

Inductive MeshAttributeElementType : Type :=
  | MESH_VERTEX_ATTRIBUTE
  | MESH_CORNER_ATTRIBUTE
  | MESH_FACE_ATTRIBUTE.

(** [struct AttributeData], whose constructor sets [element_type] to
    [MESH_CORNER_ATTRIBUTE]. *)
Record AttributeData : Type := mkAttributeData {
  element_type : MeshAttributeElementType
}.

Definition AttributeData_default : AttributeData :=
  {| element_type := MESH_CORNER_ATTRIBUTE |}.

(** The vector [attribute_data_] of a mesh. *)
Abbreviation attribute_data := (list AttributeData).

(** [GetAttributeElementType(int att_id)]:
    [attribute_data_[att_id].element_type]. *)
Definition GetAttributeElementType (att_id : Z) (a : attribute_data)
  : option MeshAttributeElementType :=
  if 0 <=? att_id then element_type <$> a !! Z.to_nat att_id else None.

(** [SetAttributeElementType(int att_id, MeshAttributeElementType et)]:
    [attribute_data_[att_id].element_type = et]. *)
Definition SetAttributeElementType (att_id : Z) (et : MeshAttributeElementType)
    (a : attribute_data) : option attribute_data :=
  if (0 <=? att_id) && (att_id <? Z.of_nat (length a))
  then Some (<[Z.to_nat att_id := {| element_type := et |}]> a)
  else None.

(** [AddAttributeData(int att_id, MeshAttributeElementType element_type)];
    [att_id + 1] is computed in [int].

<<
    if (att_id >= static_cast<int>(attribute_data_.size())) {
      attribute_data_.resize(att_id + 1);
    }
    attribute_data_[att_id].element_type = element_type;
>> *)
Definition AddAttributeData (att_id : Z) (et : MeshAttributeElementType)
    (a : attribute_data) : option attribute_data :=
  a' ← (if to_signed 32 (Z.of_nat (length a)) <=? att_id
        then n ← signed_result 32 (att_id + 1);
             Some (resize (Z.to_nat n) AttributeData_default a)
        else Some a);
  SetAttributeElementType att_id et a'.

End MeshAttributeData.

Module MeshMaterialMasks.
Import Int.

(** The vector [mesh_features_material_masks_] of a mesh: for each mesh
    features index, the material indices of its masks. *)
Abbreviation masks := (list (list Z)).

(** [NumMeshFeaturesMaterialMasks(MeshFeaturesIndex index)], returning an
    [int].

<<
      if (index.value() >= mesh_features_material_masks_.size()) return 0;
      return static_cast<int>(mesh_features_material_masks_[index.value()].size());
>> *)
Definition NumMeshFeaturesMaterialMasks (index : Z) (ms : masks) : Z :=
  if Z.of_nat (length ms) <=? index then 0
  else
    match ms !! Z.to_nat index with
    | Some l => to_signed 32 (Z.of_nat (length l))
    | None => 0
    end.

(** [GetMeshFeaturesMaterialMask(MeshFeaturesIndex index, int mask_index)]:
    [mesh_features_material_masks_[index.value()][mask_index]]. *)
Definition GetMeshFeaturesMaterialMask (index mask_index : Z) (ms : masks)
  : option Z :=
  if (0 <=? index) && (0 <=? mask_index)
  then l ← ms !! Z.to_nat index; l !! Z.to_nat mask_index
  else None.

(** [AddMeshFeaturesMaterialMask(MeshFeaturesIndex index,
    int material_index)]; [index.value() + 1] is computed in [uint32_t].

<<
      if (index.value() >= mesh_features_material_masks_.size()) {
          mesh_features_material_masks_.resize(index.value() + 1);
      }
      mesh_features_material_masks_[index.value()].push_back(material_index);
>> *)
Definition AddMeshFeaturesMaterialMask (index material_index : Z) (ms : masks)
  : option masks :=
  let ms' :=
    if Z.of_nat (length ms) <=? index
    then resize (Z.to_nat (to_unsigned 32 (index + 1))) [] ms
    else ms in
  if 0 <=? index
  then l ← ms' !! Z.to_nat index;
       Some (<[Z.to_nat index := l ++ [material_index]]> ms')
  else None.

End MeshMaterialMasks.

(** ** More sample states *)

Module MoreSamples.

(** An encoder buffer outside bit mode that holds one byte. *)
Definition idle_encoder : EncoderBuffer.t :=
  {| EncoderBuffer.buffer_ := [7];
     EncoderBuffer.bit_encoder_ := None;
     EncoderBuffer.bit_encoder_reserved_bytes_ := 0;
     EncoderBuffer.encode_bit_sequence_size_ := false |}.

End MoreSamples.

(** ** Bytes *)

Module Bytes.

(** The values a byte of memory takes. *)
Definition is_byte (x : Z) : Prop := 0 <= x < 256.

End Bytes.


(** ** Path utilities ([path_utils.cc])

    A [std::string] is the list of its characters.  A position returned
    by [find_last_of] is [Some pos], and [std::string::npos] is [None]. *)

Module PathUtils.

Abbreviation text := (list ascii).

(** [s.find_last_of(...)]: the position of the last character of [s]
    that is one of the searched characters, [p] telling which they are. *)
Fixpoint find_last_of (p : ascii -> bool) (s : text) : option nat :=
  match s with
  | [] => None
  | c :: s' =>
      match find_last_of p s' with
      | Some pos => Some (S pos)
      | None => if p c then Some 0%nat else None
      end
  end.

(** The characters searched by [find_last_of("/\\")], by
    [find_last_of('.')] and by [find_last_of('/')]; the backslash is
    character 92. *)
Definition is_separator (c : ascii) : bool :=
  Ascii.eqb c "/" || Ascii.eqb c "092".

Definition is_dot (c : ascii) : bool := Ascii.eqb c ".".

Definition is_slash (c : ascii) : bool := Ascii.eqb c "/".

(** [SplitPathPrivate]: the folder path and the file name, which the
    source stores through the two out-pointers that are not null.

    With a separator at [pos], the folder path is
    [full_path.substr(0, pos + 1)] and the file name is
    [full_path.substr(pos + 1)]; without one, the folder path is the
    empty string and the file name is [full_path]. *)
Definition SplitPathPrivate (full_path : text) : text * text :=
  match find_last_of is_separator full_path with
  | Some pos => (take (pos + 1) full_path, drop (pos + 1) full_path)
  | None => ([], full_path)
  end.

Definition SplitPath (full_path : text) : text * text :=
  SplitPathPrivate full_path.

(** [ReplaceFileExtension].

<<
  const auto pos = in_file_name.find_last_of('.');
  if (pos == std::string::npos) {
    return in_file_name + "." + new_extension;
  }
  return in_file_name.substr(0, pos + 1) + new_extension;
>> *)
Definition ReplaceFileExtension (in_file_name new_extension : text) : text :=
  match find_last_of is_dot in_file_name with
  | None => in_file_name ++ ["."%char] ++ new_extension
  | Some pos => take (pos + 1) in_file_name ++ new_extension
  end.

(** [RemoveFileExtension].  A position that is not [npos] lies in the
    string, so [filename.length() - 1] does not wrap where it is
    compared.

<<
  const size_t pos = filename.find_last_of('.');
  if (pos == 0 || pos == std::string::npos || pos == filename.length() - 1) {
    return filename;
  }
  return filename.substr(0, pos);
>> *)
Definition RemoveFileExtension (filename : text) : text :=
  match find_last_of is_dot filename with
  | None => filename
  | Some pos =>
      if (pos =? 0)%nat || (pos =? length filename - 1)%nat
      then filename
      else take pos filename
  end.

(** [GetFullPath].

<<
  const auto pos = sibling_file_full_path.find_last_of("/\\");
  std::string input_file_full_path;
  if (pos != std::string::npos) {
    input_file_full_path = sibling_file_full_path.substr(0, pos + 1);
  }
  input_file_full_path += input_file_relative_path;
  return input_file_full_path;
>> *)
Definition GetFullPath (input_file_relative_path sibling_file_full_path : text)
  : text :=
  let input_file_full_path :=
    match find_last_of is_separator sibling_file_full_path with
    | Some pos => take (pos + 1) sibling_file_full_path
    | None => []
    end in
  input_file_full_path ++ input_file_relative_path.

Section Locale.

(** [std::tolower] on an [unsigned char], which depends on the locale. *)
Variable tolower : ascii -> ascii.

(** [ToLower]: [std::transform] of the string with [std::tolower]. *)
Definition ToLower (s : text) : text := map tolower s.

(** [LowercaseFileExtension]: with [pos = filename.find_last_of('.')],
    the empty string if
    [pos == 0 || pos == std::string::npos || pos == filename.length() - 1],
    and [ToLower(filename.substr(pos + 1))] otherwise. *)
Definition LowercaseFileExtension (filename : text) : text :=
  match find_last_of is_dot filename with
  | None => []
  | Some pos =>
      if (pos =? 0)%nat || (pos =? length filename - 1)%nat
      then []
      else ToLower (drop (pos + 1) filename)
  end.

(** [LowercaseMimeTypeExtension]: the same with ['/'] for ['.']. *)
Definition LowercaseMimeTypeExtension (mime_type : text) : text :=
  match find_last_of is_slash mime_type with
  | None => []
  | Some pos =>
      if (pos =? 0)%nat || (pos =? length mime_type - 1)%nat
      then []
      else ToLower (drop (pos + 1) mime_type)
  end.

End Locale.

(** [std::tolower] in the "C" locale. *)
Definition tolower_C (c : ascii) : ascii :=
  let n := nat_of_ascii c in
  if (65 <=? n)%nat && (n <=? 90)%nat then ascii_of_nat (n + 32) else c.

End PathUtils.

(** * Properties *)

(** ** Fixed-width integers *)

(** Linear arithmetic with divisions and remainders by constants. *)
Ltac dlia := Z.to_euclidean_division_equations; lia.

Section IntFacts.
Import Int.

Lemma in_signedb_spec w z : in_signedb w z = true <-> in_signed w z.
Proof. unfold in_signedb, in_signed. rewrite andb_true_iff. lia. Qed.

Lemma signed_result_Some w z : in_signed w z -> signed_result w z = Some z.
Proof.
  intros H. unfold signed_result.
  apply in_signedb_spec in H. now rewrite H.
Qed.

Lemma pow2_split w : 1 <= w -> 2 ^ w = 2 * 2 ^ (w - 1).
Proof.
  intros Hw. replace w with (Z.succ (w - 1)) at 1 by lia.
  rewrite Z.pow_succ_r by lia. reflexivity.
Qed.

Lemma pow2_half_pos w : 1 <= w -> 0 < 2 ^ (w - 1).
Proof. intros Hw. apply Z.pow_pos_nonneg; lia. Qed.

Lemma to_unsigned_small w z : 0 <= z < 2 ^ w -> to_unsigned w z = z.
Proof. intros H. unfold to_unsigned. now apply Z.mod_small. Qed.

Lemma to_signed_small w z :
  1 <= w -> - 2 ^ (w - 1) <= z < 2 ^ (w - 1) -> to_signed w z = z.
Proof.
  intros Hw H. unfold to_signed. pose proof (pow2_split w Hw).
  rewrite Z.mod_small by lia. lia.
Qed.

Lemma lor_even_1 k : Z.lor (2 * k) 1 = 2 * k + 1.
Proof.
  apply Z.bits_inj'. intros n Hn. rewrite Z.lor_spec.
  destruct (Z.eq_dec n 0) as [->|Hne].
  - rewrite Z.testbit_even_0, Z.testbit_odd_0. reflexivity.
  - assert (Hone : Z.testbit 1 n = false).
    { change 1 with (2 ^ 0). rewrite Z.pow2_bits_eqb by lia.
      apply Z.eqb_neq. lia. }
    rewrite Hone, orb_false_r.
    replace n with (Z.succ (n - 1)) by lia.
    rewrite Z.testbit_even_succ, Z.testbit_odd_succ by lia.
    reflexivity.
Qed.

Lemma land_1 z : Z.land z 1 = z mod 2.
Proof. change 1 with (Z.ones 1). rewrite Z.land_ones by lia. reflexivity. Qed.

Lemma shiftr_1 z : Z.shiftr z 1 = z / 2.
Proof. rewrite Z.shiftr_div_pow2 by lia. reflexivity. Qed.

Lemma shiftl_1 z : Z.shiftl z 1 = 2 * z.
Proof. rewrite Z.shiftl_mul_pow2 by lia. lia. Qed.

End IntFacts.

(** ** The zig-zag map of bit_utils.h *)

Section ZigZag.
Import Int BitUtils.

Variable w : Z.
Hypothesis w_pos : 1 <= w.

Lemma zigzag_spec_range v : in_signed w v -> in_unsigned w (zigzag_spec v).
Proof using w_pos.
  unfold in_signed, in_unsigned, signed_min, signed_max, zigzag_spec.
  pose proof (pow2_split w w_pos). intros Hv.
  destruct (Z.ltb_spec v 0); lia.
Qed.

(** The conversion to a symbol is defined on the whole signed type and
    is the zig-zag map. *)
Lemma ConvertSignedIntToSymbol_spec v :
  in_signed w v -> ConvertSignedIntToSymbol w v = Some (zigzag_spec v).
Proof using w_pos.
  intros Hv. pose proof (zigzag_spec_range v Hv) as Hr.
  unfold in_signed, signed_min, signed_max in Hv.
  unfold in_unsigned, zigzag_spec in *.
  pose proof (pow2_split w w_pos) as Hs.
  unfold ConvertSignedIntToSymbol.
  destruct (Z.leb_spec 0 v) as [Hpos|Hneg].
  - destruct (Z.ltb_spec v 0); [lia|].
    f_equal. unfold shl. rewrite shiftl_1.
    rewrite (to_unsigned_small w v) by lia.
    apply to_unsigned_small. lia.
  - destruct (Z.ltb_spec v 0); [|lia].
    rewrite (signed_result_Some w (v + 1))
      by (unfold in_signed, signed_min, signed_max; lia).
    cbn [mbind option_bind].
    rewrite (signed_result_Some w (- (v + 1)))
      by (unfold in_signed, signed_min, signed_max; lia).
    cbn [mbind option_bind]. f_equal.
    unfold shl. rewrite shiftl_1.
    rewrite (to_unsigned_small w (- (v + 1))) by lia.
    rewrite (to_unsigned_small w (2 * _)) by lia.
    rewrite lor_even_1. lia.
Qed.

Lemma unzigzag_spec_eq u :
  unzigzag_spec u = if u mod 2 =? 0 then u / 2 else - (u / 2) - 1.
Proof.
  unfold unzigzag_spec. rewrite land_1, !shiftr_1.
  destruct (Z.eqb_spec (u mod 2) 0); cbn [negb]; dlia.
Qed.

Lemma unzigzag_spec_range u : in_unsigned w u -> in_signed w (unzigzag_spec u).
Proof using w_pos.
  rewrite unzigzag_spec_eq.
  unfold in_signed, in_unsigned, signed_min, signed_max.
  rewrite (pow2_split w w_pos). pose proof (pow2_half_pos w w_pos) as Hp.
  generalize dependent (2 ^ (w - 1)). intros P Hp Hu.
  destruct (Z.eqb_spec (u mod 2) 0); dlia.
Qed.

Lemma ConvertSymbolToSignedInt_spec u :
  in_unsigned w u -> ConvertSymbolToSignedInt w u = Some (unzigzag_spec u).
Proof using w_pos.
  intros Hu. pose proof (unzigzag_spec_range u Hu) as Hr.
  rewrite unzigzag_spec_eq in *.
  assert (Hhalf : - 2 ^ (w - 1) <= u / 2 < 2 ^ (w - 1)).
  { unfold in_unsigned in Hu. rewrite (pow2_split w w_pos) in Hu.
    pose proof (pow2_half_pos w w_pos) as Hp.
    revert Hu Hp. generalize (2 ^ (w - 1)). intros P Hu Hp. dlia. }
  unfold ConvertSymbolToSignedInt.
  rewrite land_1, shiftr_1, negb_involutive.
  rewrite (to_signed_small w (u / 2) w_pos Hhalf).
  destruct (Z.eqb_spec (u mod 2) 0) as [He|Hne]; [reflexivity|].
  assert (Hnn : 0 <= u / 2) by (apply Z.div_pos; [apply Hu | lia]).
  pose proof (pow2_half_pos w w_pos) as Hp.
  unfold in_signed, signed_min, signed_max.
  rewrite (signed_result_Some w (- (u / 2)))
    by (unfold in_signed, signed_min, signed_max; lia).
  cbn [mbind option_bind].
  apply signed_result_Some. unfold in_signed, signed_min, signed_max. lia.
Qed.

Lemma unzigzag_zigzag v : unzigzag_spec (zigzag_spec v) = v.
Proof.
  rewrite unzigzag_spec_eq. unfold zigzag_spec.
  destruct (Z.ltb_spec v 0).
  - destruct (Z.eqb_spec ((- 2 * v - 1) mod 2) 0); dlia.
  - destruct (Z.eqb_spec ((2 * v) mod 2) 0); dlia.
Qed.

Lemma zigzag_unzigzag u : 0 <= u -> zigzag_spec (unzigzag_spec u) = u.
Proof.
  intros Hu. rewrite unzigzag_spec_eq. unfold zigzag_spec.
  destruct (Z.eqb_spec (u mod 2) 0).
  - destruct (Z.ltb_spec (u / 2) 0); dlia.
  - destruct (Z.ltb_spec (- (u / 2) - 1) 0); dlia.
Qed.

End ZigZag.

(** C2.  On 32-bit integers the two conversions are defined everywhere and
    are inverse to each other: for every [int32_t] value [v], INT32_MIN
    included, [ConvertSignedIntToSymbol] returns the zig-zag symbol
    [v < 0 ? -2v - 1 : 2v], a [uint32_t], and [ConvertSymbolToSignedInt]
    maps that symbol back to [v]; and for every [uint32_t] symbol [u] the
    signed value of [u], which is [(u & 1) ? -((u+1)>>1) : (u>>1)], is an
    [int32_t] that converts back to [u]. *)
Theorem zigzag_inverse_int32 (v u : Z)
    (Hv : Int.in_signed 32 v) (Hu : Int.in_unsigned 32 u) :
  (exists s, BitUtils.ConvertSignedIntToSymbol 32 v = Some s
             /\ s = BitUtils.zigzag_spec v
             /\ Int.in_unsigned 32 s
             /\ BitUtils.ConvertSymbolToSignedInt 32 s = Some v)
  /\ (exists x, BitUtils.ConvertSymbolToSignedInt 32 u = Some x
                /\ x = BitUtils.unzigzag_spec u
                /\ Int.in_signed 32 x
                /\ BitUtils.ConvertSignedIntToSymbol 32 x = Some u).
Proof.
  assert (H32 : 1 <= 32) by lia. split.
  - exists (BitUtils.zigzag_spec v).
    pose proof (zigzag_spec_range 32 H32 v Hv) as Hr.
    repeat split; try apply Hr.
    + now apply ConvertSignedIntToSymbol_spec.
    + rewrite ConvertSymbolToSignedInt_spec by assumption.
      now rewrite unzigzag_zigzag.
  - exists (BitUtils.unzigzag_spec u).
    pose proof (unzigzag_spec_range 32 H32 u Hu) as Hr.
    repeat split; try apply Hr.
    + now apply ConvertSymbolToSignedInt_spec.
    + rewrite ConvertSignedIntToSymbol_spec by assumption.
      rewrite zigzag_unzigzag; [reflexivity | apply Hu].
Qed.

Lemma zigzag_inverse_int32_witness :
  (exists s, BitUtils.ConvertSignedIntToSymbol 32 (-2147483648) = Some s
             /\ s = BitUtils.zigzag_spec (-2147483648)
             /\ Int.in_unsigned 32 s
             /\ BitUtils.ConvertSymbolToSignedInt 32 s = Some (-2147483648))
  /\ (exists x, BitUtils.ConvertSymbolToSignedInt 32 4294967295 = Some x
                /\ x = BitUtils.unzigzag_spec 4294967295
                /\ Int.in_signed 32 x
                /\ BitUtils.ConvertSignedIntToSymbol 32 x = Some 4294967295).
Proof.
  apply zigzag_inverse_int32.
  - unfold Int.in_signed, Int.signed_min, Int.signed_max. simpl. lia.
  - unfold Int.in_unsigned. simpl. lia.
Defined.

(** ** Byte-mode reads of the decoder buffer *)

Section DecoderBytes.
Import Int Mem DecoderBuffer.

Lemma len_nonneg (m : bytes) : 0 <= len m.
Proof. unfold len. lia. Qed.

(** Without wrap-around the guard compares [data_size_] with the
    mathematical sum [pos_ + size]. *)
Lemma pos_plus_no_wrap b size :
  in_signed 64 (pos_ b) -> 0 <= size -> pos_ b + size < 2 ^ 63 ->
  to_signed 64 (pos_plus b size) = pos_ b + size.
Proof.
  unfold in_signed, signed_min, signed_max, pos_plus, to_signed, to_unsigned.
  change (64 - 1) with 63.
  change (2 ^ 64) with 18446744073709551616.
  change (2 ^ 63) with 9223372036854775808.
  intros Hp Hs Hlt. dlia.
Qed.

Lemma overflows_no_wrap b size :
  in_signed 64 (pos_ b) -> 0 <= size -> pos_ b + size < 2 ^ 63 ->
  overflows b size = (data_size_ b <? pos_ b + size).
Proof.
  intros Hp Hs Hlt. unfold overflows. now rewrite pos_plus_no_wrap.
Qed.

(** A read that meets the guard returns [false] and touches nothing. *)
Lemma run_overflows r out size b :
  overflows b size = true -> run r out size b = Some (false, out, b).
Proof.
  intros Ho. destruct r; cbn [run];
    unfold Decode, Decode_T, Peek, Peek_T; rewrite Ho; reflexivity.
Qed.

Lemma run_false_inv r out size b out' b' :
  run r out size b = Some (false, out', b') ->
  overflows b size = true /\ out' = out /\ b' = b.
Proof.
  destruct r; cbn [run]; unfold Decode, Decode_T, Peek, Peek_T;
    destruct (overflows b size); cbn [mbind option_bind];
    try (intros [= <- <-]; repeat split; reflexivity);
    destruct (memcpy out (data_ b) (pos_ b) size);
    cbn [mbind option_bind negb]; intros H; discriminate H.
Qed.

Lemma memcpy_in_bounds dst src off n :
  0 <= off -> 0 <= n -> off + n <= len src -> n <= len dst ->
  memcpy dst src off n
  = Some (take (Z.to_nat n) (drop (Z.to_nat off) src)
            ++ drop (Z.to_nat n) dst).
Proof.
  intros H1 H2 H3 H4. unfold memcpy.
  destruct (Z.leb_spec 0 off); [|lia].
  destruct (Z.leb_spec 0 n); [|lia].
  destruct (Z.leb_spec (off + n) (len src)); [|lia].
  destruct (Z.leb_spec n (len dst)); [|lia].
  reflexivity.
Qed.

Lemma bytes_at_pos_length b s :
  0 <= pos_ b -> 0 <= s -> pos_ b + s <= len (data_ b) ->
  len (bytes_at_pos b s) = s.
Proof.
  intros Hp Hs Hin. unfold bytes_at_pos, len in *.
  rewrite length_take, length_drop. lia.
Qed.

(** An in-bounds read succeeds, delivers the bytes at the parsing
    position, and moves the position exactly when it is a [Decode]. *)
Lemma run_in_bounds r out s b :
  initialised b -> 0 <= pos_ b -> 0 <= s -> pos_ b + s <= data_size_ b ->
  s <= len out ->
  run r out s b
  = Some (true, bytes_at_pos b s ++ drop (Z.to_nat s) out,
          if advances r then set_pos (pos_ b + s) b else b).
Proof.
  intros [Hsz Hrange] Hp Hs Hin Hout.
  assert (Hsigned : in_signed 64 (pos_ b)).
  { unfold in_signed, signed_min, signed_max in *. lia. }
  assert (Hlt : pos_ b + s < 2 ^ 63).
  { unfold in_signed, signed_min, signed_max in Hrange.
    change (64 - 1) with 63 in Hrange. lia. }
  assert (Hov : overflows b s = false).
  { rewrite overflows_no_wrap by assumption. apply Z.ltb_ge. lia. }
  pose proof (memcpy_in_bounds out (data_ b) (pos_ b) s Hp Hs) as Hm.
  rewrite <- Hsz in Hm. specialize (Hm Hin Hout).
  destruct r; cbn [run advances]; unfold Decode, Decode_T, Peek, Peek_T;
    rewrite Hov, Hm; cbn [mbind option_bind negb];
    rewrite ?pos_plus_no_wrap by assumption; reflexivity.
Qed.

End DecoderBytes.

(** ** Bit-mode reads of the decoder buffer *)

Section DecoderBitsAtEnd.
Import Int Mem DecoderBuffer.

Lemma GetBit_at_end d :
  bit_buffer_ d !! Z.to_nat (Z.shiftr (bit_offset_ d) 3) = None ->
  GetBit d = (0, d).
Proof. intros H. unfold GetBit. now rewrite H. Qed.

Lemma GetBits_loop_at_end n bit value d :
  bit_buffer_ d !! Z.to_nat (Z.shiftr (bit_offset_ d) 3) = None ->
  GetBits_loop n bit value d = (value, d).
Proof.
  intros H. revert bit value. induction n as [|n IH]; intros bit value.
  - reflexivity.
  - cbn [GetBits_loop]. rewrite (GetBit_at_end d H).
    rewrite Z.shiftl_0_l. change (to_unsigned 32 0) with 0.
    rewrite Z.lor_0_r. apply IH.
Qed.

Lemma no_byte_at_end d :
  0 <= bit_offset_ d -> len (bit_buffer_ d) * 8 <= bit_offset_ d ->
  bit_buffer_ d !! Z.to_nat (Z.shiftr (bit_offset_ d) 3) = None.
Proof.
  intros H0 Hend. apply lookup_ge_None_2.
  rewrite Z.shiftr_div_pow2 by lia. change (2 ^ 3) with 8.
  unfold len in Hend.
  assert (Z.of_nat (length (bit_buffer_ d)) <= bit_offset_ d / 8) by dlia.
  lia.
Qed.

Lemma set_bit_decoder_same b : set_bit_decoder (bit_decoder_ b) b = b.
Proof. destruct b. reflexivity. Qed.

(** Outside bit mode, or asked for more than 32 bits, the bit-mode read
    returns [false] and changes nothing. *)
Lemma DecodeLeastSignificantBits32_refused nbits x b :
  bit_decoder_active b = false \/ 32 < nbits ->
  DecodeLeastSignificantBits32 nbits x b = (false, x, b).
Proof.
  intros H. unfold DecodeLeastSignificantBits32, GetBits.
  destruct (bit_decoder_active b); cbn [negb]; [|reflexivity].
  destruct H as [H|H]; [discriminate H|].
  destruct (Z.ltb_spec 32 nbits); [|lia].
  now rewrite set_bit_decoder_same.
Qed.

End DecoderBitsAtEnd.

(** ** Failed and in-bounds byte-mode reads *)

(** C8.  A byte-mode read returns [false] only through its guard, when
    fewer than the requested bytes remain, and it then leaves the buffer as
    it was: the parsing position [decoded_size()] and [remaining_size()]
    are the same after the call, and nothing was written to the output. *)
Theorem failed_read_unchanged
    (r : DecoderBuffer.byte_read) (out : Mem.bytes) (size : Z)
    (b : DecoderBuffer.t) (out' : Mem.bytes) (b' : DecoderBuffer.t)
    (Hfail : DecoderBuffer.run r out size b = Some (false, out', b')) :
  DecoderBuffer.overflows b size = true
  /\ b' = b
  /\ DecoderBuffer.decoded_size b' = DecoderBuffer.decoded_size b
  /\ DecoderBuffer.remaining_size b' = DecoderBuffer.remaining_size b
  /\ out' = out.
Proof.
  apply run_false_inv in Hfail. destruct Hfail as (Hguard & -> & ->).
  repeat split; try reflexivity. exact Hguard.
Qed.

Lemma failed_read_unchanged_witness :
  DecoderBuffer.overflows Samples.two_bytes_at_1 3 = true
  /\ Samples.two_bytes_at_1 = Samples.two_bytes_at_1
  /\ DecoderBuffer.decoded_size Samples.two_bytes_at_1
     = DecoderBuffer.decoded_size Samples.two_bytes_at_1
  /\ DecoderBuffer.remaining_size Samples.two_bytes_at_1
     = DecoderBuffer.remaining_size Samples.two_bytes_at_1
  /\ [7; 7; 7] = [7; 7; 7].
Proof.
  apply (failed_read_unchanged DecoderBuffer.ReadPeek_T [7; 7; 7] 3
           Samples.two_bytes_at_1 [7; 7; 7] Samples.two_bytes_at_1).
  vm_compute. reflexivity.
Defined.

(** C9.  For an in-bounds size [s], a [Peek] of [s] bytes delivers the
    bytes a [Decode] of [s] bytes delivers, and leaves the buffer, hence
    [decoded_size()], [remaining_size()] and the parsing position, as they
    were; the [Decode] that follows it delivers those same bytes and moves
    the position by [s]. *)
Theorem peek_then_decode
    (rp rd : DecoderBuffer.byte_read) (out : Mem.bytes) (s : Z)
    (b : DecoderBuffer.t)
    (Hrp : DecoderBuffer.advances rp = false)
    (Hrd : DecoderBuffer.advances rd = true)
    (Hinit : DecoderBuffer.initialised b)
    (Hpos : 0 <= DecoderBuffer.pos_ b)
    (Hs : 0 <= s)
    (Hin : DecoderBuffer.pos_ b + s <= DecoderBuffer.data_size_ b)
    (Hout : s <= Mem.len out) :
  exists got b1 b2,
    DecoderBuffer.run rp out s b = Some (true, got, b1)
    /\ DecoderBuffer.run rd out s b = Some (true, got, b2)
    /\ take (Z.to_nat s) got = DecoderBuffer.bytes_at_pos b s
    /\ Mem.len (DecoderBuffer.bytes_at_pos b s) = s
    /\ b1 = b
    /\ DecoderBuffer.decoded_size b1 = DecoderBuffer.decoded_size b
    /\ DecoderBuffer.remaining_size b1 = DecoderBuffer.remaining_size b
    /\ DecoderBuffer.run rd got s b1 = Some (true, got, b2)
    /\ DecoderBuffer.decoded_size b2 = DecoderBuffer.decoded_size b + s.
Proof.
  pose proof (run_in_bounds rp out s b Hinit Hpos Hs Hin Hout) as Hp.
  pose proof (run_in_bounds rd out s b Hinit Hpos Hs Hin Hout) as Hd.
  rewrite Hrp in Hp. rewrite Hrd in Hd.
  assert (Hlen : Mem.len (DecoderBuffer.bytes_at_pos b s) = s).
  { apply bytes_at_pos_length; try assumption.
    destruct Hinit as [<- _]. exact Hin. }
  assert (Hnat : length (DecoderBuffer.bytes_at_pos b s) = Z.to_nat s).
  { unfold Mem.len in Hlen. lia. }
  set (got := DecoderBuffer.bytes_at_pos b s ++ drop (Z.to_nat s) out) in *.
  assert (Htake : take (Z.to_nat s) got = DecoderBuffer.bytes_at_pos b s).
  { unfold got. rewrite <- Hnat. apply take_app_length. }
  assert (Hdrop : drop (Z.to_nat s) got = drop (Z.to_nat s) out).
  { unfold got. rewrite <- Hnat at 1. apply drop_app_length. }
  assert (Hgot : s <= Mem.len got).
  { unfold got, Mem.len in *. rewrite length_app, length_drop. lia. }
  exists got, b, (DecoderBuffer.set_pos (DecoderBuffer.pos_ b + s) b).
  repeat split; try assumption.
  pose proof (run_in_bounds rd got s b Hinit Hpos Hs Hin Hgot) as Hd2.
  rewrite Hrd, Hdrop in Hd2. exact Hd2.
Qed.

Lemma peek_then_decode_witness :
  exists got b1 b2,
    DecoderBuffer.run DecoderBuffer.ReadPeek [0; 0; 0] 2 Samples.four_bytes_at_1
    = Some (true, got, b1)
    /\ DecoderBuffer.run DecoderBuffer.ReadDecode [0; 0; 0] 2 Samples.four_bytes_at_1
       = Some (true, got, b2)
    /\ take (Z.to_nat 2) got = DecoderBuffer.bytes_at_pos Samples.four_bytes_at_1 2
    /\ Mem.len (DecoderBuffer.bytes_at_pos Samples.four_bytes_at_1 2) = 2
    /\ b1 = Samples.four_bytes_at_1
    /\ DecoderBuffer.decoded_size b1 = DecoderBuffer.decoded_size Samples.four_bytes_at_1
    /\ DecoderBuffer.remaining_size b1
       = DecoderBuffer.remaining_size Samples.four_bytes_at_1
    /\ DecoderBuffer.run DecoderBuffer.ReadDecode got 2 b1 = Some (true, got, b2)
    /\ DecoderBuffer.decoded_size b2
       = DecoderBuffer.decoded_size Samples.four_bytes_at_1 + 2.
Proof.
  apply peek_then_decode.
  - reflexivity.
  - reflexivity.
  - split; [reflexivity|].
    unfold Int.in_signed, Int.signed_min, Int.signed_max. simpl. lia.
  - simpl. lia.
  - lia.
  - simpl. lia.
  - unfold Mem.len. simpl. lia.
Defined.


(** ** Byte-mode writes of the encoder buffer *)

(** C6.  While bit mode is active ([bit_encoder_active()] is true) every
    byte-mode write, of a typed value or of a raw span of bytes, returns
    [false] and leaves the buffer, its content included, as it was. *)
Theorem byte_write_refused_in_bit_mode
    (b : EncoderBuffer.t) (src : Mem.bytes) (data_size : Z)
    (Hactive : EncoderBuffer.bit_encoder_active b = true) :
  EncoderBuffer.Encode_T src b = (false, b)
  /\ EncoderBuffer.Encode src data_size b = Some (false, b)
  /\ EncoderBuffer.buffer_ (EncoderBuffer.Encode_T src b).2
     = EncoderBuffer.buffer_ b.
Proof.
  unfold EncoderBuffer.Encode_T, EncoderBuffer.Encode.
  rewrite Hactive. repeat split; reflexivity.
Qed.

Lemma byte_write_refused_in_bit_mode_witness :
  EncoderBuffer.Encode_T [1; 2; 3; 4] Samples.encoder_in_bit_mode
  = (false, Samples.encoder_in_bit_mode)
  /\ EncoderBuffer.Encode [1; 2; 3; 4] 4 Samples.encoder_in_bit_mode
     = Some (false, Samples.encoder_in_bit_mode)
  /\ EncoderBuffer.buffer_
       (EncoderBuffer.Encode_T [1; 2; 3; 4] Samples.encoder_in_bit_mode).2
     = EncoderBuffer.buffer_ Samples.encoder_in_bit_mode.
Proof.
  apply byte_write_refused_in_bit_mode. reflexivity.
Defined.

(** Outside bit mode the typed write appends its bytes. *)
Lemma Encode_T_appends b src :
  EncoderBuffer.bit_encoder_active b = false ->
  EncoderBuffer.Encode_T src b
  = (true, EncoderBuffer.set_buffer (EncoderBuffer.buffer_ b ++ src) b).
Proof. intros H. unfold EncoderBuffer.Encode_T. now rewrite H. Qed.

(** ** Corners of a mesh *)

Section Corners.
Import Int Mesh.

Variable kInvalidCornerIndex kInvalidPointIndex : Z.

Lemma quot_rem_nonneg ci :
  0 <= ci -> Z.quot ci 3 = ci / 3 /\ Z.rem ci 3 = ci mod 3.
Proof.
  intros H. split.
  - apply Z.quot_div_nonneg; lia.
  - apply Z.rem_mod_nonneg; lia.
Qed.

Lemma Face_at_defined f k : 0 <= k < 3 -> exists p, Face_at f k = Some p.
Proof.
  intros Hk. unfold Face_at.
  destruct (Z.eqb_spec k 0); [eauto|].
  destruct (Z.eqb_spec k 1); [eauto|].
  destruct (Z.eqb_spec k 2); [eauto|]. lia.
Qed.

Lemma CornerToPointId_invalid m ci :
  ci < 0 \/ to_unsigned 32 ci = kInvalidCornerIndex ->
  CornerToPointId kInvalidCornerIndex kInvalidPointIndex m ci
  = ([], Some kInvalidPointIndex).
Proof.
  intros H. unfold CornerToPointId.
  destruct (Z.ltb_spec ci 0) as [Hneg|Hnn]; [reflexivity|].
  destruct H as [H|H]; [lia|].
  apply Z.eqb_eq in H. rewrite H. reflexivity.
Qed.

Lemma CornerToPointId_valid m ci :
  0 <= ci -> to_unsigned 32 ci <> kInvalidCornerIndex ->
  CornerToPointId kInvalidCornerIndex kInvalidPointIndex m ci
  = ([to_unsigned 32 (Z.quot ci 3)],
     f ← (if 0 <=? to_unsigned 32 (Z.quot ci 3)
          then faces_ m !! Z.to_nat (to_unsigned 32 (Z.quot ci 3))
          else None);
     Face_at f (Z.rem ci 3)).
Proof.
  intros Hnn Hne. unfold CornerToPointId, face.
  destruct (Z.ltb_spec ci 0) as [Hneg|_]; [lia|].
  apply Z.eqb_neq in Hne. rewrite Hne. reflexivity.
Qed.

End Corners.

(** C7.  For a corner [ci >= 0] of a mesh, that is an [int] below three
    times the number of faces which is not the invalid corner index,
    [CornerToPointId(ci)] reads the face [ci / 3], and that face only, and
    returns its entry [ci % 3]; the overload taking a [CornerIndex] does
    the same. *)
Theorem corner_to_point_id
    (kInvalidCornerIndex kInvalidPointIndex : Z) (m : Mesh.t) (ci : Z)
    (Hnonneg : 0 <= ci)
    (Hint : Int.in_signed 32 ci)
    (Hcorner : ci < 3 * Mesh.NumFaces m)
    (Hvalid : ci <> kInvalidCornerIndex) :
  exists f p,
    Mesh.faces_ m !! Z.to_nat (ci / 3) = Some f
    /\ Mesh.Face_at f (ci mod 3) = Some p
    /\ Mesh.CornerToPointId kInvalidCornerIndex kInvalidPointIndex m ci
       = ([ci / 3], Some p)
    /\ Mesh.CornerToPointId_CornerIndex
         kInvalidCornerIndex kInvalidPointIndex m ci
       = ([ci / 3], Some p).
Proof.
  unfold Int.in_signed, Int.signed_min, Int.signed_max in Hint.
  change (2 ^ (32 - 1)) with 2147483648 in Hint.
  assert (Hu : Int.to_unsigned 32 ci = ci).
  { apply to_unsigned_small. change (2 ^ 32) with 4294967296. lia. }
  destruct (quot_rem_nonneg ci Hnonneg) as [Hq Hr].
  assert (Hdiv : 0 <= ci / 3 < Mesh.NumFaces m) by dlia.
  assert (Hqu : Int.to_unsigned 32 (ci / 3) = ci / 3).
  { apply to_unsigned_small. change (2 ^ 32) with 4294967296. dlia. }
  assert (Hlt : (Z.to_nat (ci / 3) < length (Mesh.faces_ m))%nat).
  { unfold Mesh.NumFaces in Hdiv. lia. }
  destruct (lookup_lt_is_Some_2 _ _ Hlt) as [f Hf].
  destruct (Face_at_defined f (ci mod 3)) as [p Hp]; [dlia|].
  assert (Hrun : Mesh.CornerToPointId kInvalidCornerIndex kInvalidPointIndex
                   m ci = ([ci / 3], Some p)).
  { rewrite CornerToPointId_valid by (try rewrite Hu; assumption).
    rewrite Hq, Hr, Hqu.
    destruct (Z.leb_spec 0 (ci / 3)); [|lia].
    rewrite Hf. cbn [mbind option_bind]. now rewrite Hp. }
  exists f, p. repeat split; try assumption.
  unfold Mesh.CornerToPointId_CornerIndex.
  rewrite to_signed_small by (change (2 ^ (32 - 1)) with 2147483648; lia).
  exact Hrun.
Qed.

Lemma corner_to_point_id_witness :
  exists f p,
    Mesh.faces_ Samples.quad !! Z.to_nat (5 / 3) = Some f
    /\ Mesh.Face_at f (5 mod 3) = Some p
    /\ Mesh.CornerToPointId 4294967295 4294967295 Samples.quad 5
       = ([5 / 3], Some p)
    /\ Mesh.CornerToPointId_CornerIndex 4294967295 4294967295 Samples.quad 5
       = ([5 / 3], Some p).
Proof.
  apply corner_to_point_id.
  - lia.
  - unfold Int.in_signed, Int.signed_min, Int.signed_max. simpl. lia.
  - unfold Mesh.NumFaces. simpl. lia.
  - lia.
Defined.

(** With an invalid corner index that no non-negative [int] equals (such
    as the largest [uint32_t]), every non-negative [int] is valid. *)
Lemma nonneg_corner_valid kInvalidCornerIndex ci :
  2 ^ 31 <= kInvalidCornerIndex -> Int.in_signed 32 ci ->
  ci <> kInvalidCornerIndex.
Proof.
  unfold Int.in_signed, Int.signed_max. change (2 ^ (32 - 1)) with (2 ^ 31).
  lia.
Qed.

(** C10.  Called with a negative corner index or with the invalid corner
    index, [CornerToPointId] returns [kInvalidPointIndex] without a read of
    the face container, also through the overload taking a [CornerIndex];
    whenever it reads the container, the corner index is non-negative and
    is not the invalid one. *)
Theorem invalid_corner_reads_no_face
    (kInvalidCornerIndex kInvalidPointIndex : Z) (m : Mesh.t) (ci : Z)
    (Hk : Int.in_unsigned 32 kInvalidCornerIndex)
    (Hci : ci < 0 \/ Int.to_unsigned 32 ci = kInvalidCornerIndex) :
  Mesh.CornerToPointId kInvalidCornerIndex kInvalidPointIndex m ci
  = ([], Some kInvalidPointIndex)
  /\ Mesh.CornerToPointId_CornerIndex
       kInvalidCornerIndex kInvalidPointIndex m kInvalidCornerIndex
     = ([], Some kInvalidPointIndex)
  /\ (forall c,
        (Mesh.CornerToPointId kInvalidCornerIndex kInvalidPointIndex m c).1
          <> []
        -> 0 <= c /\ Int.to_unsigned 32 c <> kInvalidCornerIndex).
Proof.
  split; [now apply CornerToPointId_invalid|]. split.
  - unfold Mesh.CornerToPointId_CornerIndex.
    apply CornerToPointId_invalid.
    unfold Int.in_unsigned in Hk. unfold Int.to_signed, Int.to_unsigned.
    change (2 ^ (32 - 1)) with 2147483648.
    change (2 ^ 32) with 4294967296 in *.
    destruct (Z.lt_ge_cases kInvalidCornerIndex 2147483648); [right|left];
      dlia.
  - intros c Hread.
    destruct (Z.lt_ge_cases c 0) as [Hneg|Hnn].
    + rewrite CornerToPointId_invalid in Hread by (left; exact Hneg).
      now contradict Hread.
    + split; [exact Hnn|]. intros Heq.
      rewrite CornerToPointId_invalid in Hread by (right; exact Heq).
      now contradict Hread.
Qed.

Lemma invalid_corner_reads_no_face_witness :
  Mesh.CornerToPointId 4294967295 4294967295 Samples.quad (-1)
  = ([], Some 4294967295)
  /\ Mesh.CornerToPointId_CornerIndex 4294967295 4294967295
       Samples.quad 4294967295
     = ([], Some 4294967295)
  /\ (forall c,
        (Mesh.CornerToPointId 4294967295 4294967295 Samples.quad c).1 <> []
        -> 0 <= c /\ Int.to_unsigned 32 c <> 4294967295).
Proof.
  apply invalid_corner_reads_no_face.
  - unfold Int.in_unsigned. simpl. lia.
  - left. lia.
Defined.

(** ** Default compression options *)

(** C4, in the form that holds.  The constructor of
    [DracoCompressionOptions] sets the position quantization to the
    spatial options built from 11 bits, and the quantization bits to 8 for
    Normal, 8 for Color and 10 for TexCoord. *)
Theorem default_quantization_bits
    (ctor : Z -> Options.SpatialQuantizationOptions) :
  let o := Options.DracoCompressionOptions_default ctor in
  Options.quantization_position o = ctor 11
  /\ Options.quantization_bits o Options.Normal = 8
  /\ Options.quantization_bits o Options.Color = 8
  /\ Options.quantization_bits o Options.TexCoord = 10.
Proof. repeat split; reflexivity. Qed.

(** C4 as stated fails: whatever the constructor of the spatial options
    does, the defaults for Normal and TexCoord are not the listed 10 and
    12. *)
Lemma default_bits_not_as_listed :
  ~ (exists ctor, forall k,
       Options.quantization_bits (Options.DracoCompressionOptions_default ctor) k
       = Options.spec_default_bits k).
Proof.
  intros [ctor H]. specialize (H Options.Normal). discriminate H.
Qed.


(** ** Bit coding *)

Section BitCoding.
Import Int Mem.

Lemma land_shiftr_1 byte s :
  0 <= s -> Z.land (Z.shiftr byte s) 1 = Z.b2z (Z.testbit byte s).
Proof.
  intros Hs. rewrite land_1, <- Z.bit0_mod, Z.shiftr_spec by lia.
  reflexivity.
Qed.

Lemma testbit_b2z c k : 0 <= k -> Z.testbit (Z.b2z c) k = c && (k =? 0).
Proof.
  intros Hk. destruct c; cbn [Z.b2z andb].
  - change 1 with (2 ^ 0). rewrite Z.pow2_bits_eqb by lia.
    apply Z.eqb_sym.
  - apply Z.testbit_0_l.
Qed.

Lemma testbit_shiftl_b2z c s j :
  0 <= s -> 0 <= j -> Z.testbit (Z.shiftl (Z.b2z c) s) j = c && (j =? s).
Proof.
  intros Hs Hj. rewrite Z.shiftl_spec by lia.
  destruct (Z.lt_ge_cases j s) as [Hlt|Hge].
  - rewrite Z.testbit_neg_r by lia.
    destruct (Z.eqb_spec j s); [lia|]. now rewrite andb_false_r.
  - rewrite testbit_b2z by lia. f_equal.
    destruct (Z.eqb_spec (j - s) 0); destruct (Z.eqb_spec j s); lia.
Qed.

Lemma shiftl_b2z_small c s :
  0 <= s < 32 -> to_unsigned 32 (Z.shiftl (Z.b2z c) s) = Z.shiftl (Z.b2z c) s.
Proof.
  intros Hs. apply to_unsigned_small. rewrite Z.shiftl_mul_pow2 by lia.
  assert (0 < 2 ^ s) by (apply Z.pow_pos_nonneg; lia).
  assert (2 ^ s < 2 ^ 32) by (apply Z.pow_lt_mono_r; lia).
  destruct c; cbn [Z.b2z]; lia.
Qed.

Lemma bit_at_drop_take m base s k :
  0 <= base -> 0 <= k < 8 * s ->
  bit_at (take (Z.to_nat s) (drop (Z.to_nat base) m)) k
  = bit_at m (8 * base + k).
Proof.
  intros Hb Hk. unfold bit_at.
  rewrite lookup_take_lt by dlia. rewrite lookup_drop.
  replace (Z.to_nat base + Z.to_nat (k / 8))%nat
    with (Z.to_nat ((8 * base + k) / 8)) by dlia.
  replace ((8 * base + k) mod 8) with (k mod 8) by dlia.
  reflexivity.
Qed.

End BitCoding.

Section BitDecoding.
Import Int Mem DecoderBuffer.

Lemma GetBit_in_range r off :
  0 <= off -> off + 1 < 2 ^ 64 -> off < 8 * len r ->
  GetBit {| bit_buffer_ := r; bit_offset_ := off |}
  = (Z.b2z (bit_at r off), {| bit_buffer_ := r; bit_offset_ := off + 1 |}).
Proof.
  intros H0 Hw Hin. unfold GetBit, bit_at. cbn [bit_buffer_ bit_offset_].
  rewrite Z.shiftr_div_pow2 by lia. change (2 ^ 3) with 8.
  change 7 with (Z.ones 3). rewrite Z.land_ones by lia. change (2 ^ 3) with 8.
  assert (Hlt : (Z.to_nat (off / 8) < length r)%nat)
    by (unfold len in Hin; dlia).
  destruct (lookup_lt_is_Some_2 _ _ Hlt) as [byte Hbyte]. rewrite Hbyte.
  rewrite land_shiftr_1 by dlia.
  rewrite to_unsigned_small by lia. reflexivity.
Qed.

Lemma bit_at_past_end r k : 8 * len r <= k -> bit_at r k = false.
Proof.
  intros Hk. unfold bit_at. pose proof (len_nonneg r) as Hl.
  rewrite lookup_ge_None_2; [reflexivity|]. unfold len in *. dlia.
Qed.

(** The loop of [GetBits] collects the bits of the stream from the bit
    offset on into the bits of the value from [bit] on; past the end of
    the region the bits are 0 and the offset stays. *)
Lemma GetBits_loop_bits n : forall bit value r off,
  0 <= off -> 8 * len r < 2 ^ 64 ->
  0 <= bit -> bit + Z.of_nat n <= 32 ->
  exists value',
    GetBits_loop n bit value {| bit_buffer_ := r; bit_offset_ := off |}
    = (value',
       {| bit_buffer_ := r; bit_offset_ := offset_after r off (Z.of_nat n) |})
    /\ forall j, 0 <= j ->
         Z.testbit value' j
         = Z.testbit value j
           || ((bit <=? j) && (j <? bit + Z.of_nat n)
               && bit_at r (off + (j - bit))).
Proof.
  unfold offset_after.
  induction n as [|n IH]; intros bit value r off H0 Hmem Hb Hb32.
  - exists value. cbn [GetBits_loop]. split.
    + do 2 f_equal. lia.
    + intros j Hj.
      destruct (Z.leb_spec bit j); destruct (Z.ltb_spec j (bit + Z.of_nat 0));
        cbn [andb]; try lia; now rewrite orb_false_r.
  - destruct (Z.lt_ge_cases off (8 * len r)) as [Hin|Hend].
    + cbn [GetBits_loop]. rewrite GetBit_in_range by lia.
      rewrite shiftl_b2z_small by lia.
      destruct (IH (bit + 1)
                  (Z.lor value (Z.shiftl (Z.b2z (bit_at r off)) bit))
                  r (off + 1)) as (value' & Hrun & Hbits); try lia.
      exists value'. split.
      * rewrite Hrun. do 2 f_equal. lia.
      * intros j Hj. rewrite (Hbits j Hj), Z.lor_spec.
        rewrite testbit_shiftl_b2z by lia.
        destruct (Z.eqb_spec j bit) as [->|Hne].
        -- replace (off + (bit - bit)) with off by lia.
           destruct (Z.leb_spec (bit + 1) bit); [lia|].
           destruct (Z.leb_spec bit bit); [|lia].
           destruct (Z.ltb_spec bit (bit + Z.of_nat (S n))); [|lia].
           cbn [andb]. now rewrite andb_true_r, orb_false_r.
        -- rewrite andb_false_r, orb_false_r.
           replace (off + 1 + (j - (bit + 1))) with (off + (j - bit)) by lia.
           f_equal. f_equal.
           destruct (Z.leb_spec (bit + 1) j); destruct (Z.leb_spec bit j);
             destruct (Z.ltb_spec j (bit + 1 + Z.of_nat n));
             destruct (Z.ltb_spec j (bit + Z.of_nat (S n)));
             cbn [andb]; try reflexivity; lia.
    + exists value. split.
      * rewrite GetBits_loop_at_end
          by (apply no_byte_at_end; cbn [bit_buffer_ bit_offset_]; lia).
        do 2 f_equal. lia.
      * intros j Hj.
        destruct (Z.leb_spec bit j) as [Hle|Hgt]; cbn [andb].
        -- rewrite bit_at_past_end by lia.
           now rewrite andb_false_r, orb_false_r.
        -- now rewrite orb_false_r.
Qed.

(** [GetBits] of at most 32 bits returns [true] with the bits of the
    stream at the bit offset, those past the end of the region being 0. *)
Lemma GetBits_bits nbits x r off :
  0 <= nbits <= 32 -> 0 <= off -> 8 * len r < 2 ^ 64 ->
  exists value,
    GetBits nbits x {| bit_buffer_ := r; bit_offset_ := off |}
    = (true, value,
       {| bit_buffer_ := r; bit_offset_ := offset_after r off nbits |})
    /\ forall j, 0 <= j ->
         Z.testbit value j = (j <? nbits) && bit_at r (off + j).
Proof.
  intros Hn H0 Hmem. unfold GetBits.
  destruct (Z.ltb_spec 32 nbits); [lia|].
  destruct (GetBits_loop_bits (Z.to_nat nbits) 0 0 r off)
    as (value' & Hrun & Hbits); try lia.
  rewrite Z2Nat.id in Hrun, Hbits by lia.
  exists value'. split; [now rewrite Hrun|].
  intros j Hj. rewrite (Hbits j Hj), Z.testbit_0_l, orb_false_l.
  destruct (Z.leb_spec 0 j); [|lia]. cbn [andb].
  replace (0 + nbits) with nbits by lia.
  replace (j - 0) with j by lia. reflexivity.
Qed.

(** [GetBits] over a stream that holds the low [nbits] bits of [data] at
    the bit offset returns [data] modulo [2 ^ nbits]. *)
Lemma GetBits_value nbits x r off data :
  0 <= nbits <= 32 -> 0 <= off -> 8 * len r < 2 ^ 64 ->
  off + nbits <= 8 * len r ->
  (forall i, 0 <= i < nbits -> bit_at r (off + i) = Z.testbit data i) ->
  GetBits nbits x {| bit_buffer_ := r; bit_offset_ := off |}
  = (true, data mod 2 ^ nbits,
     {| bit_buffer_ := r; bit_offset_ := off + nbits |}).
Proof.
  intros Hn H0 Hmem Hin Hdata.
  destruct (GetBits_bits nbits x r off Hn H0 Hmem) as (value & -> & Hbits).
  unfold offset_after.
  replace (Z.min (off + nbits) (Z.max off (8 * len r))) with (off + nbits)
    by lia.
  f_equal. f_equal.
  apply Z.bits_inj'. intros j Hj. rewrite (Hbits j Hj).
  destruct (Z.ltb_spec j nbits) as [Hlt|Hge]; cbn [andb].
  - rewrite Z.mod_pow2_bits_low by lia. apply Hdata. lia.
  - rewrite Z.mod_pow2_bits_high by lia. reflexivity.
Qed.

End BitDecoding.

(** ** Reading past the end of the data *)

(** C3, in the form that holds.  A byte-mode read ([Decode] or [Peek],
    typed or raw) whose extent [pos_ + size] lies past [data_size_] returns
    [false] and changes neither the buffer nor the output, provided the
    sum [pos_ + size] does not exceed the largest [int64_t].  A bit-mode
    read of at most 32 bits never reports the end of the data: it returns
    [true]; the bits it delivers are those of the stream, a bit past the
    end being 0; the bit offset stops at the end of the data; with no bit
    left the value is 0 and the offset stays. *)
Theorem read_past_end
    (r : DecoderBuffer.byte_read) (out : Mem.bytes) (size : Z)
    (b : DecoderBuffer.t) (nbits x : Z) (bb : DecoderBuffer.t)
    (Hpos : Int.in_signed 64 (DecoderBuffer.pos_ b))
    (Hsize : 0 <= size)
    (Hsum : DecoderBuffer.pos_ b + size < 2 ^ 63)
    (Hpast : DecoderBuffer.data_size_ b < DecoderBuffer.pos_ b + size)
    (Hmode : DecoderBuffer.bit_decoder_active bb = true)
    (Hnbits : 0 <= nbits <= 32)
    (Hoff : 0 <= DecoderBuffer.bit_offset_ (DecoderBuffer.bit_decoder_ bb))
    (Hmem : 8 * Mem.len (DecoderBuffer.bit_buffer_
                           (DecoderBuffer.bit_decoder_ bb)) < 2 ^ 64) :
  let region := DecoderBuffer.bit_buffer_ (DecoderBuffer.bit_decoder_ bb) in
  let off := DecoderBuffer.bit_offset_ (DecoderBuffer.bit_decoder_ bb) in
  DecoderBuffer.run r out size b = Some (false, out, b)
  /\ exists value,
       DecoderBuffer.DecodeLeastSignificantBits32 nbits x bb
       = (true, value,
          DecoderBuffer.set_bit_decoder
            {| DecoderBuffer.bit_buffer_ := region;
               DecoderBuffer.bit_offset_ :=
                 DecoderBuffer.offset_after region off nbits |} bb)
       /\ (forall j, 0 <= j ->
             Z.testbit value j = (j <? nbits) && Mem.bit_at region (off + j))
       /\ (8 * Mem.len region <= off ->
           value = 0 /\ DecoderBuffer.offset_after region off nbits = off).
Proof.
  intros region off. split.
  - apply run_overflows. rewrite overflows_no_wrap by assumption.
    apply Z.ltb_lt. exact Hpast.
  - destruct (GetBits_bits nbits x region off Hnbits Hoff Hmem)
      as (value & Hrun & Hbits).
    exists value. split; [|split].
    + unfold DecoderBuffer.DecodeLeastSignificantBits32.
      rewrite Hmode. cbn [negb].
      replace (DecoderBuffer.bit_decoder_ bb)
        with {| DecoderBuffer.bit_buffer_ := region;
                DecoderBuffer.bit_offset_ := off |}
        by (subst region off; now destruct (DecoderBuffer.bit_decoder_ bb)).
      now rewrite Hrun.
    + exact Hbits.
    + intros Hend. split.
      * apply Z.bits_inj'. intros j Hj.
        rewrite (Hbits j Hj), Z.testbit_0_l, bit_at_past_end by lia.
        apply andb_false_r.
      * unfold DecoderBuffer.offset_after. lia.
Qed.

Lemma read_past_end_witness :
  DecoderBuffer.run DecoderBuffer.ReadDecode [0; 0] 2 Samples.two_bytes_at_1
  = Some (false, [0; 0], Samples.two_bytes_at_1)
  /\ exists value,
       DecoderBuffer.DecodeLeastSignificantBits32 16 7 (Samples.bits_of_255 0)
       = (true, value,
          DecoderBuffer.set_bit_decoder
            {| DecoderBuffer.bit_buffer_ := [255];
               DecoderBuffer.bit_offset_ :=
                 DecoderBuffer.offset_after [255] 0 16 |}
            (Samples.bits_of_255 0))
       /\ (forall j, 0 <= j ->
             Z.testbit value j = (j <? 16) && Mem.bit_at [255] (0 + j))
       /\ (8 * Mem.len [255] <= 0 ->
           value = 0 /\ DecoderBuffer.offset_after [255] 0 16 = 0).
Proof.
  apply (read_past_end DecoderBuffer.ReadDecode [0; 0] 2
           Samples.two_bytes_at_1 16 7 (Samples.bits_of_255 0)).
  - unfold Int.in_signed, Int.signed_min, Int.signed_max. simpl. lia.
  - lia.
  - vm_compute. reflexivity.
  - vm_compute. reflexivity.
  - reflexivity.
  - lia.
  - simpl. lia.
  - vm_compute. reflexivity.
Defined.


(** C3 as stated fails on bit-mode reads: over the single byte 0xFF, with
    8 bits available, a read of 16 bits returns [true] with the value 255
    instead of failing. *)
Lemma bit_read_past_end_returns_data :
  DecoderBuffer.AvailBits (DecoderBuffer.bit_decoder_ (Samples.bits_of_255 0)) = 8
  /\ DecoderBuffer.DecodeLeastSignificantBits32 16 0 (Samples.bits_of_255 0)
     = (true, 255, Samples.bits_of_255 8).
Proof. split; vm_compute; reflexivity. Qed.

(** The guard of the byte-mode reads computes [pos_ + size] with
    wrap-around: a size of 2^63 at position 0 passes it, and the copy that
    follows is out of bounds. *)
Example decode_size_wraps :
  DecoderBuffer.overflows Samples.two_bytes_at_1 (2 ^ 63 - 1) = false
  /\ DecoderBuffer.Decode [0; 0] (2 ^ 63 - 1) Samples.two_bytes_at_1 = None.
Proof. split; vm_compute; reflexivity. Qed.

Section BitEncoding.
Import Int Mem EncoderBuffer.

(** The byte [PutBit] stores: bit [s] replaced by [c], the other bits
    kept. *)
Lemma PutBit_byte byte c s j :
  0 <= s < 8 -> 0 <= j < 8 ->
  Z.testbit
    (to_unsigned 8
       (Z.lor (to_unsigned 8 (Z.land byte (Z.lnot (Z.shiftl 1 s))))
              (Z.shiftl (Z.b2z c) s))) j
  = if j =? s then c else Z.testbit byte j.
Proof.
  intros Hs Hj. unfold to_unsigned.
  rewrite Z.mod_pow2_bits_low, Z.lor_spec by lia.
  rewrite Z.mod_pow2_bits_low, Z.land_spec, Z.lnot_spec by lia.
  change 1 with (Z.b2z true) at 1.
  rewrite !testbit_shiftl_b2z by lia. cbn [andb].
  destruct (Z.eqb_spec j s); cbn [negb].
  - now rewrite andb_false_r, andb_true_r.
  - now rewrite andb_true_r, andb_false_r, orb_false_r.
Qed.

Lemma PutBit_bits c mem base off :
  0 <= base -> 0 <= off -> off + 1 < 2 ^ 64 ->
  8 * base + off < 8 * len mem ->
  exists mem',
    PutBit (Z.b2z c) mem {| bit_buffer_ := base; bit_offset_ := off |}
    = Some (mem', {| bit_buffer_ := base; bit_offset_ := off + 1 |})
    /\ len mem' = len mem
    /\ forall k, 0 <= k ->
         bit_at mem' k = if k =? 8 * base + off then c else bit_at mem k.
Proof.
  intros Hb H0 Hw Hin. unfold PutBit. cbn [bit_buffer_ bit_offset_].
  set (i := base + off / 8).
  assert (Hi : 0 <= i < len mem) by (unfold i; dlia).
  destruct (Z.leb_spec 0 i); [|lia]. destruct (Z.ltb_spec i (len mem)); [|lia].
  cbn [andb].
  assert (Hlt : (Z.to_nat i < length mem)%nat) by (unfold len in Hi; lia).
  destruct (lookup_lt_is_Some_2 _ _ Hlt) as [byte Hbyte].
  rewrite Hbyte. cbn [mbind option_bind].
  rewrite (to_unsigned_small 64 (off + 1)) by lia.
  eexists. split; [reflexivity|]. split.
  - unfold len. now rewrite length_insert.
  - intros k Hk. unfold bit_at.
    destruct (Z.eq_dec (k / 8) i) as [Heq|Hne].
    + rewrite Heq, list_lookup_insert_eq, Hbyte by exact Hlt.
      rewrite PutBit_byte by dlia.
      destruct (Z.eqb_spec (k mod 8) (off mod 8));
        destruct (Z.eqb_spec k (8 * base + off));
        try reflexivity; unfold i in Heq; dlia.
    + assert (0 <= k / 8) by (apply Z.div_pos; lia).
      rewrite list_lookup_insert_ne by lia.
      destruct (Z.eqb_spec k (8 * base + off)) as [Hk'|_]; [|reflexivity].
      unfold i in Hne. dlia.
Qed.

(** The loop of [PutBits] stores the bits of [data] from [bit] on at the
    bit offset of the encoder, least significant bit first, and leaves
    every other bit of the memory as it was. *)
Lemma PutBits_loop_bits n : forall bit data mem base off,
  0 <= base -> 0 <= off -> off + Z.of_nat n < 2 ^ 64 ->
  8 * base + off + Z.of_nat n <= 8 * len mem ->
  0 <= bit -> bit + Z.of_nat n <= 32 ->
  exists mem',
    PutBits_loop n bit data mem {| bit_buffer_ := base; bit_offset_ := off |}
    = Some (mem',
            {| bit_buffer_ := base; bit_offset_ := off + Z.of_nat n |})
    /\ len mem' = len mem
    /\ forall k, 0 <= k ->
         bit_at mem' k
         = if (8 * base + off <=? k) && (k <? 8 * base + off + Z.of_nat n)
           then Z.testbit data (bit + (k - (8 * base + off)))
           else bit_at mem k.
Proof.
  induction n as [|n IH]; intros bit data mem base off Hb H0 Hw Hin Hbit Hb32.
  - exists mem. cbn [PutBits_loop]. split; [|split].
    + do 3 f_equal. lia.
    + reflexivity.
    + intros k Hk.
      destruct (Z.leb_spec (8 * base + off) k);
        destruct (Z.ltb_spec k (8 * base + off + Z.of_nat 0));
        cbn [andb]; try reflexivity; lia.
  - cbn [PutBits_loop]. destruct (Z.ltb_spec bit 32); [|lia].
    rewrite land_shiftr_1 by lia.
    destruct (PutBit_bits (Z.testbit data bit) mem base off)
      as (mem1 & Hput & Hlen1 & Hbits1); try lia.
    rewrite Hput. cbn [mbind option_bind].
    destruct (IH (bit + 1) data mem1 base (off + 1))
      as (mem' & Hrun & Hlen & Hbits); try lia.
    exists mem'. split; [|split].
    + rewrite Hrun. do 3 f_equal. lia.
    + lia.
    + intros k Hk. rewrite (Hbits k Hk), (Hbits1 k Hk).
      destruct (Z.eqb_spec k (8 * base + off)) as [->|Hne].
      * destruct (Z.leb_spec (8 * base + (off + 1)) (8 * base + off)); [lia|].
        destruct (Z.leb_spec (8 * base + off) (8 * base + off)); [|lia].
        destruct (Z.ltb_spec (8 * base + off)
                    (8 * base + off + Z.of_nat (S n))); [|lia].
        cbn [andb]. f_equal. lia.
      * destruct (Z.leb_spec (8 * base + (off + 1)) k);
          destruct (Z.leb_spec (8 * base + off) k);
          destruct (Z.ltb_spec k (8 * base + (off + 1) + Z.of_nat n));
          destruct (Z.ltb_spec k (8 * base + off + Z.of_nat (S n)));
          cbn [andb]; try reflexivity; try lia.
        f_equal. lia.
Qed.

End BitEncoding.

(** C5.  In bit mode the encoder stores the low [nbits] bits of [value]
    least significant bit first: bit [i] of [value] becomes bit
    [(off + i) mod 8] of byte [(off + i) / 8] of the bit buffer, [off]
    being the bit offset, and no other bit changes.  Decoding [nbits] bits
    at the same offset from those bytes yields [value] modulo [2 ^ nbits],
    for every width [0 <= nbits <= 32] and every 32-bit [value], the room
    for the bits having been reserved in the buffer. *)
Theorem bit_coding_roundtrip
    (enc : EncoderBuffer.t) (e : EncoderBuffer.BitEncoder) (nbits value : Z)
    (Hactive : EncoderBuffer.bit_encoder_active enc = true)
    (Hptr : EncoderBuffer.bit_encoder_ enc = Some e)
    (Hnbits : 0 <= nbits <= 32)
    (Hvalue : Int.in_unsigned 32 value)
    (Hbase : 0 <= EncoderBuffer.bit_buffer_ e)
    (Hoff : 0 <= EncoderBuffer.bit_offset_ e)
    (Hsize_t : 8 * Mem.len (EncoderBuffer.buffer_ enc) < 2 ^ 64)
    (Hroom : 8 * EncoderBuffer.bit_buffer_ e + EncoderBuffer.bit_offset_ e
             + nbits <= 8 * Mem.len (EncoderBuffer.buffer_ enc)) :
  let base := EncoderBuffer.bit_buffer_ e in
  let off := EncoderBuffer.bit_offset_ e in
  exists enc',
    EncoderBuffer.EncodeLeastSignificantBits32 nbits value enc
    = Some (true, enc')
    /\ EncoderBuffer.bit_encoder_ enc'
       = Some {| EncoderBuffer.bit_buffer_ := base;
                 EncoderBuffer.bit_offset_ := off + nbits |}
    /\ Mem.len (EncoderBuffer.buffer_ enc') = Mem.len (EncoderBuffer.buffer_ enc)
    /\ (forall k, 0 <= k ->
          Mem.bit_at (EncoderBuffer.buffer_ enc') k
          = if (8 * base + off <=? k) && (k <? 8 * base + off + nbits)
            then Z.testbit value (k - (8 * base + off))
            else Mem.bit_at (EncoderBuffer.buffer_ enc) k)
    /\ (forall (dec : DecoderBuffer.t) (x s : Z),
          DecoderBuffer.bit_decoder_active dec = true ->
          DecoderBuffer.bit_decoder_ dec
          = {| DecoderBuffer.bit_buffer_ :=
                 take (Z.to_nat s)
                      (drop (Z.to_nat base) (EncoderBuffer.buffer_ enc'));
               DecoderBuffer.bit_offset_ := off |} ->
          off + nbits <= 8 * s ->
          DecoderBuffer.DecodeLeastSignificantBits32 nbits x dec
          = (true, value mod 2 ^ nbits,
             DecoderBuffer.set_bit_decoder
               {| DecoderBuffer.bit_buffer_ :=
                    take (Z.to_nat s)
                         (drop (Z.to_nat base) (EncoderBuffer.buffer_ enc'));
                  DecoderBuffer.bit_offset_ := off + nbits |} dec)).
Proof.
  intros base off. destruct e as [base0 off0].
  cbn [EncoderBuffer.bit_buffer_ EncoderBuffer.bit_offset_] in *.
  subst base off.
  destruct (PutBits_loop_bits (Z.to_nat nbits) 0 value
              (EncoderBuffer.buffer_ enc) base0 off0)
    as (mem' & Hrun & Hlen & Hbits); try lia.
  rewrite Z2Nat.id in Hrun, Hbits by lia.
  exists (EncoderBuffer.set_bit_encoder
            (Some {| EncoderBuffer.bit_buffer_ := base0;
                     EncoderBuffer.bit_offset_ := off0 + nbits |})
            (EncoderBuffer.set_buffer mem' enc)).
  split; [|split; [|split; [|split]]].
  - unfold EncoderBuffer.EncodeLeastSignificantBits32, EncoderBuffer.PutBits.
    rewrite Hactive, Hptr. cbn [negb mbind option_bind].
    rewrite Hrun. reflexivity.
  - reflexivity.
  - exact Hlen.
  - intros k Hk. cbn [EncoderBuffer.set_bit_encoder EncoderBuffer.set_buffer
                      EncoderBuffer.buffer_].
    rewrite (Hbits k Hk).
    replace (0 + (k - (8 * base0 + off0))) with (k - (8 * base0 + off0))
      by lia.
    reflexivity.
  - intros dec x s Hmode Hdec Hs.
    cbn [EncoderBuffer.set_bit_encoder EncoderBuffer.set_buffer
         EncoderBuffer.buffer_] in *.
    unfold DecoderBuffer.DecodeLeastSignificantBits32.
    rewrite Hmode, Hdec. cbn [negb].
    rewrite (GetBits_value nbits x _ off0 value); try lia.
    + reflexivity.
    + unfold Mem.len in *. rewrite length_take, length_drop. lia.
    + unfold Mem.len in *. rewrite length_take, length_drop. lia.
    + intros i Hi. rewrite bit_at_drop_take by lia.
      rewrite Hbits by lia.
      destruct (Z.leb_spec (8 * base0 + off0) (8 * base0 + (off0 + i)));
        [|lia].
      destruct (Z.ltb_spec (8 * base0 + (off0 + i))
                  (8 * base0 + off0 + nbits)); [|lia].
      cbn [andb]. f_equal. lia.
Qed.

Lemma bit_coding_roundtrip_witness :
  exists enc',
    EncoderBuffer.EncodeLeastSignificantBits32 10 703710
      Samples.encoder_in_bit_mode = Some (true, enc')
    /\ DecoderBuffer.DecodeLeastSignificantBits32 10 0
         (Samples.decoder_in_bit_mode (EncoderBuffer.buffer_ enc'))
       = (true, 703710 mod 2 ^ 10,
          DecoderBuffer.set_bit_decoder
            {| DecoderBuffer.bit_buffer_ :=
                 take 2 (drop 1 (EncoderBuffer.buffer_ enc'));
               DecoderBuffer.bit_offset_ := 10 |}
            (Samples.decoder_in_bit_mode (EncoderBuffer.buffer_ enc'))).
Proof.
  destruct (bit_coding_roundtrip Samples.encoder_in_bit_mode
              {| EncoderBuffer.bit_buffer_ := 1;
                 EncoderBuffer.bit_offset_ := 0 |} 10 703710)
    as (enc' & Henc & _ & _ & _ & Hdec).
  - reflexivity.
  - reflexivity.
  - lia.
  - unfold Int.in_unsigned. simpl. lia.
  - simpl. lia.
  - simpl. lia.
  - vm_compute. reflexivity.
  - unfold Mem.len. simpl. lia.
  - exists enc'. split; [exact Henc|].
    apply (Hdec (Samples.decoder_in_bit_mode (EncoderBuffer.buffer_ enc'))
             0 2).
    + reflexivity.
    + reflexivity.
    + simpl. lia.
Defined.

(** The round trip above, computed: the ten low bits of 0xABCDE are stored
    in the two reserved bytes and read back as 0xDE. *)
Example bit_coding_sample :
  EncoderBuffer.EncodeLeastSignificantBits32 10 703710
    Samples.encoder_in_bit_mode
  = Some (true,
          EncoderBuffer.set_bit_encoder
            (Some {| EncoderBuffer.bit_buffer_ := 1;
                     EncoderBuffer.bit_offset_ := 10 |})
            (EncoderBuffer.set_buffer [9; 222; 0] Samples.encoder_in_bit_mode))
  /\ (DecoderBuffer.DecodeLeastSignificantBits32 10 0
        (Samples.decoder_in_bit_mode [9; 222; 0])).1
     = (true, 222).
Proof. split; vm_compute; reflexivity. Qed.

(** * Further properties *)

(** ** The 32-bit utilities of bit_utils.h *)

Section Bits32.
Import Int BitUtils32.

Lemma testbit_u32_low x i :
  0 <= i < 32 -> Z.testbit (to_unsigned 32 x) i = Z.testbit x i.
Proof. intros Hi. unfold to_unsigned. apply Z.mod_pow2_bits_low. lia. Qed.

Lemma testbit_u32_high x i :
  32 <= i -> Z.testbit (to_unsigned 32 x) i = false.
Proof. intros Hi. unfold to_unsigned. apply Z.mod_pow2_bits_high. lia. Qed.

Lemma testbit_above n w i :
  0 <= n < 2 ^ w -> w <= i -> Z.testbit n i = false.
Proof.
  intros Hn Hi.
  assert (Hw : 0 <= w).
  { destruct (Z.lt_ge_cases w 0) as [Hneg|Hge]; [|exact Hge].
    rewrite Z.pow_neg_r in Hn by exact Hneg. lia. }
  rewrite <- (Z.mod_small n (2 ^ w)) by lia.
  apply Z.mod_pow2_bits_high. lia.
Qed.

Lemma u32_of_bits x :
  0 <= x -> (forall i, 32 <= i -> Z.testbit x i = false) -> 0 <= x < 2 ^ 32.
Proof.
  intros H0 Hhi. split; [exact H0|].
  destruct (Z.eq_dec x 0) as [->|Hne]; [reflexivity|].
  assert (Hpos : 0 < x) by lia.
  apply (proj2 (Z.log2_lt_pow2 x 32 Hpos)).
  destruct (Z.lt_ge_cases (Z.log2 x) 32) as [Hlt|Hge]; [exact Hlt|].
  specialize (Hhi (Z.log2 x) Hge). rewrite Z.bit_log2 in Hhi by lia.
  discriminate Hhi.
Qed.

End Bits32.

(** Evaluates the bits of literals and the comparisons of literals, and
    normalises literal positions. *)
Ltac eval_testbit :=
  repeat match goal with
  | |- context [Z.testbit ?c ?k] =>
      first
        [ is_var c;
          let k' := eval vm_compute in k in
          progress change (Z.testbit c k) with (Z.testbit c k')
        | let b := eval vm_compute in (Z.testbit c k) in
          match b with
          | true => change (Z.testbit c k) with true
          | false => change (Z.testbit c k) with false
          end ]
  | |- context [?a <? ?b] =>
      let v := eval vm_compute in (a <? b) in
      match v with
      | true => change (a <? b) with true
      | false => change (a <? b) with false
      end
  end;
  rewrite ?Z.testbit_neg_r by reflexivity;
  cbn [andb orb];
  rewrite ?andb_true_r, ?andb_false_r, ?orb_false_r.

(** Case analysis over the positions [k], [k + 1], ..., 31 of a bit. *)
Ltac each_bit_from i k tac :=
  lazymatch k with
  | 32 => exfalso; lia
  | _ =>
      let k' := eval vm_compute in (k + 1) in
      let H := fresh "Hbit" in
      destruct (Z.eq_dec i k) as [H|H];
      [ subst i; tac | each_bit_from i k' tac ]
  end.

Section ReverseBits.
Import Int BitUtils32.

(** One stage of the reversal swaps the blocks of [k] bits the mask
    selects with their neighbours. *)
Lemma swap_stage_testbit n m k j :
  0 <= k -> 0 <= j ->
  Z.testbit (Z.lor (Z.land (Z.shiftr n k) m) (shl 32 (Z.land n m) k)) j
  = (Z.testbit n (j + k) && Z.testbit m j)
    || ((j <? 32) && (Z.testbit n (j - k) && Z.testbit m (j - k))).
Proof.
  intros Hk Hj. rewrite Z.lor_spec, Z.land_spec, Z.shiftr_spec by lia.
  f_equal. unfold shl. destruct (Z.ltb_spec j 32) as [Hlt|Hge]; cbn [andb].
  - rewrite testbit_u32_low, Z.shiftl_spec, Z.land_spec by lia. reflexivity.
  - apply testbit_u32_high. lia.
Qed.

Lemma swap_halves_testbit n j :
  0 <= j ->
  Z.testbit (Z.lor (Z.shiftr n 16) (shl 32 n 16)) j
  = Z.testbit n (j + 16) || ((j <? 32) && Z.testbit n (j - 16)).
Proof.
  intros Hj. rewrite Z.lor_spec, Z.shiftr_spec by lia.
  f_equal. unfold shl. destruct (Z.ltb_spec j 32) as [Hlt|Hge]; cbn [andb].
  - rewrite testbit_u32_low, Z.shiftl_spec by lia. reflexivity.
  - apply testbit_u32_high. lia.
Qed.

(** Bit [i] of the result is bit [31 - i] of the argument. *)
Lemma ReverseBits32_testbit n i :
  0 <= i < 32 -> Z.testbit (ReverseBits32 n) i = Z.testbit n (31 - i).
Proof.
  intros Hi. unfold ReverseBits32. cbv zeta.
  set (n1 := Z.lor (Z.land (Z.shiftr n 1) _) _).
  set (n2 := Z.lor (Z.land (Z.shiftr n1 2) _) _).
  set (n3 := Z.lor (Z.land (Z.shiftr n2 4) _) _).
  set (n4 := Z.lor (Z.land (Z.shiftr n3 8) _) _).
  pose proof (fun j => swap_stage_testbit n 0x55555555 1 j ltac:(lia)) as H1.
  pose proof (fun j => swap_stage_testbit n1 0x33333333 2 j ltac:(lia)) as H2.
  pose proof (fun j => swap_stage_testbit n2 0x0F0F0F0F 4 j ltac:(lia)) as H3.
  pose proof (fun j => swap_stage_testbit n3 0x00FF00FF 8 j ltac:(lia)) as H4.
  fold n1 in H1. fold n2 in H2. fold n3 in H3. fold n4 in H4.
  clearbody n1 n2 n3 n4.
  each_bit_from i 0
    ltac:(rewrite swap_halves_testbit by (vm_compute; discriminate);
          eval_testbit;
          rewrite ?H4 by (vm_compute; discriminate); eval_testbit;
          rewrite ?H3 by (vm_compute; discriminate); eval_testbit;
          rewrite ?H2 by (vm_compute; discriminate); eval_testbit;
          rewrite ?H1 by (vm_compute; discriminate); eval_testbit;
          reflexivity).
Qed.

Lemma ReverseBits32_range n : 0 <= ReverseBits32 n < 2 ^ 32.
Proof.
  apply u32_of_bits.
  - unfold ReverseBits32. cbv zeta.
    set (n4 := Z.lor (Z.land (Z.shiftr _ 8) _) _).
    assert (H4 : 0 <= n4).
    { subst n4. apply Z.lor_nonneg. split.
      - apply Z.land_nonneg. right. lia.
      - unfold shl, to_unsigned. apply Z.mod_pos_bound. lia. }
    apply Z.lor_nonneg. split.
    + apply Z.shiftr_nonneg. exact H4.
    + unfold shl, to_unsigned. apply Z.mod_pos_bound. lia.
  - intros i Hi. unfold ReverseBits32. cbv zeta.
    rewrite swap_halves_testbit by lia.
    destruct (Z.ltb_spec i 32); [lia|]. cbn [andb]. rewrite orb_false_r.
    rewrite swap_stage_testbit by lia.
    destruct (Z.ltb_spec (i + 16) 32); [lia|]. cbn [andb].
    rewrite orb_false_r.
    rewrite (testbit_above 0x00FF00FF 32 (i + 16)) by lia.
    apply andb_false_r.
Qed.

End ReverseBits.

(** X1.  [ReverseBits32] reverses the order of the 32 bits of its
    argument: the result is a 32-bit value whose bit [i] is bit [31 - i]
    of the argument, and reversing twice gives the argument back. *)
Theorem ReverseBits32_involutive (n : Z) (Hn : Int.in_unsigned 32 n) :
  Int.in_unsigned 32 (BitUtils32.ReverseBits32 n)
  /\ (forall i, 0 <= i < 32 ->
        Z.testbit (BitUtils32.ReverseBits32 n) i = Z.testbit n (31 - i))
  /\ BitUtils32.ReverseBits32 (BitUtils32.ReverseBits32 n) = n.
Proof.
  split; [apply ReverseBits32_range|].
  split; [intros i Hi; now apply ReverseBits32_testbit|].
  apply Z.bits_inj'. intros i Hi.
  destruct (Z.lt_ge_cases i 32) as [Hlt|Hge].
  - rewrite !ReverseBits32_testbit by lia. f_equal. lia.
  - rewrite (testbit_above _ 32 i (ReverseBits32_range _) Hge).
    symmetry. apply (testbit_above n 32 i Hn Hge).
Qed.

Lemma ReverseBits32_involutive_witness :
  Int.in_unsigned 32 (BitUtils32.ReverseBits32 0x12345678)
  /\ (forall i, 0 <= i < 32 ->
        Z.testbit (BitUtils32.ReverseBits32 0x12345678) i
        = Z.testbit 0x12345678 (31 - i))
  /\ BitUtils32.ReverseBits32 (BitUtils32.ReverseBits32 0x12345678)
     = 0x12345678.
Proof.
  apply ReverseBits32_involutive. unfold Int.in_unsigned. simpl. lia.
Defined.

Section MostSignificant.
Import Int BitUtils32.

(** The test of a step: a mask of the [b] bits from [b] on meets a number
    below [2 ^ (2 b)] exactly when the number is at least [2 ^ b]. *)
Lemma high_mask_test b n :
  0 <= b -> 0 <= n < 2 ^ (2 * b) ->
  (Z.land (Z.shiftl (Z.ones b) b) n =? 0) = (n <? 2 ^ b).
Proof.
  intros Hb Hn.
  assert (Hland : Z.land (Z.shiftl (Z.ones b) b) n = Z.shiftl (Z.shiftr n b) b).
  { apply Z.bits_inj'. intros i Hi.
    rewrite Z.land_spec, !Z.shiftl_spec by lia.
    destruct (Z.lt_ge_cases i b) as [Hlt|Hge].
    - rewrite !(Z.testbit_neg_r _ (i - b)) by lia. reflexivity.
    - rewrite Z.shiftr_spec, Z.testbit_ones_nonneg by lia.
      replace (i - b + b) with i by lia.
      destruct (Z.ltb_spec (i - b) b) as [Hin|Hout]; [reflexivity|].
      cbn [andb]. symmetry. apply (testbit_above n (2 * b)); lia. }
  rewrite Hland, Z.shiftl_mul_pow2, Z.shiftr_div_pow2 by lia.
  assert (Hpow : 0 < 2 ^ b) by (apply Z.pow_pos_nonneg; lia).
  destruct (Z.ltb_spec n (2 ^ b)) as [Hlt|Hge].
  - rewrite Z.div_small by lia. reflexivity.
  - apply Z.eqb_neq.
    assert (1 <= n / 2 ^ b) by (apply Z.div_le_lower_bound; lia).
    nia.
Qed.

Lemma msb_step_spec k n msb :
  0 <= k -> 0 <= n < 2 ^ (2 * 2 ^ k) ->
  msb_step (Z.shiftl (Z.ones (2 ^ k)) (2 ^ k)) k (n, msb)
  = if n <? 2 ^ 2 ^ k then (n, msb)
    else (n / 2 ^ 2 ^ k, Z.lor msb (2 ^ k)).
Proof.
  intros Hk Hn. unfold msb_step.
  assert (Hb : 0 <= 2 ^ k) by (apply Z.pow_nonneg; lia).
  rewrite high_mask_test by assumption.
  rewrite Z.shiftl_1_l, Z.shiftr_div_pow2 by assumption.
  destruct (n <? 2 ^ 2 ^ k); reflexivity.
Qed.

(** Evaluates the powers of 2 with a literal exponent. *)
Ltac eval_pow2 :=
  repeat match goal with
  | |- context [2 ^ ?k] =>
      let v := eval vm_compute in (2 ^ k) in
      progress change (2 ^ k) with v
  end.

Ltac msb_split S :=
  rewrite S by dlia;
  match goal with
  | |- context [if ?a <? ?b then _ else _] => destruct (Z.ltb_spec a b)
  end.

(** On a positive argument the portable [MostSignificantBit] is the
    binary logarithm. *)
Lemma MostSignificantBit_log2 n :
  0 < n < 2 ^ 32 -> MostSignificantBit n = Z.log2 n.
Proof.
  intros Hn. change (2 ^ 32) with 4294967296 in Hn.
  assert (S4 : forall m msb, 0 <= m < 4294967296 ->
             msb_step 0xFFFF0000 4 (m, msb)
             = if m <? 65536 then (m, msb) else (m / 65536, Z.lor msb 16)).
  { intros m msb Hm. exact (msb_step_spec 4 m msb ltac:(lia) Hm). }
  assert (S3 : forall m msb, 0 <= m < 65536 ->
             msb_step 0x0000FF00 3 (m, msb)
             = if m <? 256 then (m, msb) else (m / 256, Z.lor msb 8)).
  { intros m msb Hm. exact (msb_step_spec 3 m msb ltac:(lia) Hm). }
  assert (S2 : forall m msb, 0 <= m < 256 ->
             msb_step 0x000000F0 2 (m, msb)
             = if m <? 16 then (m, msb) else (m / 16, Z.lor msb 4)).
  { intros m msb Hm. exact (msb_step_spec 2 m msb ltac:(lia) Hm). }
  assert (S1 : forall m msb, 0 <= m < 16 ->
             msb_step 0x0000000C 1 (m, msb)
             = if m <? 4 then (m, msb) else (m / 4, Z.lor msb 2)).
  { intros m msb Hm. exact (msb_step_spec 1 m msb ltac:(lia) Hm). }
  assert (S0 : forall m, 0 <= m < 4 -> (Z.land 0x00000002 m =? 0) = (m <? 2)).
  { intros m Hm. exact (high_mask_test 1 m ltac:(lia) Hm). }
  unfold MostSignificantBit.
  destruct (Z.eqb_spec n 0) as [->|_]; [lia|]. cbn [negb]. cbv zeta.
  msb_split S4; msb_split S3; msb_split S2; msb_split S1;
    cbv iota beta; rewrite S0 by dlia;
    match goal with
    | |- context [negb (?a <? 2)] => destruct (Z.ltb_spec a 2)
    end; cbn [negb];
    match goal with
    | |- to_signed 32 ?m = _ =>
        let v := eval vm_compute in (to_signed 32 m) in
        change (to_signed 32 m) with v
    end;
    symmetry; (apply Z.log2_unique; [lia | eval_pow2; dlia]).
Qed.

End MostSignificant.

(** X2.  The portable [MostSignificantBit] returns the position of the
    highest set bit of a positive 32-bit value, that is its binary
    logarithm: [2 ^ msb <= n < 2 ^ (msb + 1)]. *)
Theorem MostSignificantBit_position (n : Z)
    (Hpos : 0 < n) (Hn : Int.in_unsigned 32 n) :
  let msb := BitUtils32.MostSignificantBit n in
  0 <= msb <= 31
  /\ 2 ^ msb <= n < 2 ^ (msb + 1)
  /\ Z.testbit n msb = true
  /\ (forall i, msb < i -> Z.testbit n i = false).
Proof.
  intros msb. subst msb.
  rewrite MostSignificantBit_log2 by (unfold Int.in_unsigned in Hn; lia).
  assert (Hlog : 0 <= Z.log2 n) by apply Z.log2_nonneg.
  assert (Hlt : Z.log2 n < 32).
  { apply Z.log2_lt_pow2; [lia | apply Hn]. }
  pose proof (Z.log2_spec n Hpos) as Hspec.
  split; [lia|]. split.
  - replace (Z.log2 n + 1) with (Z.succ (Z.log2 n)) by lia. exact Hspec.
  - split.
    + apply Z.bit_log2. exact Hpos.
    + intros i Hi. apply Z.bits_above_log2; lia.
Qed.

Lemma MostSignificantBit_position_witness :
  let msb := BitUtils32.MostSignificantBit 0x1234 in
  0 <= msb <= 31
  /\ 2 ^ msb <= 0x1234 < 2 ^ (msb + 1)
  /\ Z.testbit 0x1234 msb = true
  /\ (forall i, msb < i -> Z.testbit 0x1234 i = false).
Proof.
  apply MostSignificantBit_position.
  - lia.
  - unfold Int.in_unsigned. simpl. lia.
Defined.

Section CopyBits.
Import Int BitUtils32.

(** The mask of [CopyBits32] selects the [nbits] bits from [dst_offset]
    on, as far as they lie in the 32-bit word. *)
Lemma copy_mask_testbit nbits dst_offset i :
  1 <= nbits <= 32 -> 0 <= dst_offset -> 0 <= i < 32 ->
  Z.testbit
    (shl 32 (Z.shiftr (to_unsigned 32 (Z.lnot 0)) (32 - nbits)) dst_offset) i
  = (dst_offset <=? i) && (i <? dst_offset + nbits).
Proof.
  intros Hn Hd Hi. unfold shl.
  rewrite testbit_u32_low, Z.shiftl_spec by lia.
  change (to_unsigned 32 (Z.lnot 0)) with (Z.ones 32).
  destruct (Z.leb_spec dst_offset i) as [Hle|Hgt]; cbn [andb].
  - rewrite Z.shiftr_spec, Z.testbit_ones_nonneg by lia.
    destruct (Z.ltb_spec (i - dst_offset + (32 - nbits)) 32);
      destruct (Z.ltb_spec i (dst_offset + nbits)); try reflexivity; lia.
  - apply Z.testbit_neg_r. lia.
Qed.

End CopyBits.

(** X3.  For a bit count from 1 to 32 and offsets from 0 to 31,
    [CopyBits32] replaces the bits [dst_offset .. dst_offset + nbits - 1]
    of the destination word (as far as they lie below bit 32) by the bits
    of the source from [src_offset] on, and keeps every other bit of the
    destination. *)
Theorem CopyBits32_bits (dst dst_offset src src_offset nbits : Z)
    (Hdst : Int.in_unsigned 32 dst) (Hsrc : Int.in_unsigned 32 src)
    (Hnbits : 1 <= nbits <= 32)
    (Hdo : 0 <= dst_offset < 32) (Hso : 0 <= src_offset < 32) :
  exists r,
    BitUtils32.CopyBits32 dst dst_offset src src_offset nbits = Some r
    /\ Int.in_unsigned 32 r
    /\ forall i, 0 <= i < 32 ->
         Z.testbit r i
         = if (dst_offset <=? i) && (i <? dst_offset + nbits)
           then Z.testbit src (i - dst_offset + src_offset)
           else Z.testbit dst i.
Proof.
  unfold BitUtils32.CopyBits32, BitUtils32.shift_count_ok.
  destruct (Z.leb_spec 0 (32 - nbits)); [|lia].
  destruct (Z.ltb_spec (32 - nbits) 32); [|lia].
  destruct (Z.leb_spec 0 dst_offset); [|lia].
  destruct (Z.ltb_spec dst_offset 32); [|lia].
  destruct (Z.leb_spec 0 src_offset); [|lia].
  destruct (Z.ltb_spec src_offset 32); [|lia].
  cbn [andb]. cbv zeta.
  set (mask := Int.shl 32 (Z.shiftr (Int.to_unsigned 32 (Z.lnot 0))
                             (32 - nbits)) dst_offset).
  assert (Hmask : forall i, 0 <= i < 32 ->
            Z.testbit mask i = (dst_offset <=? i) && (i <? dst_offset + nbits)).
  { intros i Hi. now apply copy_mask_testbit. }
  assert (Hmask_range : 0 <= mask < 2 ^ 32).
  { unfold mask, Int.shl, Int.to_unsigned. apply Z.mod_pos_bound. lia. }
  clearbody mask.
  eexists. split; [reflexivity|]. split.
  - apply u32_of_bits.
    + apply Z.lor_nonneg. split; apply Z.land_nonneg.
      * left. apply Hdst.
      * right. lia.
    + intros i Hi. rewrite Z.lor_spec, !Z.land_spec.
      rewrite (testbit_above dst 32 i Hdst Hi).
      rewrite (testbit_above mask 32 i Hmask_range Hi).
      now rewrite andb_false_r.
  - intros i Hi. rewrite Z.lor_spec, !Z.land_spec.
    rewrite testbit_u32_low, Z.lnot_spec, (Hmask i Hi) by lia.
    unfold Int.shl. rewrite testbit_u32_low, Z.shiftl_spec by lia.
    destruct (Z.leb_spec dst_offset i) as [Hle|Hgt]; cbn [andb negb].
    + rewrite Z.shiftr_spec by lia.
      destruct (Z.ltb_spec i (dst_offset + nbits)); cbn [negb].
      * now rewrite andb_false_r, andb_true_r.
      * now rewrite andb_true_r, andb_false_r, orb_false_r.
    + now rewrite andb_true_r, andb_false_r, orb_false_r.
Qed.

Lemma CopyBits32_bits_witness :
  exists r,
    BitUtils32.CopyBits32 0xFFFFFFFF 4 0xAB 0 8 = Some r
    /\ Int.in_unsigned 32 r
    /\ forall i, 0 <= i < 32 ->
         Z.testbit r i
         = if (4 <=? i) && (i <? 4 + 8)
           then Z.testbit 0xAB (i - 4 + 0)
           else Z.testbit 0xFFFFFFFF i.
Proof.
  apply CopyBits32_bits.
  - unfold Int.in_unsigned. simpl. lia.
  - unfold Int.in_unsigned. simpl. lia.
  - lia.
  - lia.
  - lia.
Defined.

(** ** More on the decoder buffer *)

Section PeekingBits.
Import Int Mem DecoderBuffer BitDecoderPeek.

Lemma PeekBit_bit_at r off i :
  0 <= off -> 0 <= i -> off + i < 2 ^ 64 ->
  PeekBit i {| bit_buffer_ := r; bit_offset_ := off |}
  = Z.b2z (bit_at r (off + i)).
Proof.
  intros H0 Hi Hw. unfold PeekBit, bit_at. cbn [bit_buffer_ bit_offset_].
  rewrite to_unsigned_small by lia.
  rewrite Z.shiftr_div_pow2 by lia. change (2 ^ 3) with 8.
  change 7 with (Z.ones 3). rewrite Z.land_ones by lia. change (2 ^ 3) with 8.
  destruct (r !! Z.to_nat ((off + i) / 8)) as [byte|]; [|reflexivity].
  apply land_shiftr_1. dlia.
Qed.

Lemma EnsureBits_loop_bits n : forall i buf r off,
  0 <= off -> 0 <= i -> i + Z.of_nat n <= 32 ->
  off + i + Z.of_nat n < 2 ^ 64 ->
  forall j, 0 <= j ->
    Z.testbit
      (EnsureBits_loop n i buf {| bit_buffer_ := r; bit_offset_ := off |}) j
    = Z.testbit buf j
      || ((i <=? j) && (j <? i + Z.of_nat n) && bit_at r (off + j)).
Proof.
  induction n as [|n IH]; intros i buf r off H0 Hi H32 Hw j Hj.
  - cbn [EnsureBits_loop].
    destruct (Z.leb_spec i j); destruct (Z.ltb_spec j (i + Z.of_nat 0));
      cbn [andb]; try lia; now rewrite orb_false_r.
  - cbn [EnsureBits_loop]. rewrite IH by lia.
    rewrite PeekBit_bit_at by lia. rewrite shiftl_b2z_small by lia.
    rewrite Z.lor_spec, testbit_shiftl_b2z by lia.
    destruct (Z.eqb_spec j i) as [->|Hne].
    + destruct (Z.leb_spec (i + 1) i); [lia|].
      destruct (Z.leb_spec i i); [|lia].
      destruct (Z.ltb_spec i (i + Z.of_nat (S n))); [|lia].
      cbn [andb]. now rewrite andb_true_r, orb_false_r.
    + rewrite andb_false_r, orb_false_r. f_equal. f_equal.
      destruct (Z.leb_spec (i + 1) j); destruct (Z.leb_spec i j);
        destruct (Z.ltb_spec j (i + 1 + Z.of_nat n));
        destruct (Z.ltb_spec j (i + Z.of_nat (S n)));
        cbn [andb]; try reflexivity; lia.
Qed.

End PeekingBits.

(** X4.  Peeking and consuming is reading: when [k <= 24] bits are
    available, [GetBits(k)] returns the value [EnsureBits(k)] returns and
    leaves the decoder as [ConsumeBits(k)] leaves it. *)
Theorem EnsureBits_ConsumeBits_GetBits
    (r : Mem.bytes) (off k x : Z)
    (Hk : 0 <= k <= 24)
    (Hoff : 0 <= off)
    (Hmem : 8 * Mem.len r < 2 ^ 64)
    (Havail : off + k <= 8 * Mem.len r) :
  let d := {| DecoderBuffer.bit_buffer_ := r;
              DecoderBuffer.bit_offset_ := off |} in
  DecoderBuffer.GetBits k x d
  = (true, BitDecoderPeek.EnsureBits k d, DecoderBuffer.ConsumeBits k d).
Proof.
  intros d. subst d.
  destruct (GetBits_bits k x r off) as (value & Hrun & Hbits);
    [lia | lia | lia |].
  rewrite Hrun. unfold DecoderBuffer.ConsumeBits, DecoderBuffer.offset_after.
  cbn [DecoderBuffer.bit_buffer_ DecoderBuffer.bit_offset_].
  rewrite to_unsigned_small by lia.
  replace (Z.min (off + k) (Z.max off (8 * Mem.len r))) with (off + k) by lia.
  f_equal. f_equal.
  apply Z.bits_inj'. intros j Hj. rewrite (Hbits j Hj).
  unfold BitDecoderPeek.EnsureBits.
  rewrite EnsureBits_loop_bits by lia.
  rewrite Z.testbit_0_l, orb_false_l, Z2Nat.id by lia.
  destruct (Z.leb_spec 0 j); [|lia]. reflexivity.
Qed.

Lemma EnsureBits_ConsumeBits_GetBits_witness :
  let d := {| DecoderBuffer.bit_buffer_ := [0xDE; 0xAD; 0xBE];
              DecoderBuffer.bit_offset_ := 3 |} in
  DecoderBuffer.GetBits 13 0 d
  = (true, BitDecoderPeek.EnsureBits 13 d, DecoderBuffer.ConsumeBits 13 d).
Proof.
  apply EnsureBits_ConsumeBits_GetBits.
  - lia.
  - lia.
  - vm_compute. reflexivity.
  - unfold Mem.len. simpl. lia.
Defined.

(** X5.  In bit mode a read of [nbits <= 32] bits takes
    [min (nbits, AvailBits())] bits: [BitsDecoded()] grows and
    [AvailBits()] shrinks by that number, so the bit offset never passes
    the end of the data. *)
Theorem bit_read_accounting
    (b : DecoderBuffer.t) (nbits x : Z)
    (Hmode : DecoderBuffer.bit_decoder_active b = true)
    (Hnbits : 0 <= nbits <= 32)
    (Hoff : 0 <= DecoderBuffer.bit_offset_ (DecoderBuffer.bit_decoder_ b))
    (Hin : DecoderBuffer.bit_offset_ (DecoderBuffer.bit_decoder_ b)
           <= 8 * Mem.len (DecoderBuffer.bit_buffer_
                             (DecoderBuffer.bit_decoder_ b)))
    (Hmem : 8 * Mem.len (DecoderBuffer.bit_buffer_
                           (DecoderBuffer.bit_decoder_ b)) < 2 ^ 64) :
  let d := DecoderBuffer.bit_decoder_ b in
  let d' := DecoderBuffer.bit_decoder_
              (DecoderBuffer.DecodeLeastSignificantBits32 nbits x b).2 in
  let taken := Z.min nbits (DecoderBuffer.AvailBits d) in
  DecoderBuffer.BitsDecoded d' = DecoderBuffer.BitsDecoded d + taken
  /\ DecoderBuffer.AvailBits d' = DecoderBuffer.AvailBits d - taken
  /\ DecoderBuffer.bit_buffer_ d' = DecoderBuffer.bit_buffer_ d
  /\ DecoderBuffer.bit_offset_ d'
     <= 8 * Mem.len (DecoderBuffer.bit_buffer_ d').
Proof.
  intros d d' taken. subst d d' taken.
  destruct (DecoderBuffer.bit_decoder_ b) as [r off] eqn:Hd.
  cbn [DecoderBuffer.bit_buffer_ DecoderBuffer.bit_offset_] in *.
  unfold DecoderBuffer.DecodeLeastSignificantBits32.
  rewrite Hmode, Hd. cbn [negb].
  destruct (GetBits_bits nbits x r off Hnbits Hoff Hmem)
    as (value & Hrun & _).
  rewrite Hrun.
  cbn [snd DecoderBuffer.set_bit_decoder DecoderBuffer.bit_decoder_
       DecoderBuffer.bit_buffer_ DecoderBuffer.bit_offset_].
  unfold DecoderBuffer.BitsDecoded, DecoderBuffer.AvailBits,
    DecoderBuffer.offset_after.
  cbn [DecoderBuffer.bit_buffer_ DecoderBuffer.bit_offset_].
  pose proof (len_nonneg r) as Hlen.
  rewrite !to_unsigned_small by lia.
  repeat split; try reflexivity; lia.
Qed.

Lemma bit_read_accounting_witness :
  let b := Samples.bits_of_255 3 in
  let d := DecoderBuffer.bit_decoder_ b in
  let d' := DecoderBuffer.bit_decoder_
              (DecoderBuffer.DecodeLeastSignificantBits32 16 0 b).2 in
  let taken := Z.min 16 (DecoderBuffer.AvailBits d) in
  DecoderBuffer.BitsDecoded d' = DecoderBuffer.BitsDecoded d + taken
  /\ DecoderBuffer.AvailBits d' = DecoderBuffer.AvailBits d - taken
  /\ DecoderBuffer.bit_buffer_ d' = DecoderBuffer.bit_buffer_ d
  /\ DecoderBuffer.bit_offset_ d'
     <= 8 * Mem.len (DecoderBuffer.bit_buffer_ d').
Proof.
  apply (bit_read_accounting (Samples.bits_of_255 3) 16 0).
  - reflexivity.
  - lia.
  - simpl. lia.
  - unfold Mem.len. simpl. lia.
  - vm_compute. reflexivity.
Defined.

Section DecoderSequences.
Import Int Mem DecoderBuffer.

Lemma initialised_set_pos p b : initialised b -> initialised (set_pos p b).
Proof. intros H. exact H. Qed.

(** The bytes of two consecutive reads are the bytes of one read. *)
Lemma bytes_at_pos_split b s1 s2 :
  0 <= pos_ b -> 0 <= s1 -> 0 <= s2 ->
  bytes_at_pos b s1 ++ bytes_at_pos (set_pos (pos_ b + s1) b) s2
  = bytes_at_pos b (s1 + s2).
Proof.
  intros Hp H1 H2. unfold bytes_at_pos. cbn [set_pos pos_ data_].
  rewrite (Z2Nat.inj_add (pos_ b) s1), (Z2Nat.inj_add s1 s2) by lia.
  rewrite <- drop_drop. apply take_take_drop.
Qed.

Lemma take_got (got rest : bytes) s :
  len got = s -> take (Z.to_nat s) (got ++ rest) = got.
Proof.
  intros H. apply take_app_length'. unfold len in H. lia.
Qed.

End DecoderSequences.

(** X6.  On an initialised buffer whose position lies inside the data, a
    byte-mode read of [size] bytes succeeds exactly when
    [size <= remaining_size()]: it then leaves [remaining_size()] smaller
    and [decoded_size()] larger by [size] if it is a [Decode] (unchanged if
    it is a [Peek]); otherwise it returns [false]. *)
Theorem read_succeeds_iff_remaining
    (r : DecoderBuffer.byte_read) (out : Mem.bytes) (size : Z)
    (b : DecoderBuffer.t)
    (Hinit : DecoderBuffer.initialised b)
    (Hpos : 0 <= DecoderBuffer.pos_ b <= DecoderBuffer.data_size_ b)
    (Hsize : 0 <= size)
    (Hsum : DecoderBuffer.pos_ b + size < 2 ^ 63)
    (Hout : size <= Mem.len out) :
  exists rem,
    DecoderBuffer.remaining_size b = Some rem /\ 0 <= rem
    /\ if size <=? rem
       then exists out' b',
              DecoderBuffer.run r out size b = Some (true, out', b')
              /\ DecoderBuffer.remaining_size b'
                 = Some (if DecoderBuffer.advances r then rem - size else rem)
              /\ DecoderBuffer.decoded_size b'
                 = DecoderBuffer.decoded_size b
                   + (if DecoderBuffer.advances r then size else 0)
       else DecoderBuffer.run r out size b = Some (false, out, b).
Proof.
  pose proof Hinit as [Hlen Hrange].
  unfold Int.in_signed, Int.signed_min, Int.signed_max in Hrange.
  change (2 ^ (64 - 1)) with (2 ^ 63) in Hrange.
  exists (DecoderBuffer.data_size_ b - DecoderBuffer.pos_ b).
  assert (Hrem : forall p, 0 <= p <= DecoderBuffer.data_size_ b ->
            Int.signed_result 64 (DecoderBuffer.data_size_ b - p)
            = Some (DecoderBuffer.data_size_ b - p)).
  { intros p Hp. apply signed_result_Some.
    unfold Int.in_signed, Int.signed_min, Int.signed_max.
    change (2 ^ (64 - 1)) with (2 ^ 63). lia. }
  split; [apply Hrem; lia|]. split; [lia|].
  destruct (Z.leb_spec size
              (DecoderBuffer.data_size_ b - DecoderBuffer.pos_ b))
    as [Hle|Hgt].
  - rewrite run_in_bounds by (try assumption; lia).
    eexists. eexists. split; [reflexivity|].
    unfold DecoderBuffer.remaining_size, DecoderBuffer.decoded_size.
    destruct (DecoderBuffer.advances r);
      cbn [DecoderBuffer.set_pos DecoderBuffer.pos_ DecoderBuffer.data_size_].
    + rewrite Hrem by lia. split; [f_equal; lia | reflexivity].
    + rewrite Hrem by lia. split; [reflexivity | lia].
  - apply run_overflows. rewrite overflows_no_wrap; try assumption.
    + apply Z.ltb_lt. lia.
    + unfold Int.in_signed, Int.signed_min, Int.signed_max.
      change (2 ^ (64 - 1)) with (2 ^ 63). lia.
Qed.

Lemma read_succeeds_iff_remaining_witness :
  exists rem,
    DecoderBuffer.remaining_size Samples.four_bytes_at_1 = Some rem /\ 0 <= rem
    /\ if 3 <=? rem
       then exists out' b',
              DecoderBuffer.run DecoderBuffer.ReadDecode [0; 0; 0] 3
                Samples.four_bytes_at_1 = Some (true, out', b')
              /\ DecoderBuffer.remaining_size b'
                 = Some (if DecoderBuffer.advances DecoderBuffer.ReadDecode
                         then rem - 3 else rem)
              /\ DecoderBuffer.decoded_size b'
                 = DecoderBuffer.decoded_size Samples.four_bytes_at_1
                   + (if DecoderBuffer.advances DecoderBuffer.ReadDecode
                      then 3 else 0)
       else DecoderBuffer.run DecoderBuffer.ReadDecode [0; 0; 0] 3
              Samples.four_bytes_at_1
            = Some (false, [0; 0; 0], Samples.four_bytes_at_1).
Proof.
  apply read_succeeds_iff_remaining.
  - split; [reflexivity|].
    unfold Int.in_signed, Int.signed_min, Int.signed_max. simpl. lia.
  - simpl. lia.
  - lia.
  - vm_compute. reflexivity.
  - unfold Mem.len. simpl. lia.
Defined.

(** X7.  Two consecutive in-bounds [Decode]s deliver, one after the other,
    the bytes a single [Decode] of the two sizes together delivers, and
    leave the buffer in the same state. *)
Theorem decode_twice
    (r1 r2 r : DecoderBuffer.byte_read) (out1 out2 out : Mem.bytes)
    (s1 s2 : Z) (b : DecoderBuffer.t)
    (Hr1 : DecoderBuffer.advances r1 = true)
    (Hr2 : DecoderBuffer.advances r2 = true)
    (Hr : DecoderBuffer.advances r = true)
    (Hinit : DecoderBuffer.initialised b)
    (Hpos : 0 <= DecoderBuffer.pos_ b)
    (Hs1 : 0 <= s1) (Hs2 : 0 <= s2)
    (Hin : DecoderBuffer.pos_ b + s1 + s2 <= DecoderBuffer.data_size_ b)
    (Hout1 : s1 <= Mem.len out1) (Hout2 : s2 <= Mem.len out2)
    (Hout : s1 + s2 <= Mem.len out) :
  exists o1 b1 o2 b2 o,
    DecoderBuffer.run r1 out1 s1 b = Some (true, o1, b1)
    /\ DecoderBuffer.run r2 out2 s2 b1 = Some (true, o2, b2)
    /\ DecoderBuffer.run r out (s1 + s2) b = Some (true, o, b2)
    /\ take (Z.to_nat (s1 + s2)) o
       = take (Z.to_nat s1) o1 ++ take (Z.to_nat s2) o2.
Proof.
  pose proof Hinit as [Hlen _].
  set (b1 := DecoderBuffer.set_pos (DecoderBuffer.pos_ b + s1) b).
  assert (Hinit1 : DecoderBuffer.initialised b1) by exact Hinit.
  pose proof (run_in_bounds r1 out1 s1 b Hinit Hpos Hs1 ltac:(lia) Hout1)
    as H1.
  pose proof (run_in_bounds r2 out2 s2 b1 Hinit1) as H2.
  cbn [b1 DecoderBuffer.set_pos DecoderBuffer.pos_ DecoderBuffer.data_size_]
    in H2.
  specialize (H2 ltac:(lia) Hs2 ltac:(lia) Hout2).
  pose proof (run_in_bounds r out (s1 + s2) b Hinit Hpos ltac:(lia)
                ltac:(lia) Hout) as H12.
  rewrite Hr1 in H1. rewrite Hr2 in H2. rewrite Hr in H12.
  fold b1 in H1.
  do 5 eexists. split; [exact H1|]. split; [exact H2|]. split.
  - rewrite H12. do 2 f_equal. unfold b1, DecoderBuffer.set_pos.
    cbn [DecoderBuffer.pos_ DecoderBuffer.data_ DecoderBuffer.data_size_
         DecoderBuffer.bit_decoder_ DecoderBuffer.bit_mode_
         DecoderBuffer.bitstream_version_].
    f_equal. lia.
  - rewrite !take_got.
    + symmetry. now apply bytes_at_pos_split.
    + apply bytes_at_pos_length;
        cbn [b1 DecoderBuffer.set_pos DecoderBuffer.pos_ DecoderBuffer.data_];
        lia.
    + apply bytes_at_pos_length; lia.
    + apply bytes_at_pos_length; lia.
Qed.

Lemma decode_twice_witness :
  exists o1 b1 o2 b2 o,
    DecoderBuffer.run DecoderBuffer.ReadDecode [0] 1 Samples.four_bytes_at_1
    = Some (true, o1, b1)
    /\ DecoderBuffer.run DecoderBuffer.ReadDecode_T [0; 0] 2 b1
       = Some (true, o2, b2)
    /\ DecoderBuffer.run DecoderBuffer.ReadDecode [0; 0; 0] (1 + 2)
         Samples.four_bytes_at_1 = Some (true, o, b2)
    /\ take (Z.to_nat (1 + 2)) o
       = take (Z.to_nat 1) o1 ++ take (Z.to_nat 2) o2.
Proof.
  apply decode_twice.
  - reflexivity.
  - reflexivity.
  - reflexivity.
  - split; [reflexivity|].
    unfold Int.in_signed, Int.signed_min, Int.signed_max. simpl. lia.
  - simpl. lia.
  - lia.
  - lia.
  - simpl. lia.
  - unfold Mem.len. simpl. lia.
  - unfold Mem.len. simpl. lia.
  - unfold Mem.len. simpl. lia.
Defined.

(** X8.  An in-bounds [Peek] followed by [Advance] of the same size is a
    [Decode]: the same bytes are delivered and the same buffer state is
    reached. *)
Theorem peek_advance_is_decode
    (rp rd : DecoderBuffer.byte_read) (out : Mem.bytes) (s : Z)
    (b : DecoderBuffer.t)
    (Hrp : DecoderBuffer.advances rp = false)
    (Hrd : DecoderBuffer.advances rd = true)
    (Hinit : DecoderBuffer.initialised b)
    (Hpos : 0 <= DecoderBuffer.pos_ b)
    (Hs : 0 <= s)
    (Hin : DecoderBuffer.pos_ b + s <= DecoderBuffer.data_size_ b)
    (Hout : s <= Mem.len out) :
  exists got b',
    DecoderBuffer.run rp out s b = Some (true, got, b)
    /\ DecoderBuffer.Advance s b = Some b'
    /\ DecoderBuffer.run rd out s b = Some (true, got, b').
Proof.
  pose proof (run_in_bounds rp out s b Hinit Hpos Hs Hin Hout) as Hp.
  pose proof (run_in_bounds rd out s b Hinit Hpos Hs Hin Hout) as Hd.
  rewrite Hrp in Hp. rewrite Hrd in Hd.
  do 2 eexists. split; [exact Hp|]. split; [|exact Hd].
  unfold DecoderBuffer.Advance.
  destruct Hinit as [_ Hrange].
  rewrite signed_result_Some; [reflexivity|].
  unfold Int.in_signed, Int.signed_min, Int.signed_max in *. lia.
Qed.

Lemma peek_advance_is_decode_witness :
  exists got b',
    DecoderBuffer.run DecoderBuffer.ReadPeek [0; 0] 2 Samples.four_bytes_at_1
    = Some (true, got, Samples.four_bytes_at_1)
    /\ DecoderBuffer.Advance 2 Samples.four_bytes_at_1 = Some b'
    /\ DecoderBuffer.run DecoderBuffer.ReadDecode [0; 0] 2
         Samples.four_bytes_at_1 = Some (true, got, b').
Proof.
  apply peek_advance_is_decode.
  - reflexivity.
  - reflexivity.
  - split; [reflexivity|].
    unfold Int.in_signed, Int.signed_min, Int.signed_max. simpl. lia.
  - simpl. lia.
  - lia.
  - simpl. lia.
  - unfold Mem.len. simpl. lia.
Defined.

(** ** More on the encoder buffer *)

(** X9.  What byte-mode writes append, byte-mode reads deliver: after a
    typed write of [v1] and a raw write of [v2] outside bit mode the
    buffer has grown by the two lengths, and a decoder buffer over the
    encoder's data, positioned where the writes began, decodes [v1], then
    [v2], and then has nothing left. *)
Theorem byte_round_trip
    (enc : EncoderBuffer.t) (v1 v2 out1 out2 : Mem.bytes)
    (r1 r2 : DecoderBuffer.byte_read)
    (Hmode : EncoderBuffer.bit_encoder_active enc = false)
    (Hr1 : DecoderBuffer.advances r1 = true)
    (Hr2 : DecoderBuffer.advances r2 = true)
    (Hsize : EncoderBuffer.size enc + Mem.len v1 + Mem.len v2 < 2 ^ 63)
    (Hout1 : Mem.len v1 <= Mem.len out1)
    (Hout2 : Mem.len v2 <= Mem.len out2) :
  exists enc1 enc2,
    EncoderBuffer.Encode_T v1 enc = (true, enc1)
    /\ EncoderBuffer.Encode v2 (Mem.len v2) enc1 = Some (true, enc2)
    /\ EncoderBuffer.size enc2
       = EncoderBuffer.size enc + Mem.len v1 + Mem.len v2
    /\ forall dec,
         DecoderBuffer.data_ dec = EncoderBuffer.data enc2 ->
         DecoderBuffer.data_size_ dec = EncoderBuffer.size enc2 ->
         DecoderBuffer.pos_ dec = EncoderBuffer.size enc ->
         exists o1 d1 o2 d2,
           DecoderBuffer.run r1 out1 (Mem.len v1) dec = Some (true, o1, d1)
           /\ take (length v1) o1 = v1
           /\ DecoderBuffer.run r2 out2 (Mem.len v2) d1 = Some (true, o2, d2)
           /\ take (length v2) o2 = v2
           /\ DecoderBuffer.decoded_size d2 = EncoderBuffer.size enc2
           /\ DecoderBuffer.remaining_size d2 = Some 0.
Proof.
  pose proof (len_nonneg v1) as Hv1. pose proof (len_nonneg v2) as Hv2.
  pose proof (len_nonneg (EncoderBuffer.buffer_ enc)) as Hbuf.
  set (enc1 := EncoderBuffer.set_buffer (EncoderBuffer.buffer_ enc ++ v1) enc).
  assert (Hmode1 : EncoderBuffer.bit_encoder_active enc1 = false)
    by exact Hmode.
  exists enc1.
  exists (EncoderBuffer.set_buffer
            (EncoderBuffer.buffer_ enc1 ++ take (Z.to_nat (Mem.len v2)) v2)
            enc1).
  split; [unfold EncoderBuffer.Encode_T; now rewrite Hmode|].
  split.
  { unfold EncoderBuffer.Encode. rewrite Hmode1.
    destruct (Z.leb_spec 0 (Mem.len v2)); [|lia].
    destruct (Z.leb_spec (Mem.len v2) (Mem.len v2)); [|lia]. reflexivity. }
  subst enc1.
  unfold EncoderBuffer.size, EncoderBuffer.data in *.
  cbn [EncoderBuffer.buffer_].
  replace (take (Z.to_nat (Mem.len v2)) v2) with v2
    by (symmetry; apply take_ge; unfold Mem.len; lia).
  set (buf := EncoderBuffer.buffer_ enc) in *.
  assert (Hlen : Mem.len ((buf ++ v1) ++ v2)
                 = Mem.len buf + Mem.len v1 + Mem.len v2).
  { unfold Mem.len. rewrite !length_app. lia. }
  split; [exact Hlen|].
  intros dec Hdata Hdsize Hdpos.
  cbn [EncoderBuffer.set_buffer EncoderBuffer.buffer_] in Hdata, Hdsize.
  assert (Hinit : DecoderBuffer.initialised dec).
  { split; [now rewrite Hdsize, Hdata|].
    unfold Int.in_signed, Int.signed_min, Int.signed_max.
    change (2 ^ (64 - 1)) with (2 ^ 63). lia. }
  pose proof (run_in_bounds r1 out1 (Mem.len v1) dec Hinit) as H1.
  rewrite Hr1 in H1. specialize (H1 ltac:(lia) ltac:(lia) ltac:(lia) Hout1).
  set (d1 := DecoderBuffer.set_pos (DecoderBuffer.pos_ dec + Mem.len v1) dec)
    in *.
  pose proof (run_in_bounds r2 out2 (Mem.len v2) d1 Hinit) as H2.
  rewrite Hr2 in H2.
  cbn [d1 DecoderBuffer.set_pos DecoderBuffer.pos_ DecoderBuffer.data_size_]
    in H2.
  specialize (H2 ltac:(lia) ltac:(lia) ltac:(lia) Hout2). fold d1 in H2.
  assert (Hb1 : DecoderBuffer.bytes_at_pos dec (Mem.len v1) = v1).
  { unfold DecoderBuffer.bytes_at_pos. rewrite Hdata, Hdpos.
    unfold Mem.len. rewrite !Nat2Z.id, <- app_assoc, drop_app_length.
    apply take_app_length. }
  assert (Hb2 : DecoderBuffer.bytes_at_pos d1 (Mem.len v2) = v2).
  { unfold DecoderBuffer.bytes_at_pos.
    cbn [d1 DecoderBuffer.set_pos DecoderBuffer.pos_ DecoderBuffer.data_].
    rewrite Hdata, Hdpos.
    replace (Z.to_nat (Mem.len buf + Mem.len v1)) with (length (buf ++ v1))
      by (unfold Mem.len; rewrite length_app; lia).
    unfold Mem.len. rewrite Nat2Z.id, drop_app_length. apply take_ge. lia. }
  rewrite Hb1 in H1. rewrite Hb2 in H2.
  do 4 eexists. split; [exact H1|]. split; [apply take_app_length|].
  split; [exact H2|]. split; [apply take_app_length|].
  unfold DecoderBuffer.decoded_size, DecoderBuffer.remaining_size.
  cbn [d1 DecoderBuffer.set_pos DecoderBuffer.pos_ DecoderBuffer.data_size_
       EncoderBuffer.set_buffer EncoderBuffer.buffer_].
  split; [lia|].
  replace (DecoderBuffer.data_size_ dec
           - (DecoderBuffer.pos_ dec + Mem.len v1 + Mem.len v2)) with 0
    by lia.
  reflexivity.
Qed.

Lemma byte_round_trip_witness :
  exists enc1 enc2,
    EncoderBuffer.Encode_T [1; 2] MoreSamples.idle_encoder = (true, enc1)
    /\ EncoderBuffer.Encode [3; 4; 5] (Mem.len [3; 4; 5]) enc1
       = Some (true, enc2)
    /\ EncoderBuffer.size enc2
       = EncoderBuffer.size MoreSamples.idle_encoder + Mem.len [1; 2]
         + Mem.len [3; 4; 5]
    /\ forall dec,
         DecoderBuffer.data_ dec = EncoderBuffer.data enc2 ->
         DecoderBuffer.data_size_ dec = EncoderBuffer.size enc2 ->
         DecoderBuffer.pos_ dec = EncoderBuffer.size MoreSamples.idle_encoder ->
         exists o1 d1 o2 d2,
           DecoderBuffer.run DecoderBuffer.ReadDecode_T [0; 0]
             (Mem.len [1; 2]) dec = Some (true, o1, d1)
           /\ take (length [1; 2]) o1 = [1; 2]
           /\ DecoderBuffer.run DecoderBuffer.ReadDecode [0; 0; 0; 0]
                (Mem.len [3; 4; 5]) d1 = Some (true, o2, d2)
           /\ take (length [3; 4; 5]) o2 = [3; 4; 5]
           /\ DecoderBuffer.decoded_size d2 = EncoderBuffer.size enc2
           /\ DecoderBuffer.remaining_size d2 = Some 0.
Proof.
  apply byte_round_trip.
  - reflexivity.
  - reflexivity.
  - reflexivity.
  - vm_compute. reflexivity.
  - unfold Mem.len. simpl. lia.
  - unfold Mem.len. simpl. lia.
Defined.

Section BitSequences.
Import Int Mem.

(** A successful bit-mode write, in terms of the bits of the buffer. *)
Lemma EncodeLeastSignificantBits32_bits enc base off nbits value :
  EncoderBuffer.bit_encoder_active enc = true ->
  EncoderBuffer.bit_encoder_ enc
  = Some {| EncoderBuffer.bit_buffer_ := base;
            EncoderBuffer.bit_offset_ := off |} ->
  0 <= nbits <= 32 -> 0 <= base -> 0 <= off ->
  8 * len (EncoderBuffer.buffer_ enc) < 2 ^ 64 ->
  8 * base + off + nbits <= 8 * len (EncoderBuffer.buffer_ enc) ->
  exists mem',
    EncoderBuffer.EncodeLeastSignificantBits32 nbits value enc
    = Some (true,
            EncoderBuffer.set_bit_encoder
              (Some {| EncoderBuffer.bit_buffer_ := base;
                       EncoderBuffer.bit_offset_ := off + nbits |})
              (EncoderBuffer.set_buffer mem' enc))
    /\ len mem' = len (EncoderBuffer.buffer_ enc)
    /\ forall k, 0 <= k ->
         bit_at mem' k
         = if (8 * base + off <=? k) && (k <? 8 * base + off + nbits)
           then Z.testbit value (k - (8 * base + off))
           else bit_at (EncoderBuffer.buffer_ enc) k.
Proof.
  intros Hact Hptr Hn Hb H0 Hmem Hroom.
  destruct (PutBits_loop_bits (Z.to_nat nbits) 0 value
              (EncoderBuffer.buffer_ enc) base off)
    as (mem' & Hrun & Hlen & Hbits); try lia.
  rewrite Z2Nat.id in Hrun, Hbits by lia.
  exists mem'. split; [|split].
  - unfold EncoderBuffer.EncodeLeastSignificantBits32, EncoderBuffer.PutBits.
    rewrite Hact, Hptr. cbn [negb mbind option_bind].
    rewrite Hrun. reflexivity.
  - exact Hlen.
  - intros k Hk. rewrite (Hbits k Hk).
    replace (0 + (k - (8 * base + off))) with (k - (8 * base + off)) by lia.
    reflexivity.
Qed.

(** A bit-mode read over a region that holds the low bits of [data]. *)
Lemma DecodeLeastSignificantBits32_value dec r off nbits x data :
  DecoderBuffer.bit_decoder_active dec = true ->
  DecoderBuffer.bit_decoder_ dec
  = {| DecoderBuffer.bit_buffer_ := r; DecoderBuffer.bit_offset_ := off |} ->
  0 <= nbits <= 32 -> 0 <= off -> 8 * len r < 2 ^ 64 ->
  off + nbits <= 8 * len r ->
  (forall i, 0 <= i < nbits -> bit_at r (off + i) = Z.testbit data i) ->
  DecoderBuffer.DecodeLeastSignificantBits32 nbits x dec
  = (true, data mod 2 ^ nbits,
     DecoderBuffer.set_bit_decoder
       {| DecoderBuffer.bit_buffer_ := r;
          DecoderBuffer.bit_offset_ := off + nbits |} dec).
Proof.
  intros Hact Hd Hn H0 Hmem Hin Hdata.
  unfold DecoderBuffer.DecodeLeastSignificantBits32.
  rewrite Hact, Hd. cbn [negb].
  now rewrite (GetBits_value nbits x r off data).
Qed.

End BitSequences.

(** X10.  Bit-mode writes do not disturb one another: after two
    consecutive writes, of [n1] bits of [v1] and of [n2] bits of [v2],
    two consecutive reads of [n1] and [n2] bits from the same bytes return
    [v1] modulo [2 ^ n1] and then [v2] modulo [2 ^ n2]. *)
Theorem bit_coding_two_values
    (enc : EncoderBuffer.t) (e : EncoderBuffer.BitEncoder)
    (n1 v1 n2 v2 : Z)
    (Hactive : EncoderBuffer.bit_encoder_active enc = true)
    (Hptr : EncoderBuffer.bit_encoder_ enc = Some e)
    (Hn1 : 0 <= n1 <= 32) (Hn2 : 0 <= n2 <= 32)
    (Hbase : 0 <= EncoderBuffer.bit_buffer_ e)
    (Hoff : 0 <= EncoderBuffer.bit_offset_ e)
    (Hsize_t : 8 * Mem.len (EncoderBuffer.buffer_ enc) < 2 ^ 64)
    (Hroom : 8 * EncoderBuffer.bit_buffer_ e + EncoderBuffer.bit_offset_ e
             + n1 + n2 <= 8 * Mem.len (EncoderBuffer.buffer_ enc)) :
  let base := EncoderBuffer.bit_buffer_ e in
  let off := EncoderBuffer.bit_offset_ e in
  exists enc1 enc2,
    EncoderBuffer.EncodeLeastSignificantBits32 n1 v1 enc = Some (true, enc1)
    /\ EncoderBuffer.EncodeLeastSignificantBits32 n2 v2 enc1
       = Some (true, enc2)
    /\ forall (dec : DecoderBuffer.t) (x s : Z),
         DecoderBuffer.bit_decoder_active dec = true ->
         DecoderBuffer.bit_decoder_ dec
         = {| DecoderBuffer.bit_buffer_ :=
                take (Z.to_nat s)
                     (drop (Z.to_nat base) (EncoderBuffer.buffer_ enc2));
              DecoderBuffer.bit_offset_ := off |} ->
         off + n1 + n2 <= 8 * s ->
         exists dec1 dec2,
           DecoderBuffer.DecodeLeastSignificantBits32 n1 x dec
           = (true, v1 mod 2 ^ n1, dec1)
           /\ DecoderBuffer.DecodeLeastSignificantBits32 n2 x dec1
              = (true, v2 mod 2 ^ n2, dec2)
           /\ DecoderBuffer.BitsDecoded (DecoderBuffer.bit_decoder_ dec2)
              = off + n1 + n2.
Proof.
  intros base off. destruct e as [base0 off0].
  cbn [EncoderBuffer.bit_buffer_ EncoderBuffer.bit_offset_] in *.
  subst base off.
  destruct (EncodeLeastSignificantBits32_bits enc base0 off0 n1 v1)
    as (mem1 & Hrun1 & Hlen1 & Hbits1); try assumption; try lia.
  set (enc1 := EncoderBuffer.set_bit_encoder
                 (Some {| EncoderBuffer.bit_buffer_ := base0;
                          EncoderBuffer.bit_offset_ := off0 + n1 |})
                 (EncoderBuffer.set_buffer mem1 enc)) in *.
  destruct (EncodeLeastSignificantBits32_bits enc1 base0 (off0 + n1) n2 v2)
    as (mem2 & Hrun2 & Hlen2 & Hbits2);
    try reflexivity; try assumption;
    cbn [enc1 EncoderBuffer.set_bit_encoder EncoderBuffer.set_buffer
         EncoderBuffer.buffer_] in *; try lia.
  do 2 eexists. split; [exact Hrun1|]. split; [exact Hrun2|].
  intros dec x s Hmode Hdec Hs.
  cbn [EncoderBuffer.set_bit_encoder EncoderBuffer.set_buffer
       EncoderBuffer.buffer_] in *.
  set (r := take (Z.to_nat s) (drop (Z.to_nat base0) mem2)) in *.
  assert (Hr : off0 + n1 + n2 <= 8 * Mem.len r).
  { unfold r, Mem.len in *. rewrite length_take, length_drop. lia. }
  assert (Hrmem : 8 * Mem.len r < 2 ^ 64).
  { unfold r, Mem.len in *. rewrite length_take, length_drop. lia. }
  do 2 eexists. split; [|split].
  - apply (DecodeLeastSignificantBits32_value dec r off0 n1 x v1);
      try assumption; try lia.
    intros i Hi. unfold r. rewrite bit_at_drop_take by lia.
    rewrite Hbits2, Hbits1 by lia.
    destruct (Z.leb_spec (8 * base0 + (off0 + n1)) (8 * base0 + (off0 + i)));
      [lia|]. cbn [andb].
    destruct (Z.leb_spec (8 * base0 + off0) (8 * base0 + (off0 + i)));
      [|lia].
    destruct (Z.ltb_spec (8 * base0 + (off0 + i)) (8 * base0 + off0 + n1));
      [|lia].
    cbn [andb]. f_equal. lia.
  - apply (DecodeLeastSignificantBits32_value _ r (off0 + n1) n2 x v2);
      try assumption; try reflexivity; try lia.
    intros i Hi. unfold r. rewrite bit_at_drop_take by lia.
    rewrite Hbits2 by lia.
    destruct (Z.leb_spec (8 * base0 + (off0 + n1))
                (8 * base0 + (off0 + n1 + i))); [|lia].
    destruct (Z.ltb_spec (8 * base0 + (off0 + n1 + i))
                (8 * base0 + (off0 + n1) + n2)); [|lia].
    cbn [andb]. f_equal. lia.
  - cbn [DecoderBuffer.set_bit_decoder DecoderBuffer.bit_decoder_
         DecoderBuffer.BitsDecoded DecoderBuffer.bit_offset_].
    unfold DecoderBuffer.BitsDecoded. cbn [DecoderBuffer.bit_offset_]. lia.
Qed.

Lemma bit_coding_two_values_witness :
  exists enc1 enc2,
    EncoderBuffer.EncodeLeastSignificantBits32 5 21 Samples.encoder_in_bit_mode
    = Some (true, enc1)
    /\ EncoderBuffer.EncodeLeastSignificantBits32 7 100 enc1
       = Some (true, enc2)
    /\ forall (dec : DecoderBuffer.t) (x s : Z),
         DecoderBuffer.bit_decoder_active dec = true ->
         DecoderBuffer.bit_decoder_ dec
         = {| DecoderBuffer.bit_buffer_ :=
                take (Z.to_nat s)
                     (drop (Z.to_nat 1) (EncoderBuffer.buffer_ enc2));
              DecoderBuffer.bit_offset_ := 0 |} ->
         0 + 5 + 7 <= 8 * s ->
         exists dec1 dec2,
           DecoderBuffer.DecodeLeastSignificantBits32 5 x dec
           = (true, 21 mod 2 ^ 5, dec1)
           /\ DecoderBuffer.DecodeLeastSignificantBits32 7 x dec1
              = (true, 100 mod 2 ^ 7, dec2)
           /\ DecoderBuffer.BitsDecoded (DecoderBuffer.bit_decoder_ dec2)
              = 0 + 5 + 7.
Proof.
  apply (bit_coding_two_values Samples.encoder_in_bit_mode
           {| EncoderBuffer.bit_buffer_ := 1;
              EncoderBuffer.bit_offset_ := 0 |} 5 21 7 100).
  - reflexivity.
  - reflexivity.
  - lia.
  - lia.
  - simpl. lia.
  - simpl. lia.
  - vm_compute. reflexivity.
  - unfold Mem.len. simpl. lia.
Defined.

Section BitWriteFrame.
Import Int Mem EncoderBuffer.

Lemma PutBit_bytes value mem e mem' e' :
  0 <= bit_buffer_ e -> 0 <= bit_offset_ e -> bit_offset_ e + 1 < 2 ^ 64 ->
  PutBit value mem e = Some (mem', e') ->
  e' = {| bit_buffer_ := bit_buffer_ e; bit_offset_ := bit_offset_ e + 1 |}
  /\ (forall i : nat,
        Z.of_nat i <> bit_buffer_ e + bit_offset_ e / 8 ->
        mem' !! i = mem !! i)
  /\ (Forall Bytes.is_byte mem -> Forall Bytes.is_byte mem')
  /\ length mem' = length mem.
Proof.
  intros Hb H0 Hw. unfold PutBit.
  destruct ((0 <=? bit_buffer_ e + bit_offset_ e / 8)
            && (bit_buffer_ e + bit_offset_ e / 8 <? len mem)) eqn:Hin;
    [|discriminate].
  destruct (mem !! Z.to_nat (bit_buffer_ e + bit_offset_ e / 8))
    as [byte|] eqn:Hbyte; cbn [mbind option_bind]; [|discriminate].
  intros [= <- <-]. split; [|split; [|split]].
  - rewrite to_unsigned_small by lia. reflexivity.
  - intros i Hi. apply list_lookup_insert_ne.
    apply andb_true_iff in Hin. destruct Hin as [Hlo _].
    apply Z.leb_le in Hlo. lia.
  - intros Hall. apply Forall_insert; [exact Hall|].
    unfold Bytes.is_byte, to_unsigned. change (2 ^ 8) with 256.
    apply Z.mod_pos_bound. lia.
  - apply length_insert.
Qed.

Lemma PutBits_loop_bytes n : forall bit data mem e mem' e',
  0 <= bit_buffer_ e -> 0 <= bit_offset_ e ->
  bit_offset_ e + Z.of_nat n < 2 ^ 64 ->
  PutBits_loop n bit data mem e = Some (mem', e') ->
  (forall i : nat,
     8 * (Z.of_nat i + 1) <= 8 * bit_buffer_ e + bit_offset_ e
     \/ 8 * bit_buffer_ e + bit_offset_ e + Z.of_nat n <= 8 * Z.of_nat i ->
     mem' !! i = mem !! i)
  /\ (Forall Bytes.is_byte mem -> Forall Bytes.is_byte mem')
  /\ length mem' = length mem.
Proof.
  induction n as [|n IH]; intros bit data mem e mem' e' Hb H0 Hw.
  - cbn [PutBits_loop]. intros [= <- <-]. repeat split; trivial.
  - cbn [PutBits_loop]. destruct (bit <? 32); [|discriminate].
    destruct (PutBit (Z.land (Z.shiftr data bit) 1) mem e)
      as [[mem1 e1]|] eqn:Hput; cbn [mbind option_bind]; [|discriminate].
    intros Hrun.
    destruct (PutBit_bytes _ _ _ _ _ Hb H0 ltac:(lia) Hput)
      as (-> & Hframe1 & Hall1 & Hlen1).
    apply IH in Hrun; cbn [bit_buffer_ bit_offset_] in *; [|lia..].
    destruct Hrun as (Hframe & Hall & Hlen). split; [|split].
    + intros i Hi. rewrite Hframe by lia. apply Hframe1. dlia.
    + intros H. apply Hall, Hall1, H.
    + congruence.
Qed.

End BitWriteFrame.

(** X11.  A bit-mode write touches only the bytes that hold the bits it
    writes: every byte of the buffer that lies entirely before or after
    those bits is left as it was, the size of the buffer does not change,
    and the bytes of the buffer stay in the range of a byte. *)
Theorem bit_write_frame
    (enc enc' : EncoderBuffer.t) (e : EncoderBuffer.BitEncoder)
    (nbits value : Z)
    (Hptr : EncoderBuffer.bit_encoder_ enc = Some e)
    (Hbase : 0 <= EncoderBuffer.bit_buffer_ e)
    (Hoff : 0 <= EncoderBuffer.bit_offset_ e)
    (Hsize_t : EncoderBuffer.bit_offset_ e + nbits < 2 ^ 64)
    (Hnbits : 0 <= nbits)
    (Hrun : EncoderBuffer.EncodeLeastSignificantBits32 nbits value enc
            = Some (true, enc')) :
  let first := 8 * EncoderBuffer.bit_buffer_ e + EncoderBuffer.bit_offset_ e in
  (forall i : nat,
     8 * (Z.of_nat i + 1) <= first \/ first + nbits <= 8 * Z.of_nat i ->
     EncoderBuffer.buffer_ enc' !! i = EncoderBuffer.buffer_ enc !! i)
  /\ (Forall Bytes.is_byte (EncoderBuffer.buffer_ enc) ->
      Forall Bytes.is_byte (EncoderBuffer.buffer_ enc'))
  /\ EncoderBuffer.size enc' = EncoderBuffer.size enc.
Proof.
  intros first. subst first.
  unfold EncoderBuffer.EncodeLeastSignificantBits32 in Hrun.
  destruct (EncoderBuffer.bit_encoder_active enc); cbn [negb] in Hrun;
    [|discriminate Hrun].
  rewrite Hptr in Hrun. cbn [mbind option_bind] in Hrun.
  unfold EncoderBuffer.PutBits in Hrun.
  destruct (EncoderBuffer.PutBits_loop (Z.to_nat nbits) 0 value
              (EncoderBuffer.buffer_ enc) e) as [[mem' e']|] eqn:Hloop;
    cbn [mbind option_bind] in Hrun; [|discriminate Hrun].
  injection Hrun as <-.
  cbn [EncoderBuffer.set_bit_encoder EncoderBuffer.set_buffer
       EncoderBuffer.buffer_ EncoderBuffer.size].
  apply PutBits_loop_bytes in Hloop;
    [|assumption | assumption | rewrite Z2Nat.id by lia; exact Hsize_t].
  destruct Hloop as (Hframe & Hall & Hlen).
  rewrite Z2Nat.id in Hframe by lia.
  split; [exact Hframe|]. split; [exact Hall|].
  unfold EncoderBuffer.size.
  cbn [EncoderBuffer.set_bit_encoder EncoderBuffer.set_buffer
       EncoderBuffer.buffer_].
  unfold Mem.len. f_equal. exact Hlen.
Qed.

Lemma bit_write_frame_witness :
  let first := 8 * 1 + 0 in
  (forall i : nat,
     8 * (Z.of_nat i + 1) <= first \/ first + 10 <= 8 * Z.of_nat i ->
     [9; 222; 0] !! i = EncoderBuffer.buffer_ Samples.encoder_in_bit_mode !! i)
  /\ (Forall Bytes.is_byte (EncoderBuffer.buffer_ Samples.encoder_in_bit_mode)
      -> Forall Bytes.is_byte [9; 222; 0])
  /\ Mem.len [9; 222; 0] = EncoderBuffer.size Samples.encoder_in_bit_mode.
Proof.
  apply (bit_write_frame Samples.encoder_in_bit_mode
           (EncoderBuffer.set_bit_encoder
              (Some {| EncoderBuffer.bit_buffer_ := 1;
                       EncoderBuffer.bit_offset_ := 10 |})
              (EncoderBuffer.set_buffer [9; 222; 0]
                 Samples.encoder_in_bit_mode))
           {| EncoderBuffer.bit_buffer_ := 1;
              EncoderBuffer.bit_offset_ := 0 |} 10 703710).
  - reflexivity.
  - simpl. lia.
  - simpl. lia.
  - vm_compute. reflexivity.
  - lia.
  - vm_compute. reflexivity.
Defined.

(** ** Faces of a mesh *)

Section MeshFacesFacts.
Import Int Mesh MeshFaces.

Lemma GetFace_lookup m j :
  0 <= j -> GetFace m j = faces_ m !! Z.to_nat j.
Proof. intros Hj. unfold GetFace. destruct (Z.leb_spec 0 j); [reflexivity|lia]. Qed.

(** A corner of a face that is in the container is read from that face. *)
Lemma CornerToPointId_of_face kc kp m id f k :
  faces_ m !! Z.to_nat id = Some f ->
  0 <= id -> 0 <= k < 3 -> 3 * id + k <= 2 ^ 31 - 1 -> 3 * id + k <> kc ->
  CornerToPointId kc kp m (3 * id + k) = ([id], Face_at f k).
Proof.
  intros Hf Hid Hk Hint Hvalid.
  assert (Hu : to_unsigned 32 (3 * id + k) = 3 * id + k).
  { apply to_unsigned_small. change (2 ^ 32) with 4294967296.
    change (2 ^ 31) with 2147483648 in Hint. lia. }
  rewrite CornerToPointId_valid by (try rewrite Hu; lia).
  destruct (quot_rem_nonneg (3 * id + k) ltac:(lia)) as [-> ->].
  replace ((3 * id + k) / 3) with id by dlia.
  replace ((3 * id + k) mod 3) with k by dlia.
  rewrite to_unsigned_small
    by (change (2 ^ 32) with 4294967296;
        change (2 ^ 31) with 2147483648 in Hint; lia).
  destruct (Z.leb_spec 0 id); [|lia].
  rewrite Hf. reflexivity.
Qed.

End MeshFacesFacts.

(** X12.  [SetFace(id, f)] stores [f] as face [id]: afterwards the mesh
    has [max (NumFaces(), id + 1)] faces, face [id] is [f], every other
    face the mesh had is unchanged, the faces the container grew by are
    the default face, and [CornerToPointId] returns the points of [f] for
    the three corners of face [id]. *)
Theorem SetFace_stores_face
    (default_face : Mesh.Face) (kInvalidCornerIndex kInvalidPointIndex : Z)
    (m : Mesh.t) (id : Z) (f : Mesh.Face)
    (Hid : 0 <= id < 2 ^ 32 - 1)
    (Hsize : Mesh.NumFaces m < 2 ^ 32) :
  exists m',
    MeshFaces.SetFace default_face id f m = Some m'
    /\ Mesh.NumFaces m' = Z.max (Mesh.NumFaces m) (id + 1)
    /\ MeshFaces.GetFace m' id = Some f
    /\ (forall j, 0 <= j < Mesh.NumFaces m -> j <> id ->
          MeshFaces.GetFace m' j = MeshFaces.GetFace m j)
    /\ (forall j, Mesh.NumFaces m <= j < id ->
          MeshFaces.GetFace m' j = Some default_face)
    /\ (forall k, 0 <= k < 3 -> 3 * id + k <= 2 ^ 31 - 1 ->
          3 * id + k <> kInvalidCornerIndex ->
          Mesh.CornerToPointId kInvalidCornerIndex kInvalidPointIndex m'
            (3 * id + k)
          = ([id], Mesh.Face_at f k)).
Proof.
  unfold Mesh.NumFaces in *. unfold MeshFaces.SetFace.
  set (n := length (Mesh.faces_ m)) in *.
  rewrite (to_unsigned_small 32 (Z.of_nat n)) by lia.
  rewrite (to_unsigned_small 32 (id + 1)) by lia.
  set (faces := if Z.of_nat n <=? id
                then resize (Z.to_nat (id + 1)) default_face (Mesh.faces_ m)
                else Mesh.faces_ m).
  assert (Hlen : Z.of_nat (length faces) = Z.max (Z.of_nat n) (id + 1)).
  { unfold faces. destruct (Z.leb_spec (Z.of_nat n) id).
    - rewrite length_resize. lia.
    - fold n. lia. }
  assert (Hold : forall j : nat, (j < n)%nat ->
            faces !! j = Mesh.faces_ m !! j).
  { intros j Hj. unfold faces. destruct (Z.leb_spec (Z.of_nat n) id).
    - apply lookup_resize; [lia | exact Hj].
    - reflexivity. }
  assert (Hnew : forall j : nat, (n <= j)%nat -> Z.of_nat j <= id ->
            faces !! j = Some default_face).
  { intros j Hj Hjid. unfold faces.
    destruct (Z.leb_spec (Z.of_nat n) id); [|lia].
    apply lookup_resize_new; [exact Hj | lia]. }
  destruct (Z.leb_spec 0 id); [|lia].
  destruct (Z.ltb_spec id (Z.of_nat (length faces))); [|lia]. cbn [andb].
  assert (Hstored : <[Z.to_nat id := f]> faces !! Z.to_nat id = Some f)
    by (apply list_lookup_insert_eq; lia).
  eexists. split; [reflexivity|]. cbn [Mesh.faces_].
  split; [rewrite length_insert; exact Hlen|].
  split; [rewrite GetFace_lookup by lia; exact Hstored|].
  split; [|split].
  - intros j Hj Hne. rewrite !GetFace_lookup by lia. cbn [Mesh.faces_].
    rewrite list_lookup_insert_ne by lia. apply Hold. lia.
  - intros j Hj. rewrite GetFace_lookup by lia. cbn [Mesh.faces_].
    rewrite list_lookup_insert_ne by lia. apply Hnew; lia.
  - intros k Hk Hint Hvalid.
    apply CornerToPointId_of_face; try assumption; try lia.
Qed.

Lemma SetFace_stores_face_witness :
  exists m',
    MeshFaces.SetFace (Mesh.mkFace 0 0 0) 4 (Mesh.mkFace 5 6 7) Samples.quad
    = Some m'
    /\ Mesh.NumFaces m' = Z.max (Mesh.NumFaces Samples.quad) (4 + 1)
    /\ MeshFaces.GetFace m' 4 = Some (Mesh.mkFace 5 6 7)
    /\ (forall j, 0 <= j < Mesh.NumFaces Samples.quad -> j <> 4 ->
          MeshFaces.GetFace m' j = MeshFaces.GetFace Samples.quad j)
    /\ (forall j, Mesh.NumFaces Samples.quad <= j < 4 ->
          MeshFaces.GetFace m' j = Some (Mesh.mkFace 0 0 0))
    /\ (forall k, 0 <= k < 3 -> 3 * 4 + k <= 2 ^ 31 - 1 ->
          3 * 4 + k <> 4294967295 ->
          Mesh.CornerToPointId 4294967295 4294967295 m' (3 * 4 + k)
          = ([4], Mesh.Face_at (Mesh.mkFace 5 6 7) k)).
Proof.
  apply SetFace_stores_face.
  - split; [lia | vm_compute; reflexivity].
  - vm_compute. reflexivity.
Defined.

(** X13.  [AddFace(f)] appends [f]: the mesh has one face more, the new
    face is the last one, [CornerToPointId] returns the points of [f] for
    its three corners, and returns for every corner of an earlier face
    what it returned before. *)
Theorem AddFace_appends
    (kInvalidCornerIndex kInvalidPointIndex : Z)
    (m : Mesh.t) (f : Mesh.Face)
    (Hsize : 3 * Mesh.NumFaces m + 2 <= 2 ^ 31 - 1) :
  let m' := Mesh.AddFace f m in
  let n := Mesh.NumFaces m in
  Mesh.NumFaces m' = n + 1
  /\ MeshFaces.GetFace m' n = Some f
  /\ (forall k, 0 <= k < 3 -> 3 * n + k <> kInvalidCornerIndex ->
        Mesh.CornerToPointId kInvalidCornerIndex kInvalidPointIndex m'
          (3 * n + k)
        = ([n], Mesh.Face_at f k))
  /\ (forall ci, 0 <= ci < 3 * n ->
        Mesh.CornerToPointId kInvalidCornerIndex kInvalidPointIndex m' ci
        = Mesh.CornerToPointId kInvalidCornerIndex kInvalidPointIndex m ci).
Proof.
  intros m' n. subst m' n. unfold Mesh.NumFaces, Mesh.AddFace in *.
  cbn [Mesh.faces_].
  assert (Hlast : (Mesh.faces_ m ++ [f]) !! length (Mesh.faces_ m) = Some f).
  { rewrite lookup_app_r by lia. now rewrite Nat.sub_diag. }
  split; [rewrite length_app; cbn [length]; lia|].
  split; [rewrite GetFace_lookup by lia; cbn [Mesh.faces_];
          now rewrite Nat2Z.id|].
  split.
  - intros k Hk Hvalid. apply CornerToPointId_of_face; try lia.
    cbn [Mesh.faces_]. now rewrite Nat2Z.id.
  - intros ci Hci. unfold Mesh.CornerToPointId, Mesh.face.
    destruct ((ci <? 0) || (Int.to_unsigned 32 ci =? kInvalidCornerIndex));
      [reflexivity|].
    destruct (quot_rem_nonneg ci ltac:(lia)) as [-> _].
    rewrite (to_unsigned_small 32 (ci / 3))
      by (change (2 ^ 32) with 4294967296;
          change (2 ^ 31) with 2147483648 in Hsize; dlia).
    cbn [Mesh.faces_]. rewrite lookup_app_l by dlia. reflexivity.
Qed.

Lemma AddFace_appends_witness :
  let m' := Mesh.AddFace (Mesh.mkFace 1 3 4) Samples.quad in
  let n := Mesh.NumFaces Samples.quad in
  Mesh.NumFaces m' = n + 1
  /\ MeshFaces.GetFace m' n = Some (Mesh.mkFace 1 3 4)
  /\ (forall k, 0 <= k < 3 -> 3 * n + k <> 4294967295 ->
        Mesh.CornerToPointId 4294967295 4294967295 m' (3 * n + k)
        = ([n], Mesh.Face_at (Mesh.mkFace 1 3 4) k))
  /\ (forall ci, 0 <= ci < 3 * n ->
        Mesh.CornerToPointId 4294967295 4294967295 m' ci
        = Mesh.CornerToPointId 4294967295 4294967295 Samples.quad ci).
Proof.
  apply AddFace_appends. vm_compute. discriminate.
Defined.

(** X14.  Sizing the face container and then filling it: [SetNumFaces(n)]
    makes the mesh have [n] faces, keeping the faces below [n] it had and
    setting the new ones to the default face, and a [SetFace] on an index
    below [n] afterwards stores its face without changing the number of
    faces. *)
Theorem SetNumFaces_then_SetFace
    (default_face : Mesh.Face) (m : Mesh.t) (n id : Z) (f : Mesh.Face)
    (Hn : 0 <= n < 2 ^ 31)
    (Hid : 0 <= id < n) :
  exists m1 m2,
    MeshFaces.SetNumFaces default_face n m = Some m1
    /\ Mesh.NumFaces m1 = n
    /\ (forall j, 0 <= j < Z.min n (Mesh.NumFaces m) ->
          MeshFaces.GetFace m1 j = MeshFaces.GetFace m j)
    /\ (forall j, Mesh.NumFaces m <= j < n ->
          MeshFaces.GetFace m1 j = Some default_face)
    /\ MeshFaces.SetFace default_face id f m1 = Some m2
    /\ Mesh.NumFaces m2 = n
    /\ MeshFaces.GetFace m2 id = Some f
    /\ (forall j, 0 <= j < n -> j <> id ->
          MeshFaces.GetFace m2 j = MeshFaces.GetFace m1 j).
Proof.
  change (2 ^ 31) with 2147483648 in Hn.
  unfold MeshFaces.SetNumFaces, MeshFaces.SetFace, Mesh.NumFaces.
  destruct (Z.leb_spec 0 n); [|lia].
  eexists. eexists. split; [reflexivity|]. cbn [Mesh.faces_].
  assert (Hlen1 : Z.of_nat (length (resize (Z.to_nat n) default_face
                                       (Mesh.faces_ m))) = n)
    by (rewrite length_resize; lia).
  rewrite Hlen1.
  rewrite (to_unsigned_small 32 n) by (change (2 ^ 32) with 4294967296; lia).
  destruct (Z.leb_spec n id); [lia|]. rewrite ?Hlen1.
  destruct (Z.leb_spec 0 id); [|lia].
  destruct (Z.ltb_spec id n); [|lia]. cbn [andb].
  split; [reflexivity|]. split; [|split; [|split; [reflexivity|]]].
  - intros j Hj. rewrite !GetFace_lookup by lia. cbn [Mesh.faces_].
    apply lookup_resize; lia.
  - intros j Hj. rewrite GetFace_lookup by lia. cbn [Mesh.faces_].
    apply lookup_resize_new; lia.
  - cbn [Mesh.faces_]. split; [rewrite length_insert; exact Hlen1|].
    split.
    + rewrite GetFace_lookup by lia. cbn [Mesh.faces_].
      apply list_lookup_insert_eq. lia.
    + intros j Hj Hne. rewrite !GetFace_lookup by lia. cbn [Mesh.faces_].
      apply list_lookup_insert_ne. lia.
Qed.

Lemma SetNumFaces_then_SetFace_witness :
  exists m1 m2,
    MeshFaces.SetNumFaces (Mesh.mkFace 0 0 0) 3 Samples.quad = Some m1
    /\ Mesh.NumFaces m1 = 3
    /\ (forall j, 0 <= j < Z.min 3 (Mesh.NumFaces Samples.quad) ->
          MeshFaces.GetFace m1 j = MeshFaces.GetFace Samples.quad j)
    /\ (forall j, Mesh.NumFaces Samples.quad <= j < 3 ->
          MeshFaces.GetFace m1 j = Some (Mesh.mkFace 0 0 0))
    /\ MeshFaces.SetFace (Mesh.mkFace 0 0 0) 2 (Mesh.mkFace 1 3 2) m1 = Some m2
    /\ Mesh.NumFaces m2 = 3
    /\ MeshFaces.GetFace m2 2 = Some (Mesh.mkFace 1 3 2)
    /\ (forall j, 0 <= j < 3 -> j <> 2 ->
          MeshFaces.GetFace m2 j = MeshFaces.GetFace m1 j).
Proof.
  apply SetNumFaces_then_SetFace.
  - split; [lia | vm_compute; reflexivity].
  - lia.
Defined.

(** ** Attribute data and material masks of a mesh *)

(** X15.  [AddAttributeData(att_id, et)] records the element type of an
    attribute: afterwards [GetAttributeElementType(att_id)] is [et], the
    vector has [max (size, att_id + 1)] entries, the entries it had are
    unchanged, and the entries it grew by, other than [att_id], are
    per-corner attributes. *)
Theorem AddAttributeData_records
    (a : MeshAttributeData.attribute_data) (att_id : Z)
    (et : MeshAttributeData.MeshAttributeElementType)
    (Hid : 0 <= att_id < 2 ^ 31 - 1)
    (Hsize : Z.of_nat (length a) < 2 ^ 31) :
  exists a',
    MeshAttributeData.AddAttributeData att_id et a = Some a'
    /\ Z.of_nat (length a') = Z.max (Z.of_nat (length a)) (att_id + 1)
    /\ MeshAttributeData.GetAttributeElementType att_id a' = Some et
    /\ (forall j, 0 <= j < Z.of_nat (length a) -> j <> att_id ->
          MeshAttributeData.GetAttributeElementType j a'
          = MeshAttributeData.GetAttributeElementType j a)
    /\ (forall j, Z.of_nat (length a) <= j < att_id ->
          MeshAttributeData.GetAttributeElementType j a'
          = Some MeshAttributeData.MESH_CORNER_ATTRIBUTE).
Proof.
  change (2 ^ 31) with 2147483648 in *.
  unfold MeshAttributeData.AddAttributeData.
  rewrite (to_signed_small 32 (Z.of_nat (length a)))
    by (change (2 ^ (32 - 1)) with 2147483648; lia).
  set (n := length a) in *.
  set (grown := if Z.of_nat n <=? att_id
                then resize (Z.to_nat (att_id + 1))
                       MeshAttributeData.AttributeData_default a
                else a).
  assert (Hgrow :
    (if Z.of_nat n <=? att_id
     then n0 ← Int.signed_result 32 (att_id + 1);
          Some (resize (Z.to_nat n0) MeshAttributeData.AttributeData_default a)
     else Some a) = Some grown).
  { unfold grown. destruct (Z.of_nat n <=? att_id); [|reflexivity].
    rewrite signed_result_Some; [reflexivity|].
    unfold Int.in_signed, Int.signed_min, Int.signed_max.
    change (2 ^ (32 - 1)) with 2147483648. lia. }
  rewrite Hgrow. cbn [mbind option_bind].
  assert (Hlen : Z.of_nat (length grown) = Z.max (Z.of_nat n) (att_id + 1)).
  { unfold grown. destruct (Z.leb_spec (Z.of_nat n) att_id).
    - rewrite length_resize. lia.
    - fold n. lia. }
  assert (Hold : forall j : nat, (j < n)%nat -> grown !! j = a !! j).
  { intros j Hj. unfold grown. destruct (Z.leb_spec (Z.of_nat n) att_id).
    - apply lookup_resize; [lia | exact Hj].
    - reflexivity. }
  assert (Hnew : forall j : nat, (n <= j)%nat -> Z.of_nat j <= att_id ->
            grown !! j = Some MeshAttributeData.AttributeData_default).
  { intros j Hj Hjid. unfold grown.
    destruct (Z.leb_spec (Z.of_nat n) att_id); [|lia].
    apply lookup_resize_new; [exact Hj | lia]. }
  unfold MeshAttributeData.SetAttributeElementType.
  destruct (Z.leb_spec 0 att_id); [|lia].
  destruct (Z.ltb_spec att_id (Z.of_nat (length grown))); [|lia].
  cbn [andb]. eexists. split; [reflexivity|].
  split; [rewrite length_insert; exact Hlen|].
  unfold MeshAttributeData.GetAttributeElementType.
  split; [|split].
  - destruct (Z.leb_spec 0 att_id); [|lia].
    rewrite list_lookup_insert_eq by lia. reflexivity.
  - intros j Hj Hne. destruct (Z.leb_spec 0 j); [|lia].
    rewrite list_lookup_insert_ne by lia. rewrite Hold by lia. reflexivity.
  - intros j Hj. destruct (Z.leb_spec 0 j); [|lia].
    rewrite list_lookup_insert_ne by lia. rewrite Hnew by lia. reflexivity.
Qed.

Lemma AddAttributeData_records_witness :
  exists a',
    MeshAttributeData.AddAttributeData 2
      MeshAttributeData.MESH_VERTEX_ATTRIBUTE [] = Some a'
    /\ Z.of_nat (length a')
       = Z.max (Z.of_nat (length (@nil MeshAttributeData.AttributeData)))
               (2 + 1)
    /\ MeshAttributeData.GetAttributeElementType 2 a'
       = Some MeshAttributeData.MESH_VERTEX_ATTRIBUTE
    /\ (forall j,
          0 <= j < Z.of_nat (length (@nil MeshAttributeData.AttributeData)) ->
          j <> 2 ->
          MeshAttributeData.GetAttributeElementType j a'
          = MeshAttributeData.GetAttributeElementType j [])
    /\ (forall j,
          Z.of_nat (length (@nil MeshAttributeData.AttributeData)) <= j < 2 ->
          MeshAttributeData.GetAttributeElementType j a'
          = Some MeshAttributeData.MESH_CORNER_ATTRIBUTE).
Proof.
  apply AddAttributeData_records.
  - split; [lia | vm_compute; reflexivity].
  - vm_compute. reflexivity.
Defined.

(** X16.  [AddMeshFeaturesMaterialMask(index, material)] appends a mask
    to the masks of [index]: the number of masks of [index], which is 0
    for an index the vector does not hold yet, grows by one, the new
    mask is the last one, the earlier masks of [index] are unchanged, and
    the number of masks of every other index stays what it was. *)
Theorem AddMeshFeaturesMaterialMask_appends
    (ms : MeshMaterialMasks.masks) (index material : Z)
    (Hindex : 0 <= index < 2 ^ 32 - 1)
    (Hcount : forall l, ms !! Z.to_nat index = Some l ->
                Z.of_nat (length l) < 2 ^ 31 - 1) :
  let count := MeshMaterialMasks.NumMeshFeaturesMaterialMasks index ms in
  exists ms',
    MeshMaterialMasks.AddMeshFeaturesMaterialMask index material ms = Some ms'
    /\ MeshMaterialMasks.NumMeshFeaturesMaterialMasks index ms' = count + 1
    /\ MeshMaterialMasks.GetMeshFeaturesMaterialMask index count ms'
       = Some material
    /\ (forall k, 0 <= k < count ->
          MeshMaterialMasks.GetMeshFeaturesMaterialMask index k ms'
          = MeshMaterialMasks.GetMeshFeaturesMaterialMask index k ms)
    /\ (forall j, 0 <= j -> j <> index ->
          MeshMaterialMasks.NumMeshFeaturesMaterialMasks j ms'
          = MeshMaterialMasks.NumMeshFeaturesMaterialMasks j ms).
Proof.
  intros count. subst count.
  change (2 ^ 32) with 4294967296 in Hindex.
  change (2 ^ 31) with 2147483648 in Hcount.
  unfold MeshMaterialMasks.AddMeshFeaturesMaterialMask.
  rewrite (to_unsigned_small 32 (index + 1))
    by (change (2 ^ 32) with 4294967296; lia).
  set (n := length ms) in *.
  set (grown := if Z.of_nat n <=? index
                then resize (Z.to_nat (index + 1)) [] ms else ms).
  (* The masks of [index] before the call. *)
  set (l := default [] (ms !! Z.to_nat index)).
  assert (Hl : grown !! Z.to_nat index = Some l).
  { unfold grown, l. destruct (Z.leb_spec (Z.of_nat n) index).
    - rewrite lookup_resize_new by lia.
      rewrite (lookup_ge_None_2 ms) by (fold n; lia). reflexivity.
    - destruct (lookup_lt_is_Some_2 ms (Z.to_nat index)) as [x Hx];
        [fold n; lia|]. now rewrite Hx. }
  assert (Hsmall : Z.of_nat (length l) < 2147483647).
  { unfold l. destruct (ms !! Z.to_nat index) as [x|] eqn:Hx.
    - apply Hcount. reflexivity.
    - cbn. lia. }
  assert (Hnum : MeshMaterialMasks.NumMeshFeaturesMaterialMasks index ms
                 = Z.of_nat (length l)).
  { unfold MeshMaterialMasks.NumMeshFeaturesMaterialMasks, l. fold n.
    destruct (Z.leb_spec (Z.of_nat n) index).
    - rewrite (lookup_ge_None_2 ms) by (fold n; lia). reflexivity.
    - destruct (ms !! Z.to_nat index) as [x|] eqn:Hx; [|reflexivity].
      change (default [] (Some x)) with x. apply to_signed_small; [lia|].
      change (2 ^ (32 - 1)) with 2147483648.
      specialize (Hcount x eq_refl). lia. }
  assert (Hlen : Z.of_nat (length grown) = Z.max (Z.of_nat n) (index + 1)).
  { unfold grown. destruct (Z.leb_spec (Z.of_nat n) index).
    - rewrite length_resize. lia.
    - fold n. lia. }
  destruct (Z.leb_spec 0 index); [|lia].
  rewrite Hl. cbn [mbind option_bind]. eexists. split; [reflexivity|].
  rewrite Hnum.
  assert (Hat : <[Z.to_nat index := l ++ [material]]> grown !! Z.to_nat index
                = Some (l ++ [material]))
    by (apply list_lookup_insert_eq; lia).
  split; [|split; [|split]].
  - unfold MeshMaterialMasks.NumMeshFeaturesMaterialMasks.
    rewrite length_insert, Hat.
    destruct (Z.leb_spec (Z.of_nat (length grown)) index); [lia|].
    rewrite length_app. cbn [length].
    rewrite to_signed_small; [lia | lia |].
    change (2 ^ (32 - 1)) with 2147483648. lia.
  - unfold MeshMaterialMasks.GetMeshFeaturesMaterialMask.
    destruct (Z.leb_spec 0 index); [|lia].
    destruct (Z.leb_spec 0 (Z.of_nat (length l))); [|lia]. cbn [andb].
    rewrite Hat. cbn [mbind option_bind].
    rewrite Nat2Z.id, lookup_app_r by lia. now rewrite Nat.sub_diag.
  - intros k Hk. unfold MeshMaterialMasks.GetMeshFeaturesMaterialMask.
    destruct (Z.leb_spec 0 index); [|lia].
    destruct (Z.leb_spec 0 k); [|lia]. cbn [andb].
    rewrite Hat. cbn [mbind option_bind].
    rewrite lookup_app_l by lia.
    unfold l in *. destruct (ms !! Z.to_nat index) as [x|];
      cbn [default from_option id length mbind option_bind] in *;
      [reflexivity | lia].
  - intros j Hj Hne.
    unfold MeshMaterialMasks.NumMeshFeaturesMaterialMasks.
    rewrite length_insert, list_lookup_insert_ne by lia. fold n.
    unfold grown in *.
    destruct (Z.leb_spec (Z.of_nat n) index) as [Hgrow|Hkeep];
      [|reflexivity].
    rewrite length_resize.
    destruct (Z.leb_spec (Z.of_nat n) j) as [Hout|Hin].
    + destruct (Z.leb_spec (Z.of_nat (Z.to_nat (index + 1))) j);
        [reflexivity|].
      rewrite lookup_resize_new by lia. reflexivity.
    + destruct (Z.leb_spec (Z.of_nat (Z.to_nat (index + 1))) j); [lia|].
      rewrite lookup_resize by (fold n; lia). reflexivity.
Qed.

Lemma AddMeshFeaturesMaterialMask_appends_witness :
  let count := MeshMaterialMasks.NumMeshFeaturesMaterialMasks 2 [[4]] in
  exists ms',
    MeshMaterialMasks.AddMeshFeaturesMaterialMask 2 9 [[4]] = Some ms'
    /\ MeshMaterialMasks.NumMeshFeaturesMaterialMasks 2 ms' = count + 1
    /\ MeshMaterialMasks.GetMeshFeaturesMaterialMask 2 count ms' = Some 9
    /\ (forall k, 0 <= k < count ->
          MeshMaterialMasks.GetMeshFeaturesMaterialMask 2 k ms'
          = MeshMaterialMasks.GetMeshFeaturesMaterialMask 2 k [[4]])
    /\ (forall j, 0 <= j -> j <> 2 ->
          MeshMaterialMasks.NumMeshFeaturesMaterialMasks j ms'
          = MeshMaterialMasks.NumMeshFeaturesMaterialMasks j [[4]]).
Proof.
  apply AddMeshFeaturesMaterialMask_appends.
  - split; [lia | vm_compute; reflexivity].
  - intros l Hl. discriminate Hl.
Defined.

(** ** Path utilities *)

Section PathUtilsFacts.
Import PathUtils.

Lemma find_last_of_None p (s : text) :
  find_last_of p s = None <-> Forall (fun c => p c = false) s.
Proof.
  induction s as [|c s IH]; cbn [find_last_of].
  - split; [constructor | reflexivity].
  - destruct (find_last_of p s) as [i|].
    + split; [discriminate|]. intros H. inversion H as [|? ? _ Hs]; subst.
      apply IH in Hs. discriminate.
    + destruct (p c) eqn:Hc.
      * split; [discriminate|]. intros H. inversion H; congruence.
      * split; [|reflexivity]. intros _. constructor; [exact Hc|].
        now apply IH.
Qed.

Lemma find_last_of_Some p (s : text) pos :
  find_last_of p s = Some pos ->
  exists c, s = take pos s ++ c :: drop (S pos) s /\ p c = true
            /\ Forall (fun c => p c = false) (drop (S pos) s)
            /\ (pos < length s)%nat.
Proof.
  revert pos. induction s as [|c s IH]; intros pos; cbn [find_last_of].
  - discriminate.
  - destruct (find_last_of p s) as [i|] eqn:Hs.
    + intros [= <-]. destruct (IH i eq_refl) as (c' & Heq & Hc' & Hrest & Hi).
      exists c'. cbn [take drop length]. repeat split; try assumption.
      * cbn [app]. now rewrite <- Heq.
      * lia.
    + destruct (p c) eqn:Hc; [|discriminate]. intros [= <-].
      exists c. cbn [take drop app length]. rewrite drop_0.
      repeat split; try assumption; [now apply find_last_of_None | lia].
Qed.

Lemma find_last_of_app p (a b : text) c :
  p c = true -> Forall (fun c => p c = false) b ->
  find_last_of p (a ++ c :: b) = Some (length a).
Proof.
  intros Hc Hb. induction a as [|x a IH]; cbn [app find_last_of length].
  - apply find_last_of_None in Hb. now rewrite Hb, Hc.
  - now rewrite IH.
Qed.

Lemma is_dot_eq c : is_dot c = true -> c = "."%char.
Proof. apply Ascii.eqb_eq. Qed.

Lemma is_slash_eq c : is_slash c = true -> c = "/"%char.
Proof. apply Ascii.eqb_eq. Qed.

End PathUtilsFacts.

(** X17.  [SplitPath] cuts the path in two without losing a character:
    the folder path followed by the file name is the path again.  The
    file name holds no separator, and the folder path is empty or ends
    with a separator. *)
Theorem SplitPath_parts (full_path : PathUtils.text) :
  let '(folder, file) := PathUtils.SplitPath full_path in
  folder ++ file = full_path
  /\ Forall (fun c => PathUtils.is_separator c = false) file
  /\ (folder = []
      \/ exists c, last folder = Some c /\ PathUtils.is_separator c = true).
Proof.
  unfold PathUtils.SplitPath, PathUtils.SplitPathPrivate.
  destruct (PathUtils.find_last_of PathUtils.is_separator full_path)
    as [pos|] eqn:Hpos.
  - apply find_last_of_Some in Hpos as (c & Heq & Hc & Hrest & Hlt).
    rewrite Nat.add_1_r. split; [apply take_drop|]. split; [exact Hrest|].
    right. exists c. split; [|exact Hc].
    rewrite (take_S_r _ _ c).
    + apply last_snoc.
    + rewrite Heq at 1. rewrite lookup_app_r by (rewrite length_take; lia).
      rewrite length_take, Nat.min_l, Nat.sub_diag by lia. reflexivity.
  - split; [reflexivity|]. split; [now apply find_last_of_None | now left].
Qed.

(** X18.  [GetFullPath] puts the relative path into the folder of the
    sibling file: when the relative path holds no separator, splitting
    the result gives back the folder of the sibling and the relative
    path. *)
Theorem GetFullPath_SplitPath (relative sibling : PathUtils.text)
    (Hrel : Forall (fun c => PathUtils.is_separator c = false) relative) :
  PathUtils.SplitPath (PathUtils.GetFullPath relative sibling)
  = (fst (PathUtils.SplitPath sibling), relative).
Proof.
  unfold PathUtils.SplitPath, PathUtils.SplitPathPrivate,
    PathUtils.GetFullPath.
  destruct (PathUtils.find_last_of PathUtils.is_separator sibling)
    as [pos|] eqn:Hpos; cbn [fst].
  - apply find_last_of_Some in Hpos as (c & Heq & Hc & Hrest & Hlt).
    rewrite Nat.add_1_r, (take_S_r _ _ c).
    2:{ rewrite Heq at 1. rewrite lookup_app_r by (rewrite length_take; lia).
        rewrite length_take, Nat.min_l, Nat.sub_diag by lia. reflexivity. }
    rewrite <- app_assoc. cbn [app].
    rewrite (find_last_of_app _ _ _ _ Hc Hrel).
    rewrite length_take, Nat.min_l by lia.
    rewrite Nat.add_1_r.
    replace (take pos sibling ++ c :: relative)
      with ((take pos sibling ++ [c]) ++ relative)
      by (now rewrite <- app_assoc).
    assert (Hlen : length (take pos sibling ++ [c]) = S pos)
      by (rewrite length_app, length_take; cbn [length]; lia).
    rewrite take_app_length', drop_app_length' by (symmetry; exact Hlen).
    reflexivity.
  - cbn [app]. apply find_last_of_None in Hrel. now rewrite Hrel.
Qed.

Lemma GetFullPath_SplitPath_witness :
  PathUtils.SplitPath
    (PathUtils.GetFullPath ["b"; "."; "j"]%char ["m"; "/"; "a"]%char)
  = (fst (PathUtils.SplitPath ["m"; "/"; "a"]%char), ["b"; "."; "j"]%char).
Proof.
  apply GetFullPath_SplitPath. repeat constructor.
Defined.

Lemma find_last_of_cut p (s : PathUtils.text) pos :
  PathUtils.find_last_of p s = Some pos ->
  exists a c b,
    s = a ++ c :: b /\ p c = true /\ Forall (fun c => p c = false) b
    /\ length a = pos /\ take pos s = a /\ take (pos + 1) s = a ++ [c]
    /\ drop (pos + 1) s = b.
Proof.
  intros H. apply find_last_of_Some in H as (c & Heq & Hc & Hrest & Hlt).
  exists (take pos s), c, (drop (S pos) s).
  assert (Hlen : length (take pos s) = pos)
    by (rewrite length_take; lia).
  repeat split; try assumption.
  - rewrite Nat.add_1_r. apply take_S_r.
    rewrite Heq at 1. rewrite lookup_app_r by lia.
    now rewrite Hlen, Nat.sub_diag.
  - now rewrite Nat.add_1_r.
Qed.

Lemma dot_cut_found (stem ext : PathUtils.text) :
  Forall (fun c => PathUtils.is_dot c = false) ext ->
  PathUtils.find_last_of PathUtils.is_dot (stem ++ "."%char :: ext)
  = Some (length stem).
Proof. intros H. now apply find_last_of_app. Qed.

(** X19.  [ReplaceFileExtension] returns a stem, a dot and the new
    extension, where the stem is the whole file name if it holds no dot,
    and otherwise what precedes its last dot. *)
Theorem ReplaceFileExtension_shape
    (in_file_name new_extension : PathUtils.text) :
  exists stem,
    PathUtils.ReplaceFileExtension in_file_name new_extension
    = stem ++ "."%char :: new_extension
    /\ ((in_file_name = stem
         /\ Forall (fun c => PathUtils.is_dot c = false) in_file_name)
        \/ exists old,
             in_file_name = stem ++ "."%char :: old
             /\ Forall (fun c => PathUtils.is_dot c = false) old).
Proof.
  unfold PathUtils.ReplaceFileExtension.
  destruct (PathUtils.find_last_of PathUtils.is_dot in_file_name)
    as [pos|] eqn:Hpos.
  - apply find_last_of_cut in Hpos
      as (a & c & b & Heq & Hc & Hb & _ & _ & Htake & _).
    apply is_dot_eq in Hc. subst c.
    exists a. rewrite Htake, <- app_assoc. split; [reflexivity|].
    right. now exists b.
  - exists in_file_name. split; [reflexivity|]. left.
    split; [reflexivity | now apply find_last_of_None].
Qed.

(** X20.  Replacing the extension twice by the same extension, which
    holds no dot, gives what replacing it once gives. *)
Theorem ReplaceFileExtension_idempotent
    (in_file_name new_extension : PathUtils.text)
    (Hext : Forall (fun c => PathUtils.is_dot c = false) new_extension) :
  PathUtils.ReplaceFileExtension
    (PathUtils.ReplaceFileExtension in_file_name new_extension) new_extension
  = PathUtils.ReplaceFileExtension in_file_name new_extension.
Proof.
  assert (Hshape : exists stem,
             PathUtils.ReplaceFileExtension in_file_name new_extension
             = stem ++ "."%char :: new_extension).
  { unfold PathUtils.ReplaceFileExtension.
    destruct (PathUtils.find_last_of PathUtils.is_dot in_file_name)
      as [pos|] eqn:Hpos.
    - apply find_last_of_cut in Hpos
        as (a & c & b & _ & Hc & _ & _ & _ & Htake & _).
      apply is_dot_eq in Hc. subst c.
      exists a. now rewrite Htake, <- app_assoc.
    - now exists in_file_name. }
  destruct Hshape as [stem ->].
  unfold PathUtils.ReplaceFileExtension at 1.
  rewrite (dot_cut_found _ _ Hext).
  replace (stem ++ "."%char :: new_extension)
    with ((stem ++ ["."%char]) ++ new_extension) at 1
    by (now rewrite <- app_assoc).
  rewrite take_app_length' by (rewrite length_app; reflexivity).
  now rewrite <- app_assoc.
Qed.

Lemma ReplaceFileExtension_idempotent_witness :
  PathUtils.ReplaceFileExtension
    (PathUtils.ReplaceFileExtension ["a"; "."; "b"]%char ["c"]%char)
    ["c"]%char
  = PathUtils.ReplaceFileExtension ["a"; "."; "b"]%char ["c"]%char.
Proof.
  apply ReplaceFileExtension_idempotent. repeat constructor.
Defined.


(** X22.  After [ReplaceFileExtension] has given a file name that does
    not start with a dot a non-empty extension without a dot,
    [LowercaseFileExtension] returns the lower case of that extension. *)
Theorem LowercaseFileExtension_ReplaceFileExtension
    (tolower : ascii -> ascii) (c : ascii)
    (rest new_extension : PathUtils.text)
    (Hc : PathUtils.is_dot c = false)
    (Hne : new_extension <> [])
    (Hext : Forall (fun c => PathUtils.is_dot c = false) new_extension) :
  PathUtils.LowercaseFileExtension tolower
    (PathUtils.ReplaceFileExtension (c :: rest) new_extension)
  = PathUtils.ToLower tolower new_extension.
Proof.
  assert (Hshape : exists stem,
             stem <> []
             /\ PathUtils.ReplaceFileExtension (c :: rest) new_extension
                = stem ++ "."%char :: new_extension).
  { unfold PathUtils.ReplaceFileExtension.
    destruct (PathUtils.find_last_of PathUtils.is_dot (c :: rest))
      as [pos|] eqn:Hpos.
    - apply find_last_of_cut in Hpos
        as (a & d & b & Heq & Hd & _ & _ & _ & Htake & _).
      exists a. split.
      + intros ->. cbn [app] in Heq. injection Heq as -> _. congruence.
      + apply is_dot_eq in Hd. subst d. now rewrite Htake, <- app_assoc.
    - exists (c :: rest). split; [discriminate | reflexivity]. }
  destruct Hshape as (stem & Hstem & ->).
  unfold PathUtils.LowercaseFileExtension.
  rewrite (dot_cut_found _ _ Hext).
  assert (Hs : (length stem <> 0)%nat)
    by (destruct stem; [congruence | cbn [length]; lia]).
  assert (He : (length new_extension <> 0)%nat)
    by (destruct new_extension; [congruence | cbn [length]; lia]).
  destruct (Nat.eqb_spec (length stem) 0); [lia|].
  destruct (Nat.eqb_spec (length stem)
              (length (stem ++ "."%char :: new_extension) - 1)) as [E|_].
  { rewrite length_app in E. cbn [length] in E. lia. }
  cbn [orb].
  replace (stem ++ "."%char :: new_extension)
    with ((stem ++ ["."%char]) ++ new_extension)
    by (now rewrite <- app_assoc).
  rewrite drop_app_length' by (rewrite length_app; reflexivity).
  reflexivity.
Qed.

Lemma LowercaseFileExtension_ReplaceFileExtension_witness :
  PathUtils.LowercaseFileExtension PathUtils.tolower_C
    (PathUtils.ReplaceFileExtension ("a" :: ["."; "b"])%char
       ["D"; "R"; "C"]%char)
  = PathUtils.ToLower PathUtils.tolower_C ["D"; "R"; "C"]%char.
Proof.
  apply LowercaseFileExtension_ReplaceFileExtension.
  - reflexivity.
  - discriminate.
  - repeat constructor.
Defined.

(** X23.  For a MIME type made of a non-empty type, a slash and a
    non-empty subtype without a slash, [LowercaseMimeTypeExtension]
    returns the lower case of the subtype; for a text without a slash,
    as the subtype alone is, it returns the empty string. *)
Theorem LowercaseMimeTypeExtension_subtype
    (tolower : ascii -> ascii) (type subtype : PathUtils.text)
    (Htype : type <> [])
    (Hsub : subtype <> [])
    (Hfree : Forall (fun c => PathUtils.is_slash c = false) subtype) :
  PathUtils.LowercaseMimeTypeExtension tolower (type ++ "/"%char :: subtype)
  = PathUtils.ToLower tolower subtype
  /\ PathUtils.LowercaseMimeTypeExtension tolower subtype = [].
Proof.
  unfold PathUtils.LowercaseMimeTypeExtension. split.
  - rewrite (find_last_of_app PathUtils.is_slash type subtype "/"%char)
      by (reflexivity || exact Hfree).
    assert (Hs : (length type <> 0)%nat)
      by (destruct type; [congruence | cbn [length]; lia]).
    assert (He : (length subtype <> 0)%nat)
      by (destruct subtype; [congruence | cbn [length]; lia]).
    destruct (Nat.eqb_spec (length type) 0); [lia|].
    destruct (Nat.eqb_spec (length type)
                (length (type ++ "/"%char :: subtype) - 1)) as [E|_].
    { rewrite length_app in E. cbn [length] in E. lia. }
    cbn [orb].
    replace (type ++ "/"%char :: subtype)
      with ((type ++ ["/"%char]) ++ subtype)
      by (now rewrite <- app_assoc).
    rewrite drop_app_length' by (rewrite length_app; reflexivity).
    reflexivity.
  - apply find_last_of_None in Hfree. now rewrite Hfree.
Qed.

Lemma LowercaseMimeTypeExtension_subtype_witness :
  PathUtils.LowercaseMimeTypeExtension PathUtils.tolower_C
    (["i"; "m"] ++ "/" :: ["P"; "N"; "G"])%char
  = PathUtils.ToLower PathUtils.tolower_C ["P"; "N"; "G"]%char
  /\ PathUtils.LowercaseMimeTypeExtension PathUtils.tolower_C
       ["P"; "N"; "G"]%char = [].
Proof.
  apply LowercaseMimeTypeExtension_subtype.
  - discriminate.
  - discriminate.
  - repeat constructor.
Defined.

(** ** Counting bits *)

Lemma below_forallb (P : Z -> bool) (k : nat) :
  forallb P (map Z.of_nat (seq 0 k)) = true ->
  forall b, 0 <= b < Z.of_nat k -> P b = true.
Proof.
  intros H b Hb. rewrite forallb_forall in H. apply H.
  apply in_map_iff. exists (Z.to_nat b). split; [lia|]. apply in_seq. lia.
Qed.

Lemma land_bytes x y :
  Z.land x y
  = Z.land (x mod 256) (y mod 256) + 256 * Z.land (x / 256) (y / 256).
Proof.
  rewrite (Z.div_mod (Z.land x y) 256) at 1 by lia.
  rewrite Z.add_comm. f_equal.
  - change 256 with (2 ^ 8). rewrite <- !Z.land_ones by lia.
    apply Z.bits_inj'. intros i Hi. rewrite !Z.land_spec.
    destruct (Z.testbit x i), (Z.testbit y i), (Z.testbit (Z.ones 8) i);
      reflexivity.
  - f_equal. change 256 with (2 ^ 8).
    rewrite <- !Z.shiftr_div_pow2 by lia. apply Z.shiftr_land.
Qed.

Lemma count_byte1 b :
  0 <= b < 256 ->
  0 <= Z.land (b / 2) 85 <= b
  /\ Z.land (b / 2 + 128) 85 = Z.land (b / 2) 85.
Proof.
  intros Hb.
  pose proof (below_forallb
    (fun b => (0 <=? Z.land (b / 2) 85) && (Z.land (b / 2) 85 <=? b)
              && (Z.land (b / 2 + 128) 85 =? Z.land (b / 2) 85))
    256 ltac:(vm_compute; reflexivity) b Hb) as H.
  cbv beta in H. rewrite !andb_true_iff, !Z.leb_le, Z.eqb_eq in H. tauto.
Qed.

Lemma count_byte2 c :
  0 <= c < 256 ->
  Z.land (c / 4 + 64) 51 = Z.land (c / 4) 51
  /\ Z.land (c / 4 + 128) 51 = Z.land (c / 4) 51
  /\ Z.land (c / 4 + 192) 51 = Z.land (c / 4) 51
  /\ 0 <= Z.land (c / 4) 51 + Z.land c 51 < 256.
Proof.
  intros Hc.
  pose proof (below_forallb
    (fun c => (Z.land (c / 4 + 64) 51 =? Z.land (c / 4) 51)
              && (Z.land (c / 4 + 128) 51 =? Z.land (c / 4) 51)
              && (Z.land (c / 4 + 192) 51 =? Z.land (c / 4) 51)
              && (0 <=? Z.land (c / 4) 51 + Z.land c 51)
              && (Z.land (c / 4) 51 + Z.land c 51 <? 256))
    256 ltac:(vm_compute; reflexivity) c Hc) as H.
  cbv beta in H.
  rewrite !andb_true_iff, !Z.eqb_eq, Z.leb_le, Z.ltb_lt in H. tauto.
Qed.

Lemma count_byte3 b c d :
  0 <= b < 256 ->
  c = b - Z.land (b / 2) 85 ->
  d = Z.land (c / 4) 51 + Z.land c 51 ->
  d mod 16 <= 4 /\ d / 16 <= 4
  /\ d mod 16 + d / 16 = BitUtils32.popcount 8 b.
Proof.
  intros Hb -> ->.
  pose proof (below_forallb
    (fun b =>
       let c := b - Z.land (b / 2) 85 in
       let d := Z.land (c / 4) 51 + Z.land c 51 in
       (d mod 16 <=? 4) && (d / 16 <=? 4)
       && (d mod 16 + d / 16 =? BitUtils32.popcount 8 b))
    256 ltac:(vm_compute; reflexivity) b Hb) as H.
  cbv beta zeta in H.
  rewrite !andb_true_iff, !Z.leb_le, Z.eqb_eq in H. tauto.
Qed.

Lemma count_stage1 b r m :
  0 <= b < 256 -> 0 <= r -> 0 <= m ->
  Z.land ((b + 256 * r) / 2) (85 + 256 * m)
  = Z.land (b / 2) 85 + 256 * Z.land (r / 2) m.
Proof.
  intros Hb Hr Hm. rewrite land_bytes.
  replace (((b + 256 * r) / 2) mod 256) with (b / 2 + 128 * (r mod 2))
    by dlia.
  replace ((85 + 256 * m) mod 256) with 85 by dlia.
  replace ((b + 256 * r) / 2 / 256) with (r / 2) by dlia.
  replace ((85 + 256 * m) / 256) with m by dlia.
  f_equal.
  assert (Hbit : r mod 2 = 0 \/ r mod 2 = 1) by dlia.
  destruct Hbit as [-> | ->].
  - now rewrite Z.add_0_r.
  - now apply count_byte1.
Qed.

Lemma count_stage2_shifted c r m :
  0 <= c < 256 -> 0 <= r -> 0 <= m ->
  Z.land ((c + 256 * r) / 4) (51 + 256 * m)
  = Z.land (c / 4) 51 + 256 * Z.land (r / 4) m.
Proof.
  intros Hc Hr Hm. rewrite land_bytes.
  replace (((c + 256 * r) / 4) mod 256) with (c / 4 + 64 * (r mod 4))
    by dlia.
  replace ((51 + 256 * m) mod 256) with 51 by dlia.
  replace ((c + 256 * r) / 4 / 256) with (r / 4) by dlia.
  replace ((51 + 256 * m) / 256) with m by dlia.
  f_equal.
  destruct (count_byte2 c Hc) as (H1 & H2 & H3 & _).
  assert (Hbits : r mod 4 = 0 \/ r mod 4 = 1 \/ r mod 4 = 2 \/ r mod 4 = 3)
    by dlia.
  destruct Hbits as [-> | [-> | [-> | ->]]];
    [now rewrite Z.add_0_r | exact H1 | exact H2 | exact H3].
Qed.

Lemma count_stage2_plain c r m :
  0 <= c < 256 -> 0 <= r -> 0 <= m ->
  Z.land (c + 256 * r) (51 + 256 * m)
  = Z.land c 51 + 256 * Z.land r m.
Proof.
  intros Hc Hr Hm. rewrite land_bytes.
  replace ((c + 256 * r) mod 256) with c by dlia.
  replace ((51 + 256 * m) mod 256) with 51 by dlia.
  replace ((c + 256 * r) / 256) with r by dlia.
  replace ((51 + 256 * m) / 256) with m by dlia.
  reflexivity.
Qed.

Lemma count_stage3_last d :
  0 <= d -> d mod 16 <= 4 -> d / 16 <= 4 ->
  Z.land (d + d / 16) 15 = d mod 16 + d / 16.
Proof.
  intros Hd Hlo Hhi. change 15 with (Z.ones 4).
  rewrite Z.land_ones by lia. change (2 ^ 4) with 16. dlia.
Qed.

Lemma count_stage3 d r m :
  0 <= d -> d mod 16 <= 4 -> d / 16 <= 4 ->
  0 <= r -> r mod 16 <= 4 -> 0 <= m ->
  Z.land ((d + 256 * r) + (d + 256 * r) / 16) (15 + 256 * m)
  = (d mod 16 + d / 16) + 256 * Z.land (r + r / 16) m.
Proof.
  intros Hd Hlo Hhi Hr Hrlo Hm. rewrite land_bytes.
  replace (((d + 256 * r) + (d + 256 * r) / 16) mod 256)
    with (d + d / 16 + 16 * (r mod 16)) by dlia.
  replace ((15 + 256 * m) mod 256) with 15 by dlia.
  replace (((d + 256 * r) + (d + 256 * r) / 16) / 256)
    with (r + r / 16) by dlia.
  replace ((15 + 256 * m) / 256) with m by dlia.
  f_equal. change 15 with (Z.ones 4).
  rewrite Z.land_ones by lia. change (2 ^ 4) with 16. dlia.
Qed.

Lemma testbit_byte_low b r i :
  0 <= b < 256 -> 0 <= i < 8 ->
  Z.testbit (b + 256 * r) i = Z.testbit b i.
Proof.
  intros Hb Hi.
  rewrite <- (Z.mod_pow2_bits_low (b + 256 * r) 8 i) by lia.
  f_equal. change (2 ^ 8) with 256. dlia.
Qed.

Lemma testbit_byte_high b r i :
  0 <= b < 256 -> 0 <= i ->
  Z.testbit (b + 256 * r) (i + 8) = Z.testbit r i.
Proof.
  intros Hb Hi.
  rewrite <- (Z.div_pow2_bits (b + 256 * r) 8 i) by lia.
  f_equal. change (2 ^ 8) with 256. dlia.
Qed.

Lemma popcount_ext w x y :
  (forall i, 0 <= i < Z.of_nat w -> Z.testbit x i = Z.testbit y i) ->
  BitUtils32.popcount w x = BitUtils32.popcount w y.
Proof.
  induction w as [|w IH]; intros H; cbn [BitUtils32.popcount];
    [reflexivity|].
  rewrite IH by (intros i Hi; apply H; lia).
  rewrite (H (Z.of_nat w)) by lia. reflexivity.
Qed.

Lemma popcount_byte w b r :
  0 <= b < 256 ->
  BitUtils32.popcount (w + 8) (b + 256 * r)
  = BitUtils32.popcount 8 b + BitUtils32.popcount w r.
Proof.
  intros Hb. induction w as [|w IH].
  - cbn [Nat.add]. rewrite Z.add_0_r. apply popcount_ext.
    intros i Hi. apply testbit_byte_low; lia.
  - change (S w + 8)%nat with (S (w + 8)).
    change (BitUtils32.popcount (S (w + 8)) (b + 256 * r))
      with (BitUtils32.popcount (w + 8) (b + 256 * r)
            + Z.b2z (Z.testbit (b + 256 * r) (Z.of_nat (w + 8)))).
    change (BitUtils32.popcount (S w) r)
      with (BitUtils32.popcount w r + Z.b2z (Z.testbit r (Z.of_nat w))).
    rewrite IH.
    replace (Z.of_nat (w + 8)) with (Z.of_nat w + 8) by lia.
    rewrite testbit_byte_high by lia. lia.
Qed.

Lemma popcount_range w n : 0 <= BitUtils32.popcount w n <= Z.of_nat w.
Proof.
  induction w as [|w IH]; cbn [BitUtils32.popcount]; [lia|].
  destruct (Z.testbit n (Z.of_nat w)); cbn [Z.b2z]; lia.
Qed.

(** X24.  [CountOneBits32] of a 32-bit value is the number of its bits
    that are set. *)
Theorem CountOneBits32_popcount (n : Z) (Hn : 0 <= n < 2 ^ 32) :
  BitUtils32.CountOneBits32 n = BitUtils32.popcount 32 n.
Proof.
  change (2 ^ 32) with 4294967296 in Hn.
  (* The four bytes of [n]. *)
  set (b0 := n mod 256). set (b1 := (n / 256) mod 256).
  set (b2 := (n / 65536) mod 256). set (b3 := n / 16777216).
  assert (H0 : 0 <= b0 < 256) by (subst b0; dlia).
  assert (H1 : 0 <= b1 < 256) by (subst b1; dlia).
  assert (H2 : 0 <= b2 < 256) by (subst b2; dlia).
  assert (H3 : 0 <= b3 < 256) by (subst b3; dlia).
  assert (Hbytes : n = b0 + 256 * (b1 + 256 * (b2 + 256 * b3)))
    by (subst b0 b1 b2 b3; dlia).
  clearbody b0 b1 b2 b3. subst n. clear Hn.
  (* The number of bits of each byte. *)
  rewrite (popcount_byte 24 b0), (popcount_byte 16 b1),
    (popcount_byte 8 b2) by assumption.
  unfold BitUtils32.CountOneBits32.
  (* First stage: the counts of the pairs of bits. *)
  rewrite (Z.shiftr_div_pow2 _ 1) by lia. change (2 ^ 1) with 2.
  change 0x55555555 with (85 + 256 * (85 + 256 * (85 + 256 * 85))).
  rewrite !count_stage1 by lia.
  destruct (count_byte1 b0 H0) as [Hx0 _].
  destruct (count_byte1 b1 H1) as [Hx1 _].
  destruct (count_byte1 b2 H2) as [Hx2 _].
  destruct (count_byte1 b3 H3) as [Hx3 _].
  pose proof (count_byte3 b0 _ _ H0 eq_refl eq_refl) as Hp0.
  pose proof (count_byte3 b1 _ _ H1 eq_refl eq_refl) as Hp1.
  pose proof (count_byte3 b2 _ _ H2 eq_refl eq_refl) as Hp2.
  pose proof (count_byte3 b3 _ _ H3 eq_refl eq_refl) as Hp3.
  set (c0 := b0 - Z.land (b0 / 2) 85) in *.
  set (c1 := b1 - Z.land (b1 / 2) 85) in *.
  set (c2 := b2 - Z.land (b2 / 2) 85) in *.
  set (c3 := b3 - Z.land (b3 / 2) 85) in *.
  assert (Hc0 : 0 <= c0 < 256) by (subst c0; lia).
  assert (Hc1 : 0 <= c1 < 256) by (subst c1; lia).
  assert (Hc2 : 0 <= c2 < 256) by (subst c2; lia).
  assert (Hc3 : 0 <= c3 < 256) by (subst c3; lia).
  replace (b0 + 256 * (b1 + 256 * (b2 + 256 * b3))
           - (Z.land (b0 / 2) 85
              + 256 * (Z.land (b1 / 2) 85
                       + 256 * (Z.land (b2 / 2) 85
                                + 256 * Z.land (b3 / 2) 85))))
    with (c0 + 256 * (c1 + 256 * (c2 + 256 * c3)))
    by (subst c0 c1 c2 c3; ring).
  clearbody c0 c1 c2 c3.
  rewrite (to_unsigned_small 32 (c0 + _))
    by (change (2 ^ 32) with 4294967296; lia).
  (* Second stage: the counts of the groups of four bits. *)
  rewrite (Z.shiftr_div_pow2 _ 2) by lia. change (2 ^ 2) with 4.
  change 0x33333333 with (51 + 256 * (51 + 256 * (51 + 256 * 51))).
  rewrite !count_stage2_shifted, !count_stage2_plain by lia.
  destruct (count_byte2 c0 Hc0) as (_ & _ & _ & Hd0).
  destruct (count_byte2 c1 Hc1) as (_ & _ & _ & Hd1).
  destruct (count_byte2 c2 Hc2) as (_ & _ & _ & Hd2).
  destruct (count_byte2 c3 Hc3) as (_ & _ & _ & Hd3).
  set (d0 := Z.land (c0 / 4) 51 + Z.land c0 51) in *.
  set (d1 := Z.land (c1 / 4) 51 + Z.land c1 51) in *.
  set (d2 := Z.land (c2 / 4) 51 + Z.land c2 51) in *.
  set (d3 := Z.land (c3 / 4) 51 + Z.land c3 51) in *.
  replace (Z.land (c0 / 4) 51
           + 256 * (Z.land (c1 / 4) 51
                    + 256 * (Z.land (c2 / 4) 51
                             + 256 * Z.land (c3 / 4) 51))
           + (Z.land c0 51
              + 256 * (Z.land c1 51
                       + 256 * (Z.land c2 51 + 256 * Z.land c3 51))))
    with (d0 + 256 * (d1 + 256 * (d2 + 256 * d3)))
    by (subst d0 d1 d2 d3; ring).
  clearbody d0 d1 d2 d3.
  rewrite (to_unsigned_small 32 (d0 + _))
    by (change (2 ^ 32) with 4294967296; lia).
  (* Third stage: the counts of the bytes. *)
  destruct Hp0 as (Hl0 & Hh0 & <-). destruct Hp1 as (Hl1 & Hh1 & <-).
  destruct Hp2 as (Hl2 & Hh2 & <-). destruct Hp3 as (Hl3 & Hh3 & <-).
  rewrite (Z.shiftr_div_pow2 _ 4) by lia. change (2 ^ 4) with 16.
  rewrite (to_unsigned_small 32 (_ + _ / 16))
    by (change (2 ^ 32) with 4294967296; dlia).
  change 0xF0F0F0F with (15 + 256 * (15 + 256 * (15 + 256 * 15))).
  rewrite (count_stage3 d0) by (lia || dlia).
  rewrite (count_stage3 d1) by (lia || dlia).
  rewrite (count_stage3 d2) by (lia || dlia).
  rewrite (count_stage3_last d3) by lia.
  set (p0 := d0 mod 16 + d0 / 16) in *.
  set (p1 := d1 mod 16 + d1 / 16) in *.
  set (p2 := d2 mod 16 + d2 / 16) in *.
  set (p3 := d3 mod 16 + d3 / 16) in *.
  assert (Hq0 : 0 <= p0 <= 8) by (subst p0; dlia).
  assert (Hq1 : 0 <= p1 <= 8) by (subst p1; dlia).
  assert (Hq2 : 0 <= p2 <= 8) by (subst p2; dlia).
  assert (Hq3 : 0 <= p3 <= 8) by (subst p3; dlia).
  clearbody p0 p1 p2 p3.
  (* Last stage: the sum of the four counts, in the top byte. *)
  rewrite Z.shiftr_div_pow2 by lia. unfold Int.to_unsigned.
  change (2 ^ 32) with 4294967296. change (2 ^ 24) with 16777216.
  change 0x1010101 with 16843009.
  replace ((p0 + 256 * (p1 + 256 * (p2 + 256 * p3))) * 16843009
             mod 4294967296 / 16777216)
    with (p0 + (p1 + (p2 + p3))) by dlia.
  apply to_signed_small; [lia|].
  change (2 ^ (32 - 1)) with 2147483648. lia.
Qed.

Lemma CountOneBits32_popcount_witness :
  BitUtils32.CountOneBits32 0xF0F10003 = BitUtils32.popcount 32 0xF0F10003.
Proof.
  apply CountOneBits32_popcount. split; [lia | vm_compute; reflexivity].
Defined.
